(** * sfctl application package upload and provisioning

    A shallow embedding of [src/sfctl/custom_app.py]: the package upload
    pipeline ([upload], [upload_to_fileshare], [upload_to_native_imagestore],
    [path_from_imagestore_string], [print_progress], [validate_app_path]),
    the provisioning call ([provision_application_type]) and the creation
    of an application ([create], [parse_app_params], [parse_app_metrics]).

    Python strings are [string]; Python integers are [Z]; [os.path] is the
    POSIX flavour ([posixpath], separator [/]); [urlparse] and [urlunparse]
    are those of [urllib.parse].  Effects (printing, the
    file system, HTTP) are threaded through an error-and-trace monad: a
    computation extends the list of events performed so far and either
    returns a value or raises a Python exception. *)

From Stdlib Require Import String Ascii List ZArith Bool Arith Lia.
From Stdlib Require Import DecimalString.
Import ListNotations.
Local Open Scope list_scope.
Local Open Scope string_scope.

(** ** Python [str] methods *)

(** [s.startswith(p)] *)
Definition startswith (p s : string) : bool := String.prefix p s.

(** [needle in s] *)
Fixpoint str_contains (needle s : string) : bool :=
  startswith needle s ||
  match s with
  | EmptyString => false
  | String _ s' => str_contains needle s'
  end.

(** [s.find(needle)]: index of the leftmost occurrence. *)
Fixpoint str_find (needle s : string) : option nat :=
  if startswith needle s then Some 0%nat
  else match s with
       | EmptyString => None
       | String _ s' => option_map S (str_find needle s')
       end.

(** [s[n:]] *)
Fixpoint str_drop (n : nat) (s : string) : string :=
  match n, s with
  | O, _ => s
  | S _, EmptyString => EmptyString
  | S k, String _ s' => str_drop k s'
  end.

(** [s[:n]] *)
Fixpoint str_take (n : nat) (s : string) : string :=
  match n, s with
  | O, _ => EmptyString
  | S _, EmptyString => EmptyString
  | S k, String c s' => String c (str_take k s')
  end.

(** [s.split(sep)] for a non-empty [sep]: the pieces between the leftmost,
    non-overlapping occurrences of [sep].  [skip] counts the characters of
    a matched separator that are still to be consumed. *)
Fixpoint split_go (sep s : string) (skip : nat) : list string :=
  match s with
  | EmptyString => [EmptyString]
  | String c s' =>
      match skip with
      | S k => split_go sep s' k
      | O =>
          if startswith sep s
          then EmptyString :: split_go sep s' (String.length sep - 1)
          else match split_go sep s' 0 with
               | piece :: rest => String c piece :: rest
               | [] => [String c EmptyString]
               end
      end
  end.

Definition str_split (sep s : string) : list string := split_go sep s 0.

(** [s.replace(old, new)]: every leftmost, non-overlapping occurrence of
    [old] becomes [new]. *)
Fixpoint replace_go (old new s : string) (skip : nat) : string :=
  match s with
  | EmptyString => EmptyString
  | String c s' =>
      match skip with
      | S k => replace_go old new s' k
      | O =>
          if startswith old s
          then new ++ replace_go old new s' (String.length old - 1)
          else String c (replace_go old new s' 0)
      end
  end.

(** With an empty [old], Python puts [new] before every character and at
    the end. *)
Fixpoint replace_empty (new s : string) : string :=
  match s with
  | EmptyString => new
  | String c s' => new ++ String c (replace_empty new s')
  end.

Definition str_replace (old new s : string) : string :=
  if old =? "" then replace_empty new s else replace_go old new s 0.

(** [template.format(...)] for a template whose only fields are [{}]. *)
Fixpoint interleave (pieces args : list string) : string :=
  match pieces with
  | [] => EmptyString
  | piece :: pieces' =>
      match pieces', args with
      | _ :: _, a :: args' => piece ++ a ++ interleave pieces' args'
      | _, _ => piece ++ interleave pieces' args
      end
  end.

Definition str_format (template : string) (args : list string) : string :=
  interleave (split_go "{}" template 0) args.

(** [c in chars] for a character. *)
Fixpoint char_in (c : ascii) (chars : string) : bool :=
  match chars with
  | EmptyString => false
  | String d chars' => Ascii.eqb c d || char_in c chars'
  end.

(** [s.lstrip(chars)] *)
Fixpoint str_lstrip (chars s : string) : string :=
  match s with
  | EmptyString => EmptyString
  | String c s' => if char_in c chars then str_lstrip chars s' else s
  end.

(** [s.endswith("/")] and friends, for a one-character suffix. *)
Fixpoint ends_with_char (c : ascii) (s : string) : bool :=
  match s with
  | EmptyString => false
  | String d EmptyString => Ascii.eqb c d
  | String _ s' => ends_with_char c s'
  end.

(** [sep.join(parts)] *)
Definition str_join (sep : string) (parts : list string) : string :=
  String.concat sep parts.

(** [str(n)] for an integer. *)
Definition str_of_int (n : Z) : string := NilZero.string_of_int (Z.to_int n).

(** Upper-case ASCII letters to lower case, as [s.lower()] does on ASCII. *)
Definition ascii_lower (c : ascii) : ascii :=
  let n := nat_of_ascii c in
  if (65 <=? n)%nat && (n <=? 90)%nat then ascii_of_nat (n + 32) else c.

Fixpoint str_lower (s : string) : string :=
  match s with
  | EmptyString => EmptyString
  | String c s' => String (ascii_lower c) (str_lower s')
  end.

(** ** [os.path] on POSIX *)

Definition sep : string := "/".
Definition curdir : string := ".".
Definition pardir : string := "..".

(** [os.path.isabs] *)
Definition isabs (p : string) : bool := startswith sep p.

(** One step of [os.path.join(a, *p)]: the loop body for component [b]. *)
Definition join2 (path b : string) : string :=
  if startswith sep b then b
  else if (path =? "") || ends_with_char "/" path then path ++ b
  else path ++ sep ++ b.

(** [os.path.join(a, *p)] *)
Definition path_join (a : string) (p : list string) : string :=
  fold_left join2 p a.

(** The loop body of [os.path.normpath]. *)
Definition normpath_step (initial_slashes : nat) (new_comps : list string)
    (comp : string) : list string :=
  if (comp =? "") || (comp =? curdir) then new_comps
  else if negb (comp =? pardir)
          || ((initial_slashes =? 0)%nat && (length new_comps =? 0)%nat)
          || (last new_comps "" =? pardir)
       then (new_comps ++ [comp])%list
       else removelast new_comps.

(** [os.path.normpath] *)
Definition normpath (path : string) : string :=
  if path =? "" then curdir
  else
    let initial_slashes :=
      if startswith sep path
      then if startswith "//" path && negb (startswith "///" path)
           then 2%nat else 1%nat
      else 0%nat in
    let comps := str_split sep path in
    let new_comps := fold_left (normpath_step initial_slashes) comps [] in
    let p := String.concat "" (repeat sep initial_slashes)
             ++ str_join sep new_comps in
    if p =? "" then curdir else p.

(** [os.path.abspath], with the current working directory as a parameter. *)
Definition abspath (cwd path : string) : string :=
  normpath (if isabs path then path else join2 cwd path).

(** [os.path.basename]: the text after the last separator. *)
Fixpoint basename (p : string) : string :=
  match p with
  | EmptyString => EmptyString
  | String c p' =>
      if str_contains sep p then basename p' else p
  end.

(** [os.path.commonprefix] of two component lists. *)
Fixpoint commonprefix (l1 l2 : list string) : list string :=
  match l1, l2 with
  | x :: l1', y :: l2' => if x =? y then x :: commonprefix l1' l2' else []
  | _, _ => []
  end.

(** [[x for x in abspath(p).split(sep) if x]] *)
Definition path_components (cwd p : string) : list string :=
  filter (fun x => negb (x =? "")) (str_split sep (abspath cwd p)).

(** The body of [os.path.relpath(path, start)] for a non-empty [path]. *)
Definition relpath_of (cwd path start : string) : string :=
  let start_list := path_components cwd start in
  let path_list := path_components cwd path in
  let i := length (commonprefix start_list path_list) in
  let rel_list := (repeat pardir (length start_list - i)
                   ++ skipn i path_list)%list in
  match rel_list with
  | [] => curdir
  | a :: p => path_join a p
  end.

(** ** Exceptions, events and the monad *)

(** An HTTP response, as far as this module looks at it. *)
Record Response := { status_code : Z; content : string }.

Inductive exn :=
| CLIError (msg : string)
| ValueError (msg : string)
| TypeError (msg : string)
| IndexError (msg : string)
| NameError (name : string)
| OSError (msg : string)                   (* file system failures *)
| RequestException (msg : string)          (* requests: no response *)
| HTTPError (response : Response)          (* requests: raise_for_status *)
| ValidationError (rule target : string)   (* msrest client-side validation *)
| FabricErrorException (response : Response).

Inductive result (A : Type) :=
| Ok (a : A)
| Raise (e : exn).
Arguments Ok {A} a.
Arguments Raise {A} e.

(** [os.path.relpath]: an empty [path] is refused. *)
Definition relpath (cwd path start : string) : result string :=
  if path =? "" then Raise (ValueError "no path specified")
  else Ok (relpath_of cwd path start).

Inductive stream := Stdout | Stderr.

(** [sesh.verify]: [True], [False] or the path of a CA bundle. *)
Inductive Verify := VerifyTrue | VerifyFalse | VerifyBundle (ca_cert : string).

(** The fields of [requests.Session] that [upload] sets. *)
Record Session := { verify : Verify; cert : option string }.

(** The six components of [urlparse]'s result, in index order. *)
Record ParseResult := {
  scheme : string;      (* [0] *)
  netloc : string;      (* [1] *)
  url_path : string;    (* [2] *)
  params : string;      (* [3] *)
  query : string;       (* [4] *)
  fragment : string     (* [5] *)
}.

(** The two request bodies of the provisioning call, with the arguments
    as they are passed in. *)
Inductive Description :=
| ProvisionApplicationTypeDescription
    (async : bool) (application_type_build_path : option string)
| ExternalStoreProvisionApplicationTypeDescription
    (async : bool) (application_package_download_uri : option string)
    (application_type_name : option string)
    (application_type_version : option string).

(** What [client._client.post] and [send] put on the wire: the URL, the
    query parameters, the headers and the body with the name of the model
    type it is serialized as. *)
Record Request := {
  req_url : string;
  req_query : list (string * string);
  req_headers : list (string * string);
  req_body : Description;
  req_body_type : string
}.

(** Everything the module does to the outside world. *)
Inductive event :=
| EvPrint (file : stream) (text : string)           (* [print(text, file=file)] *)
| EvOpen (path : string)                            (* [open(path, 'rb')] *)
| EvPut (sesh : Session) (url : string) (data : option string)
        (res : result Response)                     (* [sesh.put(url, data=...)] *)
| EvMakedirs (path : string)                        (* [os.makedirs(path)] *)
| EvCopyfile (src dst : string)                     (* [shutil.copyfile(src, dst)] *)
| EvSend (request : Request) (res : result Response). (* [client._client.send] *)

(** A directory: the names of its non-directory entries and its
    subdirectories, in the order [os.walk] lists them. *)
#[warnings="-register-all"]
Inductive tree :=
| Dir (files : list string) (subdirs : list (string * tree)).

(** What [ipaddress.ip_address] returns. *)
Inductive IPAddress := IPv4Address | IPv6Address.

(** The environment of a run: the configuration read through [sfctl.config],
    the file system, and the answers of the cluster.  Answers may depend on
    what has happened so far.  The tree that [os.walk] sees under a path is
    taken to stay the same during one run.  The last two fields are the
    library functions that [urllib.parse] calls when it validates a network
    location: [unicodedata.normalize('NFKC', s)] and
    [ipaddress.ip_address(s)], which raises [ValueError] for text that is
    not an address. *)
Record Env := {
  env_cwd : string;
  env_tree : string -> option tree;
  env_isdir : list event -> string -> bool;
  env_open : list event -> string -> option exn;
  env_makedirs : list event -> string -> option exn;
  env_copyfile : list event -> string -> string -> option exn;
  env_put : list event -> Session -> string -> option string -> result Response;
  env_send : list event -> Request -> result Response;
  client_endpoint : string;
  no_verify_setting : bool;
  ca_cert_info : option string;
  cert_info : option string;
  unicodedata_normalize : string -> string;
  ip_address : string -> result IPAddress
}.

(** A computation reads the events so far, appends its own, and returns or
    raises. *)
Definition M (A : Type) : Type := list event -> result A * list event.

Definition ret {A} (a : A) : M A := fun tr => (Ok a, tr).

Definition raise {A} (e : exn) : M A := fun tr => (Raise e, tr).

Definition bind {A B} (c : M A) (k : A -> M B) : M B :=
  fun tr =>
    match c tr with
    | (Ok a, tr') => k a tr'
    | (Raise e, tr') => (Raise e, tr')
    end.

Notation "x <- c ;; k" := (bind c (fun x => k))
  (at level 61, c at next level, right associativity).
Notation "c ;;; k" := (bind c (fun _ => k))
  (at level 61, right associativity).

(** Lift a pure computation that may raise. *)
Definition lift {A} (r : result A) : M A := fun tr => (r, tr).

(** Perform [ev]. *)
Definition emit (ev : event) : M unit := fun tr => (Ok tt, (tr ++ [ev])%list).

(** Perform the event that [mk] builds from the outcome [ask] gives for the
    history so far, and return or raise that outcome. *)
Definition call {A} (ask : list event -> result A)
    (mk : result A -> event) : M A :=
  fun tr => let r := ask tr in (r, (tr ++ [mk r])%list).

Definition outcome (o : option exn) : result unit :=
  match o with
  | None => Ok tt
  | Some e => Raise e
  end.

(** [for x in xs: body], with the loop-carried variables as [s]. *)
Fixpoint for_each {A S} (xs : list A) (body : A -> S -> M S) (s : S) : M S :=
  match xs with
  | [] => ret s
  | x :: xs' => s' <- body x s ;; for_each xs' body s'
  end.

(** Sequencing of pure computations that may raise. *)
Definition rbind {A B} (r : result A) (k : A -> result B) : result B :=
  match r with
  | Ok a => k a
  | Raise e => Raise e
  end.

Notation "x <-- r ;; k" := (rbind r (fun x => k))
  (at level 61, r at next level, right associativity).

(** [o == s] for an optional string [o] and a string [s]. *)
Definition py_eq (o : option string) (s : string) : bool :=
  match o with
  | Some x => x =? s
  | None => false
  end.

(** Python truthiness of an optional string: [None] and [''] are false. *)
Definition truthy (o : option string) : bool :=
  match o with
  | Some s => negb (s =? "")
  | None => false
  end.

(** ** [os.walk] *)

(** [os.walk(top)], top-down: a directory, then each subdirectory in turn. *)
Fixpoint walk (top : string) (t : tree) : list (string * list string * list string) :=
  match t with
  | Dir files subdirs =>
      (top, map fst subdirs, files)
      :: flat_map (fun d => walk (join2 top (fst d)) (snd d)) subdirs
  end.

Definition os_walk (env : Env) (top : string)
  : list (string * list string * list string) :=
  match env_tree env top with
  | Some t => walk top t
  | None => []
  end.

(** The number of files and of directories (the root included) in a tree. *)
Fixpoint count_files (t : tree) : nat :=
  match t with
  | Dir files subdirs =>
      length files + list_sum (map (fun d => count_files (snd d)) subdirs)
  end.

Fixpoint count_dirs (t : tree) : nat :=
  match t with
  | Dir _ subdirs => 1 + list_sum (map (fun d => count_dirs (snd d)) subdirs)
  end.

(** ** The module [sfctl.custom_app] *)

(** [response.raise_for_status()] of [requests]: statuses 400 to 599 raise
    [HTTPError]. *)
Definition raise_for_status (res : Response) : result unit :=
  if (400 <=? status_code res)%Z && (status_code res <? 600)%Z
  then Raise (HTTPError res)
  else Ok tt.

(** The characters that [quote_plus] leaves alone: letters, digits and
    [_.-~]. *)
Definition is_unreserved (c : ascii) : bool :=
  let n := nat_of_ascii c in
  ((65 <=? n)%nat && (n <=? 90)%nat)
  || ((97 <=? n)%nat && (n <=? 122)%nat)
  || ((48 <=? n)%nat && (n <=? 57)%nat)
  || char_in c "_.-~".

Definition hex_digit (n : nat) : ascii :=
  nth n (list_ascii_of_string "0123456789ABCDEF") "0"%char.

(** [urllib.parse.quote_plus] on a string of bytes. *)
Fixpoint quote_plus (s : string) : string :=
  match s with
  | EmptyString => EmptyString
  | String c s' =>
      (if is_unreserved c then String c EmptyString
       else if Ascii.eqb c " " then "+"
       else String "%" (String (hex_digit (nat_of_ascii c / 16))
                          (String (hex_digit (nat_of_ascii c mod 16))
                             EmptyString)))
      ++ quote_plus s'
  end.

(** [urllib.parse.urlencode] of a dictionary of strings. *)
Definition urlencode (pairs : list (string * string)) : string :=
  str_join "&"
    (map (fun kv => quote_plus (fst kv) ++ "=" ++ quote_plus (snd kv)) pairs).

(** ** [urllib.parse]

    The functions of [urllib.parse] that the transfer calls, for [str]
    arguments, as CPython 3.11 defines them. *)

(** [all(p(c) for c in s)] *)
Fixpoint str_all (p : ascii -> bool) (s : string) : bool :=
  match s with
  | EmptyString => true
  | String c s' => p c && str_all p s'
  end.

(** [s.isascii()] *)
Definition str_isascii (s : string) : bool :=
  str_all (fun c => (nat_of_ascii c <? 128)%nat) s.

(** [c.isascii() and c.isalpha()] *)
Definition is_ascii_alpha (c : ascii) : bool :=
  let n := nat_of_ascii c in
  ((65 <=? n)%nat && (n <=? 90)%nat) || ((97 <=? n)%nat && (n <=? 122)%nat).

(** [s.find(needle, start)] *)
Definition str_find_from (needle s : string) (start : nat) : option nat :=
  option_map (Nat.add start) (str_find needle (str_drop start s)).

(** [s.rfind(needle)] *)
Fixpoint str_rfind (needle s : string) : option nat :=
  match s with
  | EmptyString => if startswith needle s then Some 0%nat else None
  | String _ s' =>
      match str_rfind needle s' with
      | Some i => Some (S i)
      | None => if startswith needle s then Some 0%nat else None
      end
  end.

(** [s[i:j]] *)
Definition str_slice (i j : nat) (s : string) : string :=
  str_take (j - i) (str_drop i s).

(** [s.partition(sep)] *)
Definition str_partition (sep s : string) : string * string * string :=
  match str_find sep s with
  | Some i => (str_take i s, sep, str_drop (i + String.length sep) s)
  | None => (s, "", "")
  end.

(** [s.rpartition(sep)] *)
Definition str_rpartition (sep s : string) : string * string * string :=
  match str_rfind sep s with
  | Some i => (str_take i s, sep, str_drop (i + String.length sep) s)
  | None => ("", "", s)
  end.

Definition uses_netloc : list string :=
  [""; "ftp"; "http"; "gopher"; "nntp"; "telnet"; "imap"; "wais"; "file";
   "mms"; "https"; "shttp"; "snews"; "prospero"; "rtsp"; "rtspu"; "rsync";
   "svn"; "svn+ssh"; "sftp"; "nfs"; "git"; "git+ssh"; "ws"; "wss"].

Definition uses_params : list string :=
  [""; "ftp"; "hdl"; "prospero"; "http"; "imap"; "https"; "shttp"; "rtsp";
   "rtspu"; "sip"; "sips"; "mms"; "sftp"; "tel"].

Definition scheme_chars : string :=
  "abcdefghijklmnopqrstuvwxyzABCDEFGHIJKLMNOPQRSTUVWXYZ0123456789+-.".

(** The characters [\x00] to [\x20]. *)
Definition WHATWG_C0_CONTROL_OR_SPACE : string :=
  string_of_list_ascii (map ascii_of_nat (seq 0 33)).

(** Tab, carriage return and line feed. *)
Definition UNSAFE_URL_BYTES_TO_REMOVE : list string :=
  [String (ascii_of_nat 9) ""; String (ascii_of_nat 13) "";
   String (ascii_of_nat 10) ""].

(** [_splitparams] *)
Definition splitparams (url : string) : string * string :=
  if str_contains "/" url then
    match str_find_from ";" url
            (match str_rfind "/" url with Some r => r | None => 0%nat end) with
    | Some i => (str_take i url, str_drop (i + 1) url)
    | None => (url, "")
    end
  else
    match str_find ";" url with
    | Some i => (str_take i url, str_drop (i + 1) url)
    | None => (str_take (String.length url - 1) url, url)  (* [i] is [-1] *)
    end.

(** [_splitnetloc] *)
Definition splitnetloc (url : string) (start : nat) : string * string :=
  let delim :=
    fold_left
      (fun delim c =>
         match str_find_from c url start with
         | Some wdelim => Nat.min delim wdelim
         | None => delim
         end)
      ["/"; "?"; "#"] (String.length url) in
  (str_slice start delim url, str_drop delim url).

(** [_checknetloc] *)
Definition checknetloc (env : Env) (netloc : string) : result unit :=
  if (netloc =? "") || str_isascii netloc then Ok tt
  else
    let n := str_replace "@" "" netloc in
    let n := str_replace ":" "" n in
    let n := str_replace "#" "" n in
    let n := str_replace "?" "" n in
    let netloc2 := unicodedata_normalize env n in
    if n =? netloc2 then Ok tt
    else if existsb (fun c => str_contains c netloc2) ["/"; "?"; "#"; "@"; ":"]
    then Raise (ValueError
                  ("netloc '" ++ netloc
                   ++ "' contains invalid characters under NFKC normalization"))
    else Ok tt.

(** The rest of [re.match(r"\Av[a-fA-F0-9]+\..+\Z", hostname)] behind the
    [v]: hexadecimal digits, at least one when [seen], a dot, and at least
    one character, none of them a line feed. *)
Fixpoint ipvfuture_rest (seen : bool) (s : string) : bool :=
  match s with
  | EmptyString => false
  | String c s' =>
      if char_in c "abcdefABCDEF0123456789" then ipvfuture_rest true s'
      else if Ascii.eqb c "." then
        seen && negb (s' =? "")
        && negb (str_contains (String (ascii_of_nat 10) "") s')
      else false
  end.

(** [_check_bracketed_host] *)
Definition check_bracketed_host (env : Env) (hostname : string)
  : result unit :=
  if startswith "v" hostname then
    if negb (ipvfuture_rest false (str_drop 1 hostname)) then
      Raise (ValueError "IPvFuture address is invalid")
    else Ok tt
  else
    ip <-- ip_address env hostname ;;
    match ip with
    | IPv4Address =>
        Raise (ValueError "An IPv4 address cannot be in brackets")
    | IPv6Address => Ok tt
    end.

(** [_check_bracketed_netloc] *)
Definition check_bracketed_netloc (env : Env) (netloc : string)
  : result unit :=
  let hostname_and_port := snd (str_rpartition "@" netloc) in
  let '(before_bracket, have_open_br, bracketed) :=
    str_partition "[" hostname_and_port in
  if negb (have_open_br =? "") then
    if negb (before_bracket =? "") then Raise (ValueError "Invalid IPv6 URL")
    else
      let '(hostname, _, port) := str_partition "]" bracketed in
      if negb (port =? "") && negb (startswith ":" port) then
        Raise (ValueError "Invalid IPv6 URL")
      else check_bracketed_host env hostname
  else
    let '(hostname, _, port) := str_partition ":" hostname_and_port in
    check_bracketed_host env hostname.

(** The scheme of [urlsplit]: the text before the first colon when it
    starts with a letter and consists of scheme characters, in lower case,
    and the text behind that colon. *)
Definition split_scheme (url : string) : string * string :=
  match str_find ":" url, url with
  | Some (S i), String c _ =>
      if is_ascii_alpha c
         && str_all (fun c => char_in c scheme_chars) (str_take (S i) url)
      then (str_lower (str_take (S i) url), str_drop (S i + 1) url)
      else ("", url)
  | _, _ => ("", url)
  end.

(** The network location of [urlsplit]: behind [//], up to the first of
    [/], [?] and [#], with the checks of its brackets. *)
Definition split_netloc (env : Env) (url : string)
  : result (string * string) :=
  if str_take 2 url =? "//" then
    let '(netloc, url) := splitnetloc url 2 in
    if (str_contains "[" netloc && negb (str_contains "]" netloc))
       || (str_contains "]" netloc && negb (str_contains "[" netloc))
    then Raise (ValueError "Invalid IPv6 URL")
    else
      _ <-- (if str_contains "[" netloc && str_contains "]" netloc
             then check_bracketed_netloc env netloc
             else Ok tt) ;;
      Ok (netloc, url)
  else Ok ("", url).

(** [url, rest = url.split(sep, 1)] when [sep in url]. *)
Definition split_once (sep url : string) : string * string :=
  if str_contains sep url then
    let '(before, _, after) := str_partition sep url in (before, after)
  else (url, "").

(** [urlsplit(url)]: scheme, network location, path, query, fragment. *)
Definition urlsplit (env : Env) (url : string)
  : result (string * string * string * string * string) :=
  let url := str_lstrip WHATWG_C0_CONTROL_OR_SPACE url in
  let url :=
    fold_left (fun url b => str_replace b "" url)
      UNSAFE_URL_BYTES_TO_REMOVE url in
  let '(scheme, url) := split_scheme url in
  located <-- split_netloc env url ;;
  let '(netloc, url) := located in
  let '(url, fragment) := split_once "#" url in
  let '(url, query) := split_once "?" url in
  _ <-- checknetloc env netloc ;;
  Ok (scheme, netloc, url, query, fragment).

(** [urlparse(url)] *)
Definition urlparse (env : Env) (url : string) : result ParseResult :=
  splitresult <-- urlsplit env url ;;
  let '(scheme, netloc, url, query, fragment) := splitresult in
  let '(url, params) :=
    if existsb (String.eqb scheme) uses_params && str_contains ";" url
    then splitparams url
    else (url, "") in
  Ok {| scheme := scheme; netloc := netloc; url_path := url;
        params := params; query := query; fragment := fragment |}.

(** [urlunparse(components)], through [urlunsplit]. *)
Definition urlunparse (p : ParseResult) : string :=
  let url := if params p =? "" then url_path p
             else url_path p ++ ";" ++ params p in
  let url :=
    if negb (netloc p =? "")
       || (negb (scheme p =? "")
           && existsb (String.eqb (scheme p)) uses_netloc
           && negb (str_take 2 url =? "//"))
    then "//" ++ netloc p
         ++ (if negb (url =? "") && negb (str_take 1 url =? "/")
             then "/" ++ url else url)
    else url in
  let url := if scheme p =? "" then url else scheme p ++ ":" ++ url in
  let url := if query p =? "" then url else url ++ "?" ++ query p in
  if fragment p =? "" then url else url ++ "#" ++ fragment p.

(** [d[k] = v] on a dictionary kept in insertion order. *)
Fixpoint dict_set (k v : string) (d : list (string * string))
  : list (string * string) :=
  match d with
  | [] => [(k, v)]
  | (k', v') :: d' =>
      if k' =? k then (k, v) :: d' else (k', v') :: dict_set k v d'
  end.

(** [d.update(other)] *)
Definition dict_update (d other : list (string * string))
  : list (string * string) :=
  fold_left (fun acc kv => dict_set (fst kv) (snd kv) acc) other d.

(** Modelled from the spec: [sfctl.params.to_bool], which is imported by
    the module but whose source is not part of it.  The spec describes a
    case-insensitive parser of [true] and [false] that fails on anything
    else; the test [tools_test.parse_boolean] expects [CLIError] for
    [gibberish].  The text of the message is not given. *)
Definition to_bool (value : string) : result bool :=
  if str_lower value =? "true" then Ok true
  else if str_lower value =? "false" then Ok false
  else Raise (CLIError ("Invalid boolean value: " ++ value)).

(** What [path_from_imagestore_string] returns: a string or [False]. *)
Inductive pyval :=
| PyStr (s : string)
| PyBool (b : bool).

Section CustomApp.

Variable env : Env.

(** [print(text, file=file)] *)
Definition print (text : string) (file : stream) : M unit :=
  emit (EvPrint file text).

(** [os.path.isdir(path)] *)
Definition isdir (path : string) : M bool :=
  fun tr => (Ok (env_isdir env tr path), tr).

(** [open(path, 'rb')]; the handle is identified by the path.  Closing
    the file at the end of the [with] block is not an event of the model,
    and neither is the opening and closing of the [requests.Session]. *)
Definition open (path : string) : M string :=
  call (fun tr => match env_open env tr path with
                  | None => Ok path
                  | Some e => Raise e
                  end)
       (fun _ => EvOpen path).

(** [os.makedirs(path)] *)
Definition makedirs (path : string) : M unit :=
  call (fun tr => outcome (env_makedirs env tr path))
       (fun _ => EvMakedirs path).

(** [shutil.copyfile(src, dst)] *)
Definition copyfile (src dst : string) : M unit :=
  call (fun tr => outcome (env_copyfile env tr src dst))
       (fun _ => EvCopyfile src dst).

(** [sesh.put(url, data=data)] *)
Definition put (sesh : Session) (url : string) (data : option string)
  : M Response :=
  call (fun tr => env_put env tr sesh url data) (EvPut sesh url data).

(** [client._client.send(request, header_parameters, body_content)] *)
Definition send (request : Request) : M Response :=
  call (fun tr => env_send env tr request) (EvSend request).

(** Lines 56 to 79 of [provision_application_type]: the validation of the
    inputs and the construction of the description. *)
Definition provision_description
    (provision_kind : option string) (async : string)
    (application_type_build_path : option string)
    (application_package_download_uri application_type_name
       application_type_version : option string)
  : result Description :=
  if negb (truthy provision_kind) then
    Raise (CLIError "Missing required parameter --provision-kind.")
  else if py_eq provision_kind "ImageStorePath" then
    if negb (truthy application_type_build_path) then
      Raise (CLIError
               "Missing required parameter --application-type-build-path.")
    else
      a <-- to_bool async ;;
      Ok (ProvisionApplicationTypeDescription a application_type_build_path)
  else if py_eq provision_kind "ExternalStore" then
    if negb (forallb truthy [application_package_download_uri;
                             application_type_name;
                             application_type_version]) then
      Raise (CLIError "Missing required parameters. The following are required: --application-package-download-uri, --application-type-name, --application-type-version.")
    else
      a <-- to_bool async ;;
      Ok (ExternalStoreProvisionApplicationTypeDescription
            a application_package_download_uri application_type_name
            application_type_version)
  else
    Raise (CLIError "Parameter --provision-kind has an incorrect value. Choose from the following: ImageStorePath, ExternalStore.").

(** [client._serialize.query("timeout", timeout, 'long', maximum=4294967295,
    minimum=1)]: msrest validates the bounds before it serializes. *)
Definition serialize_timeout (timeout : Z) : result string :=
  if (4294967295 <? timeout)%Z then Raise (ValidationError "maximum" "timeout")
  else if (timeout <? 1)%Z then Raise (ValidationError "minimum" "timeout")
  else Ok (str_of_int timeout).

(** [provision_application_type].  The name [ClientRawResponse] is bound
    nowhere in the module (it is neither imported nor defined), so the
    statement under [if raw:] raises [NameError]. *)
Definition provision_application_type
    (provision_kind : option string) (async : string)
    (application_type_build_path : option string)
    (application_package_download_uri application_type_name
       application_type_version : option string)
    (timeout : option Z) (custom_headers : option (list (string * string)))
    (raw : bool) : M unit :=
  provision_application_type_description_input <-
    lift (provision_description provision_kind async
            application_type_build_path application_package_download_uri
            application_type_name application_type_version) ;;
  let api_version := "6.1" in
  let url := "/ApplicationTypes/$/Provision" in
  let query_parameters := dict_set "api-version" api_version [] in
  query_parameters <-
    match timeout with
    | Some t =>
        v <- lift (serialize_timeout t) ;;
        ret (dict_set "timeout" v query_parameters)
    | None => ret query_parameters
    end ;;
  let header_parameters :=
    dict_set "Content-Type" "application/json; charset=utf-8" [] in
  let header_parameters :=
    match custom_headers with
    | Some (h :: hs) => dict_update header_parameters (h :: hs)
    | _ => header_parameters
    end in
  let body_type :=
    if py_eq provision_kind "ImageStorePath"
    then "ProvisionApplicationTypeDescription"
    else "ExternalStoreProvisionApplicationTypeDescription" in
  response <-
    send {| req_url := url;
            req_query := query_parameters;
            req_headers := header_parameters;
            req_body := provision_application_type_description_input;
            req_body_type := body_type |} ;;
  if negb ((status_code response =? 200)%Z || (status_code response =? 202)%Z)
  then raise (FabricErrorException response)
  else if raw then raise (NameError "ClientRawResponse")
  else ret tt.

(** [validate_app_path] *)
Definition validate_app_path (app_path : string) : M string :=
  let abspath := abspath (env_cwd env) app_path in
  is_dir <- isdir abspath ;;
  if is_dir then ret abspath
  else raise (ValueError
                ("Invalid path to application directory: " ++ abspath)).

(** [print_progress] *)
Definition print_progress (current total : Z) (rel_file_path : string)
    (show_progress : bool) : M unit :=
  if show_progress then
    print (str_format "[{}/{}] files, {}"
             [str_of_int current; str_of_int total; rel_file_path])
          Stderr
  else ret tt.

(** [path_from_imagestore_string] *)
Definition path_from_imagestore_string (imagestore_connstr : option string)
  : result pyval :=
  if truthy imagestore_connstr
     && match imagestore_connstr with
        | Some s => str_contains "file:" s
        | None => false
        end
  then
    let conn_str_list :=
      match imagestore_connstr with
      | Some s => str_split "file:" s
      | None => []
      end in
    match nth_error conn_str_list 1 with
    | Some piece => Ok (PyStr piece)
    | None => Raise (IndexError "list index out of range")
    end
  else Ok (PyBool false).

(** The body of the inner loop of [upload_to_fileshare], for the file [f]
    of the directory [root]. *)
Definition copy_file (source dest : string) (show_progress : bool)
    (total_files_count : Z) (root f : string) (current_files_count : Z)
  : M Z :=
  let rel_path := str_lstrip sep (str_replace source "" root) in
  let dest_path := path_join dest [rel_path] in
  is_dir <- isdir dest_path ;;
  (if negb is_dir then makedirs dest_path else ret tt) ;;;
  copyfile (path_join root [f]) (path_join dest_path [f]) ;;;
  let current_files_count := (current_files_count + 1)%Z in
  print_progress current_files_count total_files_count
    (normpath (path_join rel_path [f])) show_progress ;;;
  ret current_files_count.

(** [upload_to_fileshare] *)
Definition upload_to_fileshare (source dest : string) (show_progress : bool)
  : M unit :=
  let total_files_count :=
    fold_left (fun total entry => (total + Z.of_nat (length (snd entry)))%Z)
              (os_walk env source) 0%Z in
  _ <- for_each (os_walk env source)
         (fun entry current_files_count =>
            let root := fst (fst entry) in
            let files := snd entry in
            for_each files
              (copy_file source dest show_progress total_files_count root)
              current_files_count)
         0%Z ;;
  if show_progress then print "Complete" Stderr else ret tt.

(** The URL of one PUT, lines 196 to 200 and 210 to 213: the endpoint is
    parsed, components 2 (path) and 4 (query) of the result are replaced,
    and the six components are put together again.  [urlparse] raises
    [ValueError] for an endpoint whose network location it refuses. *)
Definition put_url (endpoint url_path : string) : result string :=
  url_parsed <-- urlparse env endpoint ;;
  Ok (urlunparse
        {| scheme := scheme url_parsed;
           netloc := netloc url_parsed;
           url_path := url_path;
           params := params url_parsed;
           query := urlencode [("api-version", "6.1")];
           fragment := fragment url_parsed |}).

(** The body of the inner loop of [upload_to_native_imagestore], for the
    file [f] of the directory [root]. *)
Definition upload_file (sesh : Session) (endpoint basename : string)
    (show_progress : bool) (total_files_count : Z) (root rel_path : string)
    (f : string) (current_files_count : Z) : M Z :=
  let url_path :=
    str_replace "\" "/"
      (normpath (path_join "ImageStore" [basename; rel_path; f])) in
  let fp_norm := normpath (path_join root [f]) in
  file_opened <- open fp_norm ;;
  url <- lift (put_url endpoint url_path) ;;
  res <- put sesh url (Some file_opened) ;;
  lift (raise_for_status res) ;;;
  let current_files_count := (current_files_count + 1)%Z in
  print_progress current_files_count total_files_count
    (normpath (path_join rel_path [f])) show_progress ;;;
  ret current_files_count.

(** The body of the outer loop of [upload_to_native_imagestore], for one
    directory [root] with its [files]. *)
Definition upload_directory (sesh : Session) (endpoint abspath basename : string)
    (show_progress : bool) (total_files_count : Z)
    (entry : string * list string * list string) (current_files_count : Z)
  : M Z :=
  let root := fst (fst entry) in
  let files := snd entry in
  rel <- lift (relpath (env_cwd env) root abspath) ;;
  let rel_path := normpath rel in
  current_files_count <-
    for_each files
      (upload_file sesh endpoint basename show_progress total_files_count
         root rel_path)
      current_files_count ;;
  let url_path :=
    str_replace "\" "/"
      (normpath (path_join "ImageStore" [basename; rel_path; "_.dir"])) in
  url <- lift (put_url endpoint url_path) ;;
  res <- put sesh url None ;;
  lift (raise_for_status res) ;;;
  let current_files_count := (current_files_count + 1)%Z in
  print_progress current_files_count total_files_count
    (normpath (path_join rel_path ["_.dir"])) show_progress ;;;
  ret current_files_count.

(** [upload_to_native_imagestore] *)
Definition upload_to_native_imagestore (sesh : Session)
    (endpoint abspath basename : string) (show_progress : bool) : M unit :=
  let total_files_count :=
    fold_left
      (fun total entry => (total + (Z.of_nat (length (snd entry)) + 1))%Z)
      (os_walk env abspath) 0%Z in
  _ <- for_each (os_walk env abspath)
         (upload_directory sesh endpoint abspath basename show_progress
            total_files_count)
         0%Z ;;
  if show_progress then print "Complete" Stderr else ret tt.

(** [upload] *)
Definition upload (path imagestore_string : string) (show_progress : bool)
  : M unit :=
  abspath <- validate_app_path path ;;
  let basename := basename abspath in
  let endpoint := client_endpoint env in
  let cert := cert_info env in
  let ca_cert :=
    if no_verify_setting env then VerifyFalse
    else if truthy (ca_cert_info env)
         then match ca_cert_info env with
              | Some bundle => VerifyBundle bundle
              | None => VerifyTrue
              end
         else VerifyTrue in
  if no_verify_setting env && truthy (ca_cert_info env) then
    raise (CLIError "Cannot specify both CA cert info and no verify")
  else if str_contains "file:" imagestore_string then
    dest_path <- lift (path_from_imagestore_string (Some imagestore_string)) ;;
    match dest_path with
    | PyStr dest_path =>
        upload_to_fileshare abspath (path_join dest_path [basename])
          show_progress
    | PyBool _ => raise (TypeError "expected str, not bool")
    end
  else if imagestore_string =? "fabric:ImageStore" then
    upload_to_native_imagestore {| verify := ca_cert; cert := cert |}
      endpoint abspath basename show_progress
  else raise (CLIError "Unsupported image store connection string").

End CustomApp.

(** ** Vocabulary of the statements *)

(** A PUT as planned: its URL and the file whose bytes are its body
    ([None] for the empty body of a marker). *)
Definition request : Type := string * option string.

(** A PUT as performed: the request and what came back. *)
Record put_call := {
  pc_request : request;
  pc_res : result Response
}.

(** The PUTs among some events, in order. *)
Fixpoint puts (evs : list event) : list put_call :=
  match evs with
  | [] => []
  | EvPut _ url data res :: evs' =>
      {| pc_request := (url, data); pc_res := res |} :: puts evs'
  | _ :: evs' => puts evs'
  end.

(** The texts printed to a stream among some events, in order. *)
Fixpoint printed (file : stream) (evs : list event) : list string :=
  match evs with
  | [] => []
  | EvPrint Stdout text :: evs' =>
      match file with
      | Stdout => text :: printed file evs'
      | Stderr => printed file evs'
      end
  | EvPrint Stderr text :: evs' =>
      match file with
      | Stdout => printed file evs'
      | Stderr => text :: printed file evs'
      end
  | _ :: evs' => printed file evs'
  end.

(** The copies among some events, in order: source and destination. *)
Fixpoint copies (evs : list event) : list (string * string) :=
  match evs with
  | [] => []
  | EvCopyfile src dst :: evs' => (src, dst) :: copies evs'
  | _ :: evs' => copies evs'
  end.

(** A PUT succeeded when a response came back and [raise_for_status] let
    it pass. *)
Definition put_ok (res : result Response) : bool :=
  match res with
  | Ok response =>
      match raise_for_status response with
      | Ok _ => true
      | Raise _ => false
      end
  | Raise _ => false
  end.

Definition is_file_put (rq : request) : bool :=
  match snd rq with
  | Some _ => true
  | None => false
  end.

Definition is_marker_put (rq : request) : bool := negb (is_file_put rq).

(** The line that [print_progress] prints. *)
Definition progress_line (current total : Z) (rel_file_path : string) : string :=
  "[" ++ str_of_int current ++ "/" ++ str_of_int total ++ "] files, "
  ++ rel_file_path.

Section Plan.

Variable env : Env.
Variables endpoint abspath basename : string.

(** The relative path that [upload_directory] computes for [root]. *)
Definition rel_path_of (root : string) : string :=
  normpath (relpath_of (env_cwd env) root abspath).

(** The URL that a PUT to [url_path] goes to.  When the endpoint does not
    parse no PUT is made at all; the text is empty then. *)
Definition planned_url (url_path : string) : string :=
  match put_url env endpoint url_path with
  | Ok url => url
  | Raise _ => ""
  end.

(** The PUT of file [f] of the directory [root]. *)
Definition file_request (root f : string) : request :=
  (planned_url
     (str_replace "\" "/"
        (normpath (path_join "ImageStore" [basename; rel_path_of root; f]))),
   Some (normpath (path_join root [f]))).

(** The PUT of the marker of the directory [root]. *)
Definition marker_request (root : string) : request :=
  (planned_url
     (str_replace "\" "/"
        (normpath (path_join "ImageStore"
                     [basename; rel_path_of root; "_.dir"]))),
   None).

(** The PUTs of one directory: its files in order, then its marker. *)
Definition directory_plan (entry : string * list string * list string)
  : list request :=
  (map (file_request (fst (fst entry))) (snd entry)
   ++ [marker_request (fst (fst entry))])%list.

(** The PUTs of a whole transfer, directory by directory in walk order. *)
Definition transfer_plan : list request :=
  flat_map directory_plan (os_walk env abspath).

End Plan.

Definition is_ok {A} (r : result A) : bool :=
  match r with
  | Ok _ => true
  | Raise _ => false
  end.

(** The progress lines of the units with relative paths [paths], counted
    from [current]. *)
Fixpoint progress_lines (current total : Z) (paths : list string)
  : list string :=
  match paths with
  | [] => []
  | p :: paths' =>
      progress_line (current + 1) total p
      :: progress_lines (current + 1) total paths'
  end.

(** Where [upload_to_fileshare] copies the file [f] of the directory
    [root] to. *)
Definition copy_destination (source dest root f : string) : string :=
  path_join
    (path_join dest [str_lstrip sep (str_replace source "" root)]) [f].

(** The copies of a whole file-share transfer, in walk order. *)
Definition copy_plan (env : Env) (source dest : string)
  : list (string * string) :=
  flat_map
    (fun entry =>
       map (fun f => (path_join (fst (fst entry)) [f],
                      copy_destination source dest (fst (fst entry)) f))
           (snd entry))
    (os_walk env source).

(** How the events of a run relate to a plan: the PUTs follow the plan in
    order; [true] marks a run that got through the whole plan with every
    PUT succeeding; a PUT that failed is the last event of the run. *)
Inductive Shape : list request -> list event -> bool -> Prop :=
| shape_done evs :
    puts evs = [] -> Shape [] evs true
| shape_abort plan evs :
    puts evs = [] -> Shape plan evs false
| shape_fail plan evs sesh url data res :
    puts evs = [] -> put_ok res = false ->
    Shape ((url, data) :: plan) (evs ++ [EvPut sesh url data res]) false
| shape_step plan evs sesh url data res evs' b :
    puts evs = [] -> put_ok res = true -> Shape plan evs' b ->
    Shape ((url, data) :: plan) (evs ++ EvPut sesh url data res :: evs') b.

(** ** Well-formed names and trees *)

(** A directory entry name: not empty, not [.] or [..], without [/]. *)
Definition valid_name (x : string) : bool :=
  negb (x =? "") && negb (x =? ".") && negb (x =? "..")
  && negb (str_contains "/" x).


Definition no_slash (x : string) : Prop := str_contains "/" x = false.

(** A path that can be joined on either side: not empty, no [/] at its
    ends. *)
Definition plain (s : string) : Prop :=
  s <> "" /\ startswith "/" s = false /\ ends_with_char "/" s = false.

(** The normalized absolute path with components [comps]. *)
Definition abs_path (comps : list string) : string :=
  "/" ++ str_join "/" comps.




(** ** A concrete environment *)

(** A package with a manifest, a code directory and an empty directory. *)
Definition demo_tree : tree :=
  Dir ["ApplicationManifest.xml"]
      [("Code", Dir ["run.sh"; "app.bin"] []); ("Empty", Dir [] [])].

(** A cluster at [http://localhost:19080] and a package at
    [/home/user/pkg]; [status] answers every PUT, given the history and the
    URL; the provisioning call is answered with [provision_status]. *)
Definition demo_env (status : list event -> string -> Z)
    (provision_status : Z) (no_verify : bool) (ca_cert : option string) : Env :=
  {| env_cwd := "/home/user";
     env_tree := fun p => if p =? "/home/user/pkg" then Some demo_tree else None;
     env_isdir :=
       fun tr p =>
         (p =? "/home/user/pkg")
         || existsb (fun ev => match ev with
                               | EvMakedirs q => q =? p
                               | _ => false
                               end) tr;
     env_open := fun _ _ => None;
     env_makedirs := fun _ _ => None;
     env_copyfile := fun _ _ _ => None;
     env_put := fun tr _ url _ =>
                  Ok {| status_code := status tr url; content := "" |};
     env_send := fun _ _ =>
                   Ok {| status_code := provision_status;
                         content := "{}" |};
     client_endpoint := "http://localhost:19080";
     no_verify_setting := no_verify;
     ca_cert_info := ca_cert;
     cert_info := None;
     unicodedata_normalize := fun s => s;
     ip_address := fun _ => Raise (ValueError "not an IPv4 or IPv6 address") |}.

(** A package at [/app] that has a subdirectory of its own name, each
    with a file [run.sh]. *)
Definition nested_tree : tree :=
  Dir ["run.sh"] [("app", Dir ["run.sh"] [])].

Definition nested_env : Env :=
  {| env_cwd := "/";
     env_tree := fun p => if p =? "/app" then Some nested_tree else None;
     env_isdir :=
       fun tr p =>
         (p =? "/app")
         || existsb (fun ev => match ev with
                               | EvMakedirs q => q =? p
                               | _ => false
                               end) tr;
     env_open := fun _ _ => None;
     env_makedirs := fun _ _ => None;
     env_copyfile := fun _ _ _ => None;
     env_put := fun _ _ _ _ => Ok {| status_code := 200; content := "" |};
     env_send := fun _ _ => Ok {| status_code := 200; content := "{}" |};
     client_endpoint := "http://localhost:19080";
     no_verify_setting := false;
     ca_cert_info := None;
     cert_info := None;
     unicodedata_normalize := fun s => s;
     ip_address := fun _ => Raise (ValueError "not an IPv4 or IPv6 address") |}.

(** What a piece of the transfer does with its part of the plan: the PUTs
    follow the plan, nothing goes to the primary output, and a piece that
    returns has advanced the counter by one per planned PUT and reported
    each of them. *)
Definition run_ok (show_progress : bool) (total : Z) (plan : list request)
    (current : Z) (evs : list event) (r : result Z) : Prop :=
  Shape plan evs (is_ok r)
  /\ printed Stdout evs = []
  /\ forall current', r = Ok current' ->
       current' = (current + Z.of_nat (length plan))%Z
       /\ exists paths,
            length paths = length plan
            /\ printed Stderr evs =
               if show_progress then progress_lines current total paths
               else [].

(** ** Vocabulary of the further properties *)

(** The events of a native-store transfer made with the session [sesh]:
    opening a file, a PUT through that session, and, with progress shown,
    a line on the diagnostic stream. *)
Definition native_event (sesh : Session) (show_progress : bool) (ev : event)
  : Prop :=
  match ev with
  | EvOpen _ => True
  | EvPut sesh' _ _ _ => sesh' = sesh
  | EvPrint Stderr _ => show_progress = true
  | _ => False
  end.

(** The events of a file-share transfer: making a directory, copying a
    file, and, with progress shown, a line on the diagnostic stream. *)
Definition fileshare_event (show_progress : bool) (ev : event) : Prop :=
  match ev with
  | EvMakedirs _ => True
  | EvCopyfile _ _ => True
  | EvPrint Stderr _ => show_progress = true
  | _ => False
  end.

(** The PUTs that succeeded among some events. *)
Definition successful_puts (evs : list event) : list put_call :=
  filter (fun p => put_ok (pc_res p)) (puts evs).

(** What the last event of a native-store transfer says about the
    exception [e] that ended it, [tr] being the events before it. *)
Definition native_failure (env : Env) (tr : list event) (last : event)
    (e : exn) : Prop :=
  match last with
  | EvOpen path => env_open env tr path = Some e
  | EvPut _ _ _ (Raise e') => e' = e
  | EvPut _ _ _ (Ok response) =>
      e = HTTPError response
      /\ (400 <= status_code response < 600)%Z
  | _ => False
  end.

(** The same for a file-share transfer. *)
Definition fileshare_failure (env : Env) (tr : list event) (last : event)
    (e : exn) : Prop :=
  match last with
  | EvMakedirs path => env_makedirs env tr path = Some e
  | EvCopyfile src dst => env_copyfile env tr src dst = Some e
  | _ => False
  end.


(** [d.get(k)] on a dictionary kept in insertion order. *)
Fixpoint dict_get (k : string) (d : list (string * string)) : option string :=
  match d with
  | [] => None
  | (k', v) :: d' => if k' =? k then Some v else dict_get k d'
  end.

(** The statuses that [provision_application_type] accepts. *)
Definition provision_accepts (response : Response) : bool :=
  (status_code response =? 200)%Z || (status_code response =? 202)%Z.


(** ** The application commands: [parse_app_params], [parse_app_metrics],
    [create] *)

(** A value decoded from JSON, as the commands receive them (numbers are
    integers here). *)
#[warnings="-register-all"]
Inductive value :=
| VNone
| VBool (b : bool)
| VInt (n : Z)
| VStr (s : string)
| VList (items : list value)
| VDict (entries : list (string * value)).

(** Python truthiness of a value. *)
Definition value_truthy (v : value) : bool :=
  match v with
  | VNone => false
  | VBool b => b
  | VInt n => negb (n =? 0)%Z
  | VStr s => negb (s =? "")
  | VList items => negb (length items =? 0)%nat
  | VDict entries => negb (length entries =? 0)%nat
  end.

(** [d[k]] on a dictionary; a missing key is a [KeyError], kept here
    with the other lookup error, [IndexError]. *)
Fixpoint value_index (k : string) (d : list (string * value)) : result value :=
  match d with
  | [] => Raise (IndexError ("KeyError: " ++ k))
  | (k', v) :: d' => if k' =? k then Ok v else value_index k d'
  end.

(** [d.get(k, None)] *)
Fixpoint value_get (k : string) (d : list (string * value)) : value :=
  match d with
  | [] => VNone
  | (k', v) :: d' => if k' =? k then v else value_get k d'
  end.

(** [ApplicationParameter(key, value)] *)
Record ApplicationParameter := {
  parameter_key : string;
  parameter_value : value
}.

(** [ApplicationMetricDescription(name, maximum_capacity,
    reservation_capacity, total_application_capacity)] *)
Record ApplicationMetricDescription := {
  metric_name : value;
  metric_maximum_capacity : value;
  metric_reservation_capacity : value;
  metric_total_application_capacity : value
}.

(** [ApplicationCapacityDescription(minimum_nodes, maximum_nodes,
    application_metrics)] *)
Record ApplicationCapacityDescription := {
  minimum_nodes : Z;
  maximum_nodes : Z;
  application_metrics : option (list ApplicationMetricDescription)
}.

(** [ApplicationDescription(name, type_name, type_version, parameter_list,
    application_capacity)] *)
Record ApplicationDescription := {
  application_name : string;
  application_type_name : string;
  application_type_version : string;
  application_parameter_list : option (list ApplicationParameter);
  application_capacity : ApplicationCapacityDescription
}.

(** The loop [res = []; for x in xs: res.append(f(x))], where [f] may
    raise. *)
Fixpoint collect {A B} (f : A -> result B) (xs : list A) : result (list B) :=
  match xs with
  | [] => Ok []
  | x :: xs' =>
      y <-- f x ;;
      ys <-- collect f xs' ;;
      Ok (y :: ys)
  end.

(** [parse_app_params]: the keys of the dictionary in order, each with
    the value found under it. *)
Definition parse_app_params
    (formatted_params : option (list (string * value)))
  : result (option (list ApplicationParameter)) :=
  match formatted_params with
  | None => Ok None
  | Some d =>
      res <-- collect
                (fun k =>
                   v <-- value_index k d ;;
                   Ok {| parameter_key := k; parameter_value := v |})
                (map fst d) ;;
      Ok (Some res)
  end.

(** The body of the loop of [parse_app_metrics]. *)
Definition parse_app_metric (metric : list (string * value))
  : result ApplicationMetricDescription :=
  let metric_name := value_get "name" metric in
  if negb (value_truthy metric_name) then
    Raise (CLIError "Could not find required application metric name")
  else
    let metric_max_cap := value_get "maximum_capacity" metric in
    let metric_reserve_cap := value_get "reservation_capacity" metric in
    let metric_total_cap := value_get "total_application_capacity" metric in
    Ok {| metric_name := metric_name;
          metric_maximum_capacity := metric_max_cap;
          metric_reservation_capacity := metric_reserve_cap;
          metric_total_application_capacity := metric_total_cap |}.

(** [parse_app_metrics] *)
Definition parse_app_metrics
    (formatted_metrics : option (list (list (string * value))))
  : result (option (list ApplicationMetricDescription)) :=
  match formatted_metrics with
  | None => Ok None
  | Some metrics =>
      res <-- collect parse_app_metric metrics ;;
      Ok (Some res)
  end.

(** Python truthiness of an integer. *)
Definition int_truthy (n : Z) : bool := negb (n =? 0)%Z.

(** [create]; [create_application] is the method of the client, which
    gets the description and the timeout. *)
Definition create
    (create_application : ApplicationDescription -> Z -> result unit)
    (app_name app_type app_version : string)
    (parameters : option (list (string * value)))
    (min_node_count max_node_count : Z)
    (metrics : option (list (list (string * value))))
    (timeout : Z) : result unit :=
  if (int_truthy min_node_count || int_truthy max_node_count)
     && negb (int_truthy min_node_count && int_truthy max_node_count) then
    Raise (CLIError "Must specify both maximum and minimum node count")
  else if (int_truthy min_node_count && int_truthy max_node_count)
          && (max_node_count <? min_node_count)%Z then
    Raise (CLIError "The minimum node reserve capacity count cannot be greater than the maximum node count")
  else
    app_params <-- parse_app_params parameters ;;
    app_metrics <-- parse_app_metrics metrics ;;
    let app_cap_desc :=
      {| minimum_nodes := min_node_count;
         maximum_nodes := max_node_count;
         application_metrics := app_metrics |} in
    let app_desc :=
      {| application_name := app_name;
         application_type_name := app_type;
         application_type_version := app_version;
         application_parameter_list := app_params;
         application_capacity := app_cap_desc |} in
    create_application app_desc timeout.


(** ** Vocabulary of the statements about URLs *)











(** * Proofs *)

(** ** The library models on known values *)

Example split_on_commas : str_split "," "a,b,,c" = ["a"; "b"; ""; "c"].
Proof. reflexivity. Qed.

Example split_does_not_overlap : str_split "aa" "aaa" = [""; "a"].
Proof. reflexivity. Qed.

Example replace_every_occurrence : str_replace "/a" "" "/a/x/a/f" = "/x/f".
Proof. reflexivity. Qed.

Example replace_empty_old : str_replace "" "-" "abc" = "-a-b-c-".
Proof. reflexivity. Qed.

Example lstrip_slashes : str_lstrip "/" "///a/b" = "a/b".
Proof. reflexivity. Qed.

Example format_three_fields :
  str_format "[{}/{}] files, {}" [str_of_int 1; str_of_int 6; "x"]
  = "[1/6] files, x".
Proof. reflexivity. Qed.

Example str_of_negative : str_of_int (-7) = "-7".
Proof. reflexivity. Qed.

Example join_empty_component : path_join "/share/app" [""] = "/share/app/".
Proof. reflexivity. Qed.

Example join_absolute_component : path_join "a" ["/b"; "c"] = "/b/c".
Proof. reflexivity. Qed.

Example normpath_values :
  normpath "ImageStore/pkg/./f" = "ImageStore/pkg/f"
  /\ normpath "/a/b/../c//d/" = "/a/c/d"
  /\ normpath "//a" = "//a"
  /\ normpath "///a" = "/a"
  /\ normpath "../../a/.." = "../.."
  /\ normpath "a/.." = "."
  /\ normpath "" = ".".
Proof. repeat split; reflexivity. Qed.

Example relpath_values :
  relpath_of "/" "/a/b/c" "/a" = "b/c"
  /\ relpath_of "/" "/a" "/a" = "."
  /\ relpath_of "/" "/a" "/a/b" = ".."
  /\ relpath_of "/home/user" "pkg/Code" "pkg" = "Code".
Proof. repeat split; reflexivity. Qed.

Example basename_values :
  basename "/home/user/pkg" = "pkg" /\ basename "/a/b/" = "" /\ basename "/" = "".
Proof. repeat split; reflexivity. Qed.

Example urlencode_api_version :
  urlencode [("api-version", "6.1")] = "api-version=6.1".
Proof. reflexivity. Qed.

Example urlunparse_value :
  urlunparse
    {| scheme := "http"; netloc := "localhost:19080";
       url_path := "ImageStore/pkg/f"; params := "";
       query := "api-version=6.1"; fragment := "" |}
  = "http://localhost:19080/ImageStore/pkg/f?api-version=6.1".
Proof. reflexivity. Qed.

Example urlparse_values :
  let env := demo_env (fun _ _ => 200%Z) 200 false None in
  urlparse env "http://localhost:19080"
  = Ok {| scheme := "http"; netloc := "localhost:19080"; url_path := "";
          params := ""; query := ""; fragment := "" |}
  /\ urlparse env "HTTP://Host/p;x?q#f"
     = Ok {| scheme := "http"; netloc := "Host"; url_path := "/p";
             params := "x"; query := "q"; fragment := "f" |}
  /\ urlparse env "localhost:19080"
     = Ok {| scheme := "localhost"; netloc := ""; url_path := "19080";
             params := ""; query := ""; fragment := "" |}
  /\ urlparse env "http://[::1" = Raise (ValueError "Invalid IPv6 URL").
Proof. repeat split; reflexivity. Qed.

Example walk_demo_tree :
  walk "/home/user/pkg" demo_tree
  = [("/home/user/pkg", ["Code"; "Empty"], ["ApplicationManifest.xml"]);
     ("/home/user/pkg/Code", [], ["run.sh"; "app.bin"]);
     ("/home/user/pkg/Empty", [], [])].
Proof. reflexivity. Qed.

Example to_bool_values :
  to_bool "truE" = Ok true /\ to_bool "faLse" = Ok false
  /\ exists msg, to_bool "gibberish" = Raise (CLIError msg).
Proof. repeat split; try reflexivity. eexists. reflexivity. Qed.

(** ** Strings *)

Lemma str_app_nil_r (s : string) : s ++ "" = s.
Proof. induction s; simpl; congruence. Qed.

Lemma str_app_assoc (s1 s2 s3 : string) : (s1 ++ s2) ++ s3 = s1 ++ s2 ++ s3.
Proof. induction s1; simpl; congruence. Qed.

(** The template of [print_progress], filled in. *)
Lemma format_progress current total path :
  str_format "[{}/{}] files, {}" [current; total; path]
  = "[" ++ current ++ "/" ++ total ++ "] files, " ++ path.
Proof.
  unfold str_format. cbn. now rewrite str_app_nil_r.
Qed.

(** ** Events and shapes *)

Lemma puts_app evs1 evs2 : puts (evs1 ++ evs2) = (puts evs1 ++ puts evs2)%list.
Proof.
  induction evs1 as [|ev evs1 IH]; simpl; auto.
  destruct ev; simpl; auto. now rewrite IH.
Qed.

Lemma printed_app file evs1 evs2 :
  printed file (evs1 ++ evs2) = (printed file evs1 ++ printed file evs2)%list.
Proof.
  induction evs1 as [|ev evs1 IH]; simpl; auto.
  destruct ev as [[] text| | | | |]; destruct file; simpl; auto;
    now rewrite IH.
Qed.

Lemma copies_app evs1 evs2 :
  copies (evs1 ++ evs2) = (copies evs1 ++ copies evs2)%list.
Proof.
  induction evs1 as [|ev evs1 IH]; simpl; auto.
  destruct ev; simpl; auto. now rewrite IH.
Qed.

Lemma shape_prepend evs0 plan evs b :
  puts evs0 = [] -> Shape plan evs b -> Shape plan (evs0 ++ evs) b.
Proof.
  intros H0 HS. destruct HS.
  - apply shape_done. now rewrite puts_app, H0.
  - apply shape_abort. now rewrite puts_app, H0.
  - rewrite app_assoc. apply shape_fail; auto. now rewrite puts_app, H0.
  - rewrite app_assoc. apply shape_step; auto. now rewrite puts_app, H0.
Qed.

Lemma shape_app_ok plan1 evs1 plan2 evs2 b :
  Shape plan1 evs1 true -> Shape plan2 evs2 b ->
  Shape (plan1 ++ plan2) (evs1 ++ evs2) b.
Proof.
  intros H1 H2. remember true as t eqn:Ht.
  induction H1; try discriminate; simpl.
  - now apply shape_prepend.
  - rewrite <- app_assoc. simpl. apply shape_step; auto.
Qed.

Lemma shape_app_fail plan1 evs1 plan2 :
  Shape plan1 evs1 false -> Shape (plan1 ++ plan2) evs1 false.
Proof.
  intros H1. remember false as t eqn:Ht.
  induction H1; try discriminate; simpl.
  - now apply shape_abort.
  - now apply shape_fail.
  - apply shape_step; auto.
Qed.

(** The PUTs performed are an initial part of the plan. *)
Lemma shape_prefix plan evs b :
  Shape plan evs b ->
  map pc_request (puts evs) = firstn (length (puts evs)) plan.
Proof.
  induction 1 as [evs H|plan evs H|plan evs sesh url data res H Hres
                 |plan evs sesh url data res evs' b H Hres HS IH].
  - now rewrite H.
  - now rewrite H.
  - rewrite puts_app, H. reflexivity.
  - rewrite puts_app, H. simpl. now rewrite IH.
Qed.

(** A run that got through has performed the whole plan, with success. *)
Lemma shape_complete plan evs :
  Shape plan evs true ->
  map pc_request (puts evs) = plan
  /\ Forall (fun p => put_ok (pc_res p) = true) (puts evs).
Proof.
  assert (G : forall b, Shape plan evs b -> b = true ->
              map pc_request (puts evs) = plan
              /\ Forall (fun p => put_ok (pc_res p) = true) (puts evs)).
  { intros b HS.
    induction HS as [evs H|plan evs H|plan evs sesh url data res H Hres
                    |plan evs sesh url data res evs' b H Hres HS IH];
      intros Hb; try discriminate.
    - rewrite H. split; constructor.
    - destruct (IH Hb) as [IH1 IH2].
      rewrite puts_app, H. simpl. split.
      + now rewrite IH1.
      + constructor; auto. }
  intros HS. now apply (G true).
Qed.

(** Every PUT but the last one succeeded. *)
Lemma shape_all_but_last plan evs b :
  Shape plan evs b ->
  forall k p, nth_error (puts evs) k = Some p ->
              S k < length (puts evs) -> put_ok (pc_res p) = true.
Proof.
  induction 1 as [evs H|plan evs H|plan evs sesh url data res H Hres
                 |plan evs sesh url data res evs' b H Hres HS IH];
    intros k p Hk Hlt.
  - rewrite H in Hlt. simpl in Hlt. lia.
  - rewrite H in Hlt. simpl in Hlt. lia.
  - rewrite puts_app, H in Hlt. simpl in Hlt. lia.
  - rewrite puts_app, H in Hk, Hlt. simpl in Hk, Hlt.
    destruct k as [|k]; simpl in Hk.
    + now inversion Hk.
    + apply (IH k p Hk). lia.
Qed.

(** A PUT that failed is the last PUT, and the run did not get through. *)
Lemma shape_failed_last plan evs b :
  Shape plan evs b ->
  forall k p, nth_error (puts evs) k = Some p ->
              put_ok (pc_res p) = false ->
              length (puts evs) = S k /\ b = false.
Proof.
  induction 1 as [evs H|plan evs H|plan evs sesh url data res H Hres
                 |plan evs sesh url data res evs' b H Hres HS IH];
    intros k p Hk Hbad.
  - rewrite H in Hk. destruct k; discriminate.
  - rewrite H in Hk. destruct k; discriminate.
  - rewrite puts_app, H in *. simpl in *.
    destruct k as [|[|k]]; simpl in Hk; try discriminate. auto.
  - rewrite puts_app, H in *. simpl in *.
    destruct k as [|k]; simpl in Hk.
    + inversion Hk; subst p. simpl in Hbad. congruence.
    + destruct (IH k p Hk Hbad) as [IH1 IH2]. split; auto.
Qed.

(** Where a PUT can sit behind events that are not PUTs. *)
Lemma first_put_split evs0 sesh url data res rest pre sesh' url' data' res' post :
  puts evs0 = [] ->
  (evs0 ++ EvPut sesh url data res :: rest
   = pre ++ EvPut sesh' url' data' res' :: post)%list ->
  (pre = evs0 /\ res = res' /\ rest = post)
  \/ exists pre', pre = (evs0 ++ EvPut sesh url data res :: pre')%list
                  /\ rest = (pre' ++ EvPut sesh' url' data' res' :: post)%list.
Proof.
  revert pre. induction evs0 as [|ev evs0 IH]; intros pre H0 Heq; simpl in *.
  - destruct pre as [|x pre]; simpl in Heq; inversion Heq; subst.
    + left. auto.
    + right. exists pre. auto.
  - assert (puts evs0 = [] /\ forall s u d r, ev <> EvPut s u d r) as [H0' Hev].
    { destruct ev; simpl in H0; try discriminate; split; auto;
        intros; discriminate. }
    destruct pre as [|x pre]; simpl in Heq; inversion Heq; subst.
    + exfalso. eapply Hev. reflexivity.
    + destruct (IH pre H0' H2) as [(-> & -> & ->)|(pre' & -> & ->)].
      * left. auto.
      * right. exists pre'. auto.
Qed.

(** Nothing at all happens after a PUT that failed. *)
Lemma shape_failed_final plan evs b :
  Shape plan evs b ->
  forall pre sesh url data res post,
    evs = (pre ++ EvPut sesh url data res :: post)%list ->
    put_ok res = false -> post = [].
Proof.
  induction 1 as [evs H|plan evs H|plan evs sesh url data res H Hres
                 |plan evs sesh url data res evs' b H Hres HS IH];
    intros pre sesh' url' data' res' post Heq Hbad.
  - subst evs. rewrite puts_app in H. simpl in H.
    now destruct (puts pre).
  - subst evs. rewrite puts_app in H. simpl in H.
    now destruct (puts pre).
  - destruct (@first_put_split _ _ _ _ _ _ _ _ _ _ _ _ H Heq)
      as [(_ & _ & <-)|(pre' & _ & Hrest)]; auto.
    now destruct pre'.
  - destruct (@first_put_split _ _ _ _ _ _ _ _ _ _ _ _ H Heq)
      as [(_ & <- & _)|(pre' & _ & Hrest)].
    + congruence.
    + eapply IH; eauto.
Qed.

(** ** Pieces of a transfer *)

Lemma progress_lines_app current total paths1 paths2 :
  progress_lines current total (paths1 ++ paths2)
  = (progress_lines current total paths1
     ++ progress_lines (current + Z.of_nat (length paths1)) total paths2)%list.
Proof.
  revert current. induction paths1 as [|p paths1 IH]; intros current.
  - simpl. now rewrite Z.add_0_r.
  - cbn [app progress_lines length]. rewrite IH. do 3 f_equal. lia.
Qed.

Lemma progress_lines_length current total paths :
  length (progress_lines current total paths) = length paths.
Proof.
  revert current. induction paths; intros; simpl; auto.
Qed.

Lemma run_ok_seq show total plan1 plan2 current evs1 current1 evs2 r :
  run_ok show total plan1 current evs1 (Ok current1) ->
  run_ok show total plan2 current1 evs2 r ->
  run_ok show total (plan1 ++ plan2) current (evs1 ++ evs2) r.
Proof.
  intros (S1 & O1 & P1) (S2 & O2 & P2).
  destruct (P1 _ eq_refl) as (-> & paths1 & L1 & E1).
  split; [|split].
  - now apply shape_app_ok.
  - now rewrite printed_app, O1, O2.
  - intros current' ->. destruct (P2 _ eq_refl) as (-> & paths2 & L2 & E2).
    split.
    + rewrite length_app. lia.
    + exists (paths1 ++ paths2)%list. split.
      * rewrite !length_app. lia.
      * rewrite printed_app, E1, E2. destruct show; auto.
        now rewrite progress_lines_app, L1.
Qed.

Lemma run_ok_stop show total plan1 plan2 current evs1 e :
  run_ok show total plan1 current evs1 (Raise e) ->
  run_ok show total (plan1 ++ plan2) current evs1 (Raise e).
Proof.
  intros (S1 & O1 & P1). split; [|split]; auto.
  - now apply shape_app_fail.
  - intros ? ?. discriminate.
Qed.

Lemma run_ok_nothing show total plan current e :
  run_ok show total plan current [] (Raise e).
Proof.
  split; [|split]; auto.
  - now apply shape_abort.
  - intros ? ?. discriminate.
Qed.

(** One PUT with what surrounds it: the events [before] it (none of them a
    PUT), the check of the status, the count and the report. *)
Lemma put_run env sesh show total current before url data path tr :
  puts before = [] -> printed Stdout before = [] ->
  printed Stderr before = [] ->
  exists evs r,
    (res <- put env sesh url data ;;
     lift (raise_for_status res) ;;;
     print_progress (current + 1) total path show ;;;
     ret (current + 1)%Z) (tr ++ before)%list
    = (r, (tr ++ evs)%list)
    /\ run_ok show total [(url, data)] current evs r.
Proof.
  intros Hputs Hout Herr.
  unfold bind, put, call, lift, print_progress, print, emit, ret.
  destruct (env_put env (tr ++ before) sesh url data) as [response|e] eqn:Hput.
  - destruct (raise_for_status response) as [[]|e] eqn:Hstatus.
    + exists (before ++ EvPut sesh url data (Ok response)
                :: (if show
                    then [EvPrint Stderr
                            (str_format "[{}/{}] files, {}"
                               [str_of_int (current + 1); str_of_int total;
                                path])]
                    else []))%list, (Ok (current + 1)%Z).
      split.
      * destruct show; simpl; rewrite <- !app_assoc; reflexivity.
      * split; [|split].
        -- apply shape_step; auto.
           ++ simpl. now rewrite Hstatus.
           ++ apply shape_done. now destruct show.
        -- rewrite printed_app, Hout. now destruct show.
        -- intros current' Hc. inversion Hc; subst current'. split; [simpl; lia|].
           exists [path]. split; auto.
           rewrite printed_app, Herr. destruct show; auto.
           simpl. now rewrite format_progress.
    + exists (before ++ [EvPut sesh url data (Ok response)])%list, (Raise e).
      split; [now rewrite <- app_assoc|].
      split; [|split].
      * apply shape_fail; auto. simpl. now rewrite Hstatus.
      * now rewrite printed_app, Hout.
      * intros ? ?. discriminate.
  - exists (before ++ [EvPut sesh url data (Raise e)])%list, (Raise e).
    split; [now rewrite <- app_assoc|].
    split; [|split].
    + apply shape_fail; auto.
    + now rewrite printed_app, Hout.
    + intros ? ?. discriminate.
Qed.

(** One turn of the inner loop performs the PUT of its file. *)
Lemma upload_file_run env sesh endpoint basename show total root rel_path
    f current tr :
  exists evs r,
    upload_file env sesh endpoint basename show total root rel_path f current tr
    = (r, (tr ++ evs)%list)
    /\ run_ok show total
         [(planned_url env endpoint
             (str_replace "\" "/"
                (normpath (path_join "ImageStore" [basename; rel_path; f]))),
           Some (normpath (path_join root [f])))]
         current evs r.
Proof.
  unfold upload_file.
  unfold bind at 1. unfold open, call.
  destruct (env_open env tr (normpath (path_join root [f]))) as [e|] eqn:Hopen.
  - exists [EvOpen (normpath (path_join root [f]))], (Raise e). split; auto.
    split; [|split]; auto.
    + now apply shape_abort.
    + intros ? ?. discriminate.
  - unfold planned_url. unfold bind at 1. unfold lift at 1.
    destruct (put_url env endpoint _) as [url|e] eqn:Hurl.
    + apply put_run; reflexivity.
    + exists [EvOpen (normpath (path_join root [f]))], (Raise e). split; auto.
      split; [|split]; auto.
      * now apply shape_abort.
      * intros ? ?. discriminate.
Qed.

(** A loop whose turns each perform their part of the plan performs the
    parts in order. *)
Lemma for_each_run {A} show total (body : A -> Z -> M Z)
    (plan_of : A -> list request) :
  (forall x current tr, exists evs r,
      body x current tr = (r, (tr ++ evs)%list)
      /\ run_ok show total (plan_of x) current evs r) ->
  forall xs current tr, exists evs r,
    for_each xs body current tr = (r, (tr ++ evs)%list)
    /\ run_ok show total (flat_map plan_of xs) current evs r.
Proof.
  intros Hbody xs. induction xs as [|x xs IH]; intros current tr; simpl.
  - exists [], (Ok current). split.
    + unfold ret. now rewrite app_nil_r.
    + split; [|split]; auto.
      * now apply shape_done.
      * intros current' Hc. inversion Hc; subst. split; [simpl; lia|].
        exists []. split; auto. now destruct show.
  - unfold bind.
    destruct (Hbody x current tr) as (evs1 & r1 & -> & Hrun1).
    destruct r1 as [current1|e].
    + destruct (IH current1 (tr ++ evs1)%list) as (evs2 & r & -> & Hrun2).
      exists (evs1 ++ evs2)%list, r. split.
      * now rewrite app_assoc.
      * eapply run_ok_seq; eauto.
    + exists evs1, (Raise e). split; auto. now apply run_ok_stop.
Qed.

Lemma flat_map_singleton {A B} (g : A -> B) (xs : list A) :
  flat_map (fun x => [g x]) xs = map g xs.
Proof. induction xs; simpl; congruence. Qed.

(** One turn of the outer loop performs the plan of its directory. *)
Lemma upload_directory_run env sesh endpoint abspath basename show total
    entry current tr :
  exists evs r,
    upload_directory env sesh endpoint abspath basename show total entry
      current tr
    = (r, (tr ++ evs)%list)
    /\ run_ok show total (directory_plan env endpoint abspath basename entry)
         current evs r.
Proof.
  destruct entry as [[root dirs] files].
  unfold upload_directory, directory_plan. cbn [fst snd].
  unfold bind at 1. unfold lift at 1, relpath.
  destruct (root =? "") eqn:Hroot.
  - exists [], (Raise (ValueError "no path specified")). split.
    + now rewrite app_nil_r.
    + apply run_ok_nothing.
  - unfold bind at 1.
    destruct (@for_each_run _ show total
                (upload_file env sesh endpoint basename show total root
                   (normpath (relpath_of (env_cwd env) root abspath)))
                (fun f => [file_request env endpoint abspath basename root f])
                (fun f c t => upload_file_run env sesh endpoint basename show
                                total root _ f c t)
                files current tr) as (evs1 & r1 & -> & Hrun1).
    rewrite flat_map_singleton in Hrun1.
    destruct r1 as [current1|e].
    + unfold marker_request, planned_url, rel_path_of.
      unfold bind at 1. unfold lift at 1.
      destruct (put_url env endpoint _) as [url|e] eqn:Hurl.
      * destruct (@put_run env sesh show total current1 [] url None
                    (normpath (path_join
                       (normpath (relpath_of (env_cwd env) root abspath))
                       ["_.dir"]))
                    (tr ++ evs1)%list eq_refl eq_refl eq_refl)
          as (evs2 & r & Heq & Hrun2).
        rewrite app_nil_r in Heq. rewrite Heq.
        exists (evs1 ++ evs2)%list, r. split.
        -- now rewrite app_assoc.
        -- eapply run_ok_seq; eauto.
      * exists (evs1 ++ [])%list, (Raise e). split.
        -- now rewrite app_nil_r.
        -- eapply run_ok_seq; eauto. apply run_ok_nothing.
    + exists evs1, (Raise e). split; auto. now apply run_ok_stop.
Qed.

(** ** The whole native transfer *)

Lemma directory_plan_length env endpoint abspath basename entry :
  length (directory_plan env endpoint abspath basename entry)
  = S (length (snd entry)).
Proof.
  unfold directory_plan. rewrite length_app, length_map. simpl. lia.
Qed.

(** The total of the first walk is the number of planned PUTs. *)
Lemma total_files_count_plan env endpoint abspath basename walked acc :
  fold_left
    (fun total (entry : string * list string * list string) =>
       (total + (Z.of_nat (length (snd entry)) + 1))%Z)
    walked acc
  = (acc + Z.of_nat (length (flat_map
                               (directory_plan env endpoint abspath basename)
                               walked)))%Z.
Proof.
  revert acc. induction walked as [|entry walked IH]; intros acc; simpl.
  - lia.
  - rewrite IH, length_app, directory_plan_length. lia.
Qed.

Lemma upload_to_native_imagestore_run env sesh endpoint abspath basename
    show tr :
  exists evs r,
    upload_to_native_imagestore env sesh endpoint abspath basename show tr
    = (r, (tr ++ evs)%list)
    /\ Shape (transfer_plan env endpoint abspath basename) evs (is_ok r)
    /\ printed Stdout evs = []
    /\ (is_ok r = true ->
        exists paths,
          length paths = length (transfer_plan env endpoint abspath basename)
          /\ printed Stderr evs =
             if show
             then (progress_lines 0
                     (Z.of_nat (length (transfer_plan env endpoint abspath
                                          basename)))
                     paths ++ ["Complete"])%list
             else []).
Proof.
  unfold upload_to_native_imagestore, transfer_plan.
  rewrite (total_files_count_plan env endpoint abspath basename). simpl.
  set (total := Z.of_nat _).
  unfold bind.
  destruct (@for_each_run _ show total
              (upload_directory env sesh endpoint abspath basename show total)
              (directory_plan env endpoint abspath basename)
              (upload_directory_run env sesh endpoint abspath basename show
                 total)
              (os_walk env abspath) 0%Z tr)
    as (evs & r & -> & HS & Hout & Hprog).
  destruct r as [current|e].
  - destruct (Hprog _ eq_refl) as (_ & paths & Hlen & Herr).
    exists (evs ++ (if show then [EvPrint Stderr "Complete"] else []))%list,
           (Ok tt).
    split; [|split; [|split]].
    + destruct show; unfold print, emit, ret; simpl.
      * now rewrite app_assoc.
      * now rewrite app_nil_r.
    + rewrite <- (app_nil_r (flat_map _ _)).
      apply shape_app_ok; auto. apply shape_done. now destruct show.
    + rewrite printed_app, Hout. now destruct show.
    + intros _. exists paths. split; auto.
      rewrite printed_app, Herr. now destruct show.
  - exists evs, (Raise e). split; [|split; [|split]]; auto.
    intros ?. discriminate.
Qed.

(** Induction on trees, with the hypothesis for every subdirectory. *)
Lemma tree_induction (P : tree -> Prop) :
  (forall files subdirs,
      Forall (fun d => P (snd d)) subdirs -> P (Dir files subdirs)) ->
  forall t, P t.
Proof.
  intros H. fix IH 1. intros [files subdirs]. apply H.
  induction subdirs as [|[d t'] subdirs IHs]; constructor.
  - apply IH.
  - exact IHs.
Qed.

(** [os.walk] lists every directory once, with its files. *)
Lemma walk_counts t :
  forall top,
    length (walk top t) = count_dirs t
    /\ list_sum (map (fun e => length (snd e)) (walk top t)) = count_files t.
Proof.
  induction t as [files subdirs IH] using tree_induction; intros top.
  cbn [walk count_dirs count_files length map list_sum snd].
  assert (G : forall (subs : list (string * tree)),
             Forall (fun d => forall top,
                         length (walk top (snd d)) = count_dirs (snd d)
                         /\ list_sum (map (fun e => length (snd e))
                                         (walk top (snd d)))
                            = count_files (snd d)) subs ->
             length (flat_map (fun d => walk (join2 top (fst d)) (snd d)) subs)
             = list_sum (map (fun d => count_dirs (snd d)) subs)
             /\ list_sum (map (fun e => length (snd e))
                             (flat_map (fun d => walk (join2 top (fst d))
                                                   (snd d)) subs))
                = list_sum (map (fun d => count_files (snd d)) subs)).
  { induction 1 as [|d subs Hd Hsubs [IH1 IH2]]; simpl; auto.
    destruct (Hd (join2 top (fst d))) as [Hd1 Hd2].
    rewrite length_app, map_app, list_sum_app. split; lia. }
  destruct (G subdirs IH) as [G1 G2]. split; simpl; lia.
Qed.

Lemma directory_plan_kinds env endpoint abspath basename entry :
  length (filter is_file_put
            (directory_plan env endpoint abspath basename entry))
  = length (snd entry)
  /\ length (filter is_marker_put
               (directory_plan env endpoint abspath basename entry))
     = 1%nat.
Proof.
  unfold directory_plan. rewrite !filter_app, !length_app. simpl.
  assert (G : forall files,
             length (filter is_file_put
                       (map (file_request env endpoint abspath basename
                               (fst (fst entry))) files))
             = length files
             /\ length (filter is_marker_put
                          (map (file_request env endpoint abspath basename
                                  (fst (fst entry))) files))
                = 0%nat).
  { induction files as [|f files [IH1 IH2]]; simpl; auto. }
  destruct (G (snd entry)) as [G1 G2]. split; lia.
Qed.

(** The plan has one file PUT per file and one marker PUT per directory. *)
Lemma transfer_plan_kinds env endpoint abspath basename t :
  env_tree env abspath = Some t ->
  length (filter is_file_put (transfer_plan env endpoint abspath basename))
  = count_files t
  /\ length (filter is_marker_put
               (transfer_plan env endpoint abspath basename))
     = count_dirs t.
Proof.
  intros Ht. unfold transfer_plan, os_walk. rewrite Ht.
  destruct (walk_counts t abspath) as [<- <-].
  induction (walk abspath t) as [|entry walked [IH1 IH2]]; simpl; auto.
  destruct (directory_plan_kinds env endpoint abspath basename entry)
    as [K1 K2].
  rewrite !filter_app, !length_app. split; lia.
Qed.

Lemma count_dirs_pos t : 1 <= count_dirs t.
Proof. destruct t. simpl. lia. Qed.

(** The last of the progress lines of a complete run shows the total. *)
Lemma progress_lines_last total paths :
  length paths = Z.to_nat total -> (1 <= total)%Z ->
  exists lines path,
    progress_lines 0 total paths = (lines ++ [progress_line total total path])%list
    /\ length lines = (Z.to_nat total - 1)%nat.
Proof.
  intros Hlen Hpos.
  destruct (exists_last (l := paths)) as (init & path & ->).
  { intros ->. simpl in Hlen. lia. }
  rewrite length_app in Hlen. simpl in Hlen.
  exists (progress_lines 0 total init), path.
  rewrite progress_lines_app. simpl. split.
  - do 3 f_equal. lia.
  - rewrite progress_lines_length. lia.
Qed.

(** A PUT among the PUTs of some events is one of the events. *)
Lemma puts_nth evs :
  forall k p, nth_error (puts evs) k = Some p ->
  exists pre sesh post,
    evs = (pre ++ EvPut sesh (fst (pc_request p)) (snd (pc_request p))
                    (pc_res p) :: post)%list.
Proof.
  induction evs as [|ev evs IH]; intros k p Hk; simpl in Hk.
  - destruct k; discriminate.
  - assert (Hrest : forall k, nth_error (puts evs) k = Some p ->
              exists pre sesh post,
                ev :: evs
                = (pre ++ EvPut sesh (fst (pc_request p)) (snd (pc_request p))
                              (pc_res p) :: post)%list).
    { intros k' Hk'. destruct (IH k' p Hk') as (pre & sesh & post & ->).
      exists (ev :: pre), sesh, post. reflexivity. }
    destruct ev; eauto.
    destruct k as [|k]; simpl in Hk; eauto.
    inversion Hk; subst p. simpl. exists [], sesh, evs. reflexivity.
Qed.

(** * The native-store transfer *)

Lemma nth_error_middle {A} (l1 l2 l3 : list A) k :
  k < length l2 ->
  nth_error (l1 ++ l2 ++ l3) (length l1 + k) = nth_error l2 k.
Proof.
  intros Hk. rewrite nth_error_app2 by lia.
  replace (length l1 + k - length l1)%nat with k by lia.
  now apply nth_error_app1.
Qed.

(** Where the PUTs of one directory sit in the plan. *)
Lemma transfer_plan_at env endpoint abspath basename before root dirs files
    after :
  os_walk env abspath = (before ++ (root, dirs, files) :: after)%list ->
  let plan := transfer_plan env endpoint abspath basename in
  let first :=
    length (flat_map (directory_plan env endpoint abspath basename) before) in
  (forall j f, nth_error files j = Some f ->
     nth_error plan (first + j)
     = Some (file_request env endpoint abspath basename root f))
  /\ nth_error plan (first + length files)
     = Some (marker_request env endpoint abspath basename root).
Proof.
  intros Hwalk plan first. subst plan first. cbv zeta.
  unfold transfer_plan. rewrite Hwalk.
  rewrite flat_map_app. cbn [flat_map].
  assert (Hfiles : forall j f, nth_error files j = Some f -> j < length files).
  { intros j f Hj. apply nth_error_Some. congruence. }
  split.
  - intros j f Hj. rewrite nth_error_middle.
    + unfold directory_plan. cbn [fst snd].
      rewrite nth_error_app1 by (rewrite length_map; eauto).
      now apply map_nth_error.
    + rewrite directory_plan_length. cbn [snd]. apply Hfiles in Hj. lia.
  - rewrite nth_error_middle.
    + unfold directory_plan. cbn [fst snd].
      rewrite nth_error_app2 by (rewrite length_map; lia).
      rewrite length_map, Nat.sub_diag. reflexivity.
    + rewrite directory_plan_length. cbn [snd]. lia.
Qed.

(** C1, amended.  In every native-store transfer the PUTs are issued in
    the order of the plan: for each directory that [os.walk] yields, the
    PUTs of its files and then the PUT of its [_.dir] marker.  A PUT
    succeeds when a response comes back and [raise_for_status] accepts it,
    that is, for every status outside 400 to 599.  So when the marker PUT
    of a directory has been issued, the PUT of every file directly inside
    it has been issued before and has succeeded; and when the PUT of a
    file fails (no response, or a status from 400 to 599), it is the last
    event of the run: the marker PUT of that directory is not issued,
    nothing else is, and the transfer raises. *)
Theorem marker_put_follows_successful_file_puts
    env sesh endpoint abspath basename show tr r tr'
    before root dirs files after :
  upload_to_native_imagestore env sesh endpoint abspath basename show tr
  = (r, tr') ->
  os_walk env abspath = (before ++ (root, dirs, files) :: after)%list ->
  let plan := transfer_plan env endpoint abspath basename in
  let first :=
    length (flat_map (directory_plan env endpoint abspath basename) before) in
  let marker := (first + length files)%nat in
  exists evs,
    tr' = (tr ++ evs)%list
    (* the k-th PUT issued is the k-th PUT of the plan *)
    /\ map pc_request (puts evs) = firstn (length (puts evs)) plan
    (* the PUTs of this directory in the plan *)
    /\ (forall j f, nth_error files j = Some f ->
          nth_error plan (first + j)
          = Some (file_request env endpoint abspath basename root f))
    /\ nth_error plan marker
       = Some (marker_request env endpoint abspath basename root)
    (* the marker is issued only after every file PUT has succeeded *)
    /\ (marker < length (puts evs) ->
        forall j, j < length files ->
          exists p, nth_error (puts evs) (first + j) = Some p
                    /\ put_ok (pc_res p) = true)
    (* a failed file PUT ends the transfer, before the marker *)
    /\ (forall j p,
          j < length files ->
          nth_error (puts evs) (first + j) = Some p ->
          put_ok (pc_res p) = false ->
          length (puts evs) = S (first + j)
          /\ length (puts evs) <= marker
          /\ (exists e, r = Raise e)
          /\ exists pre sesh',
               evs = (pre ++ [EvPut sesh' (fst (pc_request p))
                                (snd (pc_request p)) (pc_res p)])%list).
Proof.
  intros Hrun Hwalk plan first marker.
  destruct (upload_to_native_imagestore_run env sesh endpoint abspath basename
              show tr) as (evs & r0 & Heq & HS & _ & _).
  rewrite Hrun in Heq. inversion Heq; subst r0 tr'. clear Heq.
  destruct (@transfer_plan_at env endpoint abspath basename before root dirs
              files after Hwalk)
    as [Hfiles Hmarker].
  exists evs.
  split; [reflexivity|].
  split; [now apply shape_prefix with (b := is_ok r)|].
  split; [exact Hfiles|].
  split; [exact Hmarker|].
  split.
  - intros Hissued j Hj.
    destruct (nth_error (puts evs) (first + j)) as [p|] eqn:Hp.
    + exists p. split; auto.
      apply (shape_all_but_last _ _ _ HS (first + j) p Hp).
      unfold marker in *. lia.
    + apply nth_error_None in Hp. unfold marker in *. lia.
  - intros j p Hj Hp Hbad.
    destruct (shape_failed_last _ _ _ HS _ _ Hp Hbad) as [Hlast Hr].
    split; [exact Hlast|].
    split; [unfold marker; lia|].
    split.
    + destruct r as [[]|e]; [discriminate|]. now exists e.
    + destruct (puts_nth evs _ _ Hp) as (pre & sesh' & post & Hevs).
      assert (post = []) by (eapply shape_failed_final; eauto).
      subst post. now exists pre, sesh'.
Qed.

Lemma marker_put_follows_successful_file_puts_witness :
  let env :=
    demo_env (fun _ url => if str_contains "run.sh" url then 500 else 200)%Z
             200 false None in
  let sesh := {| verify := VerifyTrue; cert := None |} in
  let run :=
    upload_to_native_imagestore env sesh "http://localhost:19080"
      "/home/user/pkg" "pkg" true [] in
  os_walk env "/home/user/pkg"
  = ([("/home/user/pkg", ["Code"; "Empty"], ["ApplicationManifest.xml"])]
     ++ ("/home/user/pkg/Code", [], ["run.sh"; "app.bin"])
     :: [("/home/user/pkg/Empty", [], [])])%list
  /\ length (puts (snd run)) = 3
  /\ exists e, fst run = Raise e.
Proof.
  intros env sesh run.
  assert (Hwalk : os_walk env "/home/user/pkg"
                  = ([("/home/user/pkg", ["Code"; "Empty"],
                       ["ApplicationManifest.xml"])]
                     ++ ("/home/user/pkg/Code", [], ["run.sh"; "app.bin"])
                     :: [("/home/user/pkg/Empty", [], [])])%list)
    by reflexivity.
  assert (Hrun : run = (fst run, snd run)) by (vm_compute; reflexivity).
  split; [exact Hwalk|].
  destruct (marker_put_follows_successful_file_puts
              env sesh "http://localhost:19080" "/home/user/pkg" "pkg" true []
              (fst run) (snd run) _ _ _ _ _ Hrun Hwalk)
    as (evs & Hevs & _ & _ & _ & _ & Hfail).
  simpl app in Hevs. subst evs.
  destruct (Hfail 0
              {| pc_request :=
                   ("http://localhost:19080/ImageStore/pkg/Code/run.sh?api-version=6.1",
                    Some "/home/user/pkg/Code/run.sh");
                 pc_res := Ok {| status_code := 500; content := "" |} |})
    as (Hlen & _ & Hraise & _).
  - simpl. lia.
  - vm_compute. reflexivity.
  - reflexivity.
  - split; [exact Hlen | exact Hraise].
Defined.

(** C1, where the claim fails.  The PUT of [ApplicationManifest.xml], a
    file of the package directory, is answered with status 304, which is
    not a success status (it is not between 200 and 299); [raise_for_status]
    lets it pass, so the marker PUT of the package directory is issued all
    the same, right after it, and the transfer goes on and returns. *)
Lemma marker_put_after_not_modified :
  let env :=
    demo_env (fun _ url => if str_contains "ApplicationManifest.xml" url
                           then 304 else 200)%Z
             200 false None in
  let sesh := {| verify := VerifyTrue; cert := None |} in
  let run :=
    upload_to_native_imagestore env sesh "http://localhost:19080"
      "/home/user/pkg" "pkg" false [] in
  fst run = Ok tt
  /\ firstn 3 (snd run)
     = [EvOpen "/home/user/pkg/ApplicationManifest.xml";
        EvPut sesh
          "http://localhost:19080/ImageStore/pkg/ApplicationManifest.xml?api-version=6.1"
          (Some "/home/user/pkg/ApplicationManifest.xml")
          (Ok {| status_code := 304; content := "" |});
        EvPut sesh
          "http://localhost:19080/ImageStore/pkg/_.dir?api-version=6.1"
          None (Ok {| status_code := 200; content := "" |})]
  /\ length (puts (snd run)) = 6
  /\ ~ (200 <= 304 <= 299)%Z.
Proof.
  intros env sesh run. split; [vm_compute; reflexivity|].
  split; [vm_compute; reflexivity|]. split; [vm_compute; reflexivity|]. lia.
Qed.

Lemma filter_split_length {A} (f g : A -> bool) (l : list A) :
  (forall x, g x = negb (f x)) ->
  length l = length (filter f l) + length (filter g l).
Proof.
  intros Hg. induction l as [|x l IH]; simpl; auto.
  rewrite Hg. destruct (f x); simpl; lia.
Qed.

(** C2.  A native-store transfer that returns has issued, for a source tree
    with [F] files and [D] directories (the root included, so [D] is at
    least 1), exactly the planned PUTs, each with success: [F] file PUTs
    and [D] marker PUTs, one marker per directory whether it has files or
    not.  With progress shown, the last report before [Complete] reads
    [F + D] for both the current and the total count. *)
Theorem native_transfer_counts
    env sesh endpoint abspath basename show tr tr' t :
  env_tree env abspath = Some t ->
  upload_to_native_imagestore env sesh endpoint abspath basename show tr
  = (Ok tt, tr') ->
  let F := count_files t in
  let D := count_dirs t in
  exists evs,
    tr' = (tr ++ evs)%list
    /\ 1 <= D
    /\ map pc_request (puts evs) = transfer_plan env endpoint abspath basename
    /\ Forall (fun p => put_ok (pc_res p) = true) (puts evs)
    /\ length (filter is_file_put (map pc_request (puts evs))) = F
    /\ length (filter is_marker_put (map pc_request (puts evs))) = D
    /\ printed Stdout evs = []
    /\ if show
       then exists lines path,
              printed Stderr evs
              = (lines ++ [progress_line (Z.of_nat (F + D)) (Z.of_nat (F + D))
                             path;
                           "Complete"])%list
              /\ length lines = F + D - 1
       else printed Stderr evs = [].
Proof.
  intros Ht Hrun F D.
  destruct (upload_to_native_imagestore_run env sesh endpoint abspath basename
              show tr) as (evs & r & Heq & HS & Hout & Hprog).
  rewrite Hrun in Heq. inversion Heq; subst r tr'. clear Heq.
  simpl in HS. destruct (shape_complete _ _ HS) as [Hplan Hok].
  destruct (transfer_plan_kinds env endpoint abspath basename t Ht)
    as [HF HD].
  assert (Hlen : length (transfer_plan env endpoint abspath basename) = F + D).
  { rewrite (filter_split_length is_file_put is_marker_put) by reflexivity.
    unfold F, D. now rewrite HF, HD. }
  exists evs. rewrite Hplan.
  split; [reflexivity|]. split; [apply count_dirs_pos|].
  split; [reflexivity|]. split; [exact Hok|]. split; [exact HF|].
  split; [exact HD|]. split; [exact Hout|].
  destruct (Hprog eq_refl) as (paths & Hpaths & Herr).
  destruct show; auto.
  rewrite Hlen in *.
  destruct (progress_lines_last (Z.of_nat (F + D)) paths) as
    (lines & path & Hlines & Hcount).
  - now rewrite Nat2Z.id.
  - pose proof (count_dirs_pos t). unfold D. lia.
  - exists lines, path. rewrite Herr, Hlines, <- app_assoc. split; auto.
    rewrite Hcount, Nat2Z.id. reflexivity.
Qed.

Lemma native_transfer_counts_witness :
  let env := demo_env (fun _ _ => 200%Z) 200 false None in
  let sesh := {| verify := VerifyTrue; cert := None |} in
  let run :=
    upload_to_native_imagestore env sesh "http://localhost:19080"
      "/home/user/pkg" "pkg" true [] in
  env_tree env "/home/user/pkg" = Some demo_tree
  /\ fst run = Ok tt
  /\ length (filter is_file_put (map pc_request (puts (snd run)))) = 3
  /\ length (filter is_marker_put (map pc_request (puts (snd run)))) = 3.
Proof.
  intros env sesh run.
  assert (Ht : env_tree env "/home/user/pkg" = Some demo_tree) by reflexivity.
  assert (Hrun : run = (Ok tt, snd run)) by (vm_compute; reflexivity).
  split; [exact Ht|]. split; [vm_compute; reflexivity|].
  destruct (native_transfer_counts
              env sesh "http://localhost:19080" "/home/user/pkg" "pkg" true []
              (snd run) demo_tree Ht Hrun)
    as (evs & Hevs & _ & _ & _ & HF & HD & _).
  simpl app in Hevs. subst evs. split; [exact HF | exact HD].
Defined.

(** * Progress reports *)

(** C9.  With [show_progress] true, [print_progress] prints exactly one
    line, [[current/total] files, rel_file_path], to the diagnostic stream;
    with [show_progress] false it does nothing; in neither case does it
    write to the primary output stream or raise. *)
Theorem print_progress_reports current total rel_file_path tr :
  print_progress current total rel_file_path true tr
  = (Ok tt,
     (tr ++ [EvPrint Stderr
               ("[" ++ str_of_int current ++ "/" ++ str_of_int total
                ++ "] files, " ++ rel_file_path)])%list)
  /\ print_progress current total rel_file_path false tr = (Ok tt, tr)
  /\ forall show_progress,
       printed Stdout
         (snd (print_progress current total rel_file_path show_progress tr))
       = printed Stdout tr.
Proof.
  unfold print_progress, print, emit, ret.
  rewrite format_progress. split; [|split]; auto.
  intros []; simpl; auto.
  rewrite printed_app. simpl. now rewrite app_nil_r.
Qed.

(** * Resolving the destination *)

Lemma split_go_nonempty sep s skip : split_go sep s skip <> [].
Proof.
  revert skip. induction s as [|c s IH]; intros skip; cbn [split_go].
  - discriminate.
  - destruct skip as [|k]; auto.
    destruct (startswith sep (String c s)); [discriminate|].
    destruct (split_go sep s 0); discriminate.
Qed.

(** A string that contains the separator splits into at least two
    pieces, so that index 1 exists. *)
Lemma split_contains sep s :
  sep <> "" -> str_contains sep s = true ->
  exists piece0 piece1 rest, str_split sep s = piece0 :: piece1 :: rest.
Proof.
  intros Hsep. unfold str_split.
  induction s as [|c s IH]; cbn [split_go str_contains]; intros Hc.
  - destruct sep; [congruence | discriminate].
  - destruct (startswith sep (String c s)) eqn:Hstart.
    + destruct (split_go sep s (String.length sep - 1)) as [|p1 rest] eqn:Hgo.
      * now apply split_go_nonempty in Hgo.
      * now exists "", p1, rest.
    + simpl in Hc. destruct (IH Hc) as (p0 & p1 & rest & ->).
      now exists (String c p0), p1, rest.
Qed.

(** C10.  [path_from_imagestore_string] never raises: for [None], for the
    empty string and for a string without [file:] it returns [False].  The
    error for a connection string that is not recognized comes from the
    dispatch in [upload]. *)
Theorem path_from_imagestore_string_returns_false
    env path show tr imagestore_string :
  str_contains "file:" imagestore_string = false ->
  imagestore_string <> "fabric:ImageStore" ->
  env_isdir env tr (abspath (env_cwd env) path) = true ->
  no_verify_setting env && truthy (ca_cert_info env) = false ->
  path_from_imagestore_string None = Ok (PyBool false)
  /\ path_from_imagestore_string (Some "") = Ok (PyBool false)
  /\ path_from_imagestore_string (Some imagestore_string) = Ok (PyBool false)
  /\ (forall connstr, exists v, path_from_imagestore_string connstr = Ok v)
  /\ upload env path imagestore_string show tr
     = (Raise (CLIError "Unsupported image store connection string"), tr).
Proof.
  intros Hfile Hnative Hdir Hconf.
  split; [reflexivity|]. split; [reflexivity|]. split; [|split].
  - unfold path_from_imagestore_string. rewrite Hfile.
    now rewrite andb_false_r.
  - intros [s|]; [|now exists (PyBool false)].
    unfold path_from_imagestore_string.
    destruct (truthy (Some s) && str_contains "file:" s) eqn:Hc.
    + apply andb_prop in Hc as [_ Hc].
      destruct (split_contains "file:" s) as (p0 & p1 & rest & ->);
        [discriminate | exact Hc |].
      now exists (PyStr p1).
    + now exists (PyBool false).
  - unfold upload, validate_app_path, bind, isdir.
    rewrite Hdir. unfold ret. rewrite Hconf, Hfile.
    apply String.eqb_neq in Hnative. now rewrite Hnative.
Qed.

Lemma path_from_imagestore_string_returns_false_witness :
  let env := demo_env (fun _ _ => 200%Z) 200 false None in
  path_from_imagestore_string (Some "xstore:DefaultEndpointsProtocol=https")
  = Ok (PyBool false)
  /\ upload env "pkg" "xstore:DefaultEndpointsProtocol=https" false []
     = (Raise (CLIError "Unsupported image store connection string"), []).
Proof.
  intros env.
  destruct (path_from_imagestore_string_returns_false
              env "pkg" false [] "xstore:DefaultEndpointsProtocol=https")
    as (_ & _ & Hfalse & _ & Hupload).
  - reflexivity.
  - discriminate.
  - reflexivity.
  - reflexivity.
  - split; [exact Hfalse | exact Hupload].
Defined.

(** With an existing package directory and no conflict in the trust
    settings, the sentinel [fabric:ImageStore] selects the native store,
    with the session set up from the configuration. *)
Lemma upload_native_store env path show tr :
  env_isdir env tr (abspath (env_cwd env) path) = true ->
  no_verify_setting env && truthy (ca_cert_info env) = false ->
  upload env path "fabric:ImageStore" show tr
  = upload_to_native_imagestore env
      {| verify :=
           if no_verify_setting env then VerifyFalse
           else match ca_cert_info env with
                | Some bundle => if bundle =? "" then VerifyTrue
                                 else VerifyBundle bundle
                | None => VerifyTrue
                end;
         cert := cert_info env |}
      (client_endpoint env) (abspath (env_cwd env) path)
      (basename (abspath (env_cwd env) path)) show tr.
Proof.
  intros Hdir Hconf. unfold upload, validate_app_path, bind, isdir.
  rewrite Hdir. unfold ret. rewrite Hconf. cbn [str_contains].
  change (str_contains "file:" "fabric:ImageStore") with false.
  change ("fabric:ImageStore" =? "fabric:ImageStore") with true. cbv iota.
  do 2 f_equal. destruct (no_verify_setting env); auto.
  destruct (ca_cert_info env) as [bundle|]; auto.
  cbn [truthy]. now destruct (bundle =? "").
Qed.

(** A connection string with [file:] selects the file share below the
    piece that [path_from_imagestore_string] returns. *)
Lemma upload_file_share env path imagestore_string show tr dest_path :
  env_isdir env tr (abspath (env_cwd env) path) = true ->
  no_verify_setting env && truthy (ca_cert_info env) = false ->
  str_contains "file:" imagestore_string = true ->
  path_from_imagestore_string (Some imagestore_string) = Ok (PyStr dest_path) ->
  upload env path imagestore_string show tr
  = upload_to_fileshare env (abspath (env_cwd env) path)
      (path_join dest_path [basename (abspath (env_cwd env) path)]) show tr.
Proof.
  intros Hdir Hconf Hfile Hdest. unfold upload, validate_app_path, bind, isdir.
  rewrite Hdir. unfold ret. rewrite Hconf, Hfile. unfold lift.
  now rewrite Hdest.
Qed.

(** The characters of a matched separator are skipped. *)
Lemma split_go_skip sep s skip :
  split_go sep s skip = split_go sep (str_drop skip s) 0.
Proof.
  revert s. induction skip as [|k IH]; intros s.
  - now destruct s.
  - destruct s as [|c s]; [reflexivity|]. cbn [split_go str_drop]. apply IH.
Qed.

(** [split] cuts at the leftmost occurrence of the separator and goes on
    behind it. *)
Lemma split_at_find sep s i :
  sep <> "" -> str_find sep s = Some i ->
  str_split sep s
  = str_take i s :: str_split sep (str_drop (i + String.length sep) s).
Proof.
  intros Hsep. unfold str_split. revert i.
  induction s as [|c s IH]; intros i Hfind; cbn [str_find] in Hfind.
  - destruct sep; [congruence | discriminate].
  - cbn [split_go]. destruct (startswith sep (String c s)) eqn:Hstart.
    + inversion Hfind; subst i. cbn [str_take]. f_equal.
      rewrite split_go_skip. f_equal.
      destruct sep as [|a sep]; [congruence|].
      cbn [String.length Nat.add Nat.sub str_drop]. now rewrite Nat.sub_0_r.
    + destruct (str_find sep s) as [j|]; [|discriminate].
      inversion Hfind; subst i. now rewrite (IH j eq_refl).
Qed.

Lemma split_without sep s :
  sep <> "" -> str_contains sep s = false -> str_split sep s = [s].
Proof.
  intros Hsep. unfold str_split.
  induction s as [|c s IH]; cbn [str_contains split_go]; intros Hc.
  - reflexivity.
  - apply orb_false_elim in Hc as [Hstart Hc]. now rewrite Hstart, IH.
Qed.

Lemma find_contains sep s i : str_find sep s = Some i -> str_contains sep s = true.
Proof.
  revert i. induction s as [|c s IH]; intros i; cbn [str_find str_contains].
  - destruct (startswith sep ""); [reflexivity | discriminate].
  - destruct (startswith sep (String c s)); [reflexivity|].
    destruct (str_find sep s) as [j|]; [|discriminate].
    intros _. now rewrite (IH j).
Qed.

Lemma find_none sep s : str_find sep s = None -> str_contains sep s = false.
Proof.
  induction s as [|c s IH]; cbn [str_find str_contains].
  - now destruct (startswith sep "").
  - destruct (startswith sep (String c s)); [discriminate|].
    destruct (str_find sep s); [discriminate|]. intros _. now apply IH.
Qed.

(** What [path_from_imagestore_string] returns for a connection string
    with the marker: the text behind the first [file:], up to the next
    [file:] if there is one. *)
Lemma path_from_imagestore_string_piece s i :
  str_find "file:" s = Some i ->
  path_from_imagestore_string (Some s)
  = Ok (PyStr (let rest := str_drop (i + 5) s in
               match str_find "file:" rest with
               | Some j => str_take j rest
               | None => rest
               end)).
Proof.
  intros Hfind. unfold path_from_imagestore_string.
  rewrite (find_contains _ _ _ Hfind).
  assert (Hne : truthy (Some s) = true).
  { destruct s; [discriminate | reflexivity]. }
  rewrite Hne. cbn [andb].
  rewrite (split_at_find "file:" s i) by (discriminate || assumption).
  cbn [String.length]. cbv zeta.
  destruct (str_find "file:" (str_drop (i + 5) s)) as [j|] eqn:Hnext.
  - rewrite (split_at_find "file:" _ j) by (discriminate || assumption).
    reflexivity.
  - rewrite split_without by (discriminate || now apply find_none).
    reflexivity.
Qed.

(** With the marker [file:] only once in the connection string, the share
    path is everything behind it. *)
Lemma path_from_imagestore_string_single_marker s i :
  str_find "file:" s = Some i ->
  str_find "file:" (str_drop (i + 5) s) = None ->
  path_from_imagestore_string (Some s) = Ok (PyStr (str_drop (i + 5) s)).
Proof.
  intros Hfind Hrest. rewrite (path_from_imagestore_string_piece s i Hfind).
  cbv zeta. now rewrite Hrest.
Qed.

(** C3, evaluated where it fails.  The connection string
    [file:/mnt/profile:1] contains [file:] twice (the second time inside
    [profile:]); [split] cuts at both, and index 1 is only the text between
    them, not the text that follows the first [file:].  The sentinel and
    the unsupported case go as described. *)
Theorem path_from_imagestore_string_cuts_at_second_marker :
  str_contains "file:" "file:/mnt/profile:1" = true
  /\ str_find "file:" "file:/mnt/profile:1" = Some 0
  /\ str_drop 5 "file:/mnt/profile:1" = "/mnt/profile:1"
  /\ path_from_imagestore_string (Some "file:/mnt/profile:1")
     = Ok (PyStr "/mnt/pro")
  /\ copies (snd (upload (demo_env (fun _ _ => 200%Z) 200 false None)
                     "pkg" "file:/mnt/profile:1" false []))
     = [("/home/user/pkg/ApplicationManifest.xml",
         "/mnt/pro/pkg/ApplicationManifest.xml");
        ("/home/user/pkg/Code/run.sh", "/mnt/pro/pkg/Code/run.sh");
        ("/home/user/pkg/Code/app.bin", "/mnt/pro/pkg/Code/app.bin")].
Proof. repeat split; reflexivity. Qed.

(** * Conflicting trust settings *)

(** C8 as stated fails when the package path is not a directory: the path
    is validated first, and its error is the one raised. *)
Lemma upload_conflict_invalid_path :
  let env := demo_env (fun _ _ => 200%Z) 200 true (Some "ca.pem") in
  no_verify_setting env = true
  /\ truthy (ca_cert_info env) = true
  /\ upload env "missing" "fabric:ImageStore" false []
     = (Raise (ValueError
                 "Invalid path to application directory: /home/user/missing"),
        [])
  /\ upload env "missing" "fabric:ImageStore" false []
     <> (Raise (CLIError "Cannot specify both CA cert info and no verify"),
         []).
Proof. repeat split; try reflexivity. discriminate. Qed.

(** C8, amended.  When the configuration asks both for no verification and
    for a CA bundle, [upload] of an existing package directory raises the
    conflict error, and [upload] of a path that is not a directory raises
    the invalid-path error; in both cases nothing has been copied or sent:
    the events are those from before the call. *)
Theorem upload_conflicting_trust env path imagestore_string show tr :
  no_verify_setting env = true ->
  truthy (ca_cert_info env) = true ->
  upload env path imagestore_string show tr
  = if env_isdir env tr (abspath (env_cwd env) path)
    then (Raise (CLIError "Cannot specify both CA cert info and no verify"),
          tr)
    else (Raise (ValueError ("Invalid path to application directory: "
                             ++ abspath (env_cwd env) path)),
          tr).
Proof.
  intros Hno Hca. unfold upload, validate_app_path, bind, isdir.
  destruct (env_isdir env tr (abspath (env_cwd env) path)); auto.
  unfold ret. now rewrite Hno, Hca.
Qed.

Lemma upload_conflicting_trust_witness :
  let env := demo_env (fun _ _ => 200%Z) 200 true (Some "ca.pem") in
  no_verify_setting env = true
  /\ truthy (ca_cert_info env) = true
  /\ upload env "pkg" "fabric:ImageStore" true []
     = (Raise (CLIError "Cannot specify both CA cert info and no verify"), []).
Proof.
  intros env. split; [reflexivity|]. split; [reflexivity|].
  apply (upload_conflicting_trust env "pkg" "fabric:ImageStore" true []);
    reflexivity.
Defined.

(** * Provisioning *)

(** C6 as stated fails when [async] is not a boolean: with kind
    [ImageStorePath] and a build path, no description is built. *)
Lemma provision_description_unparsable_async :
  truthy (Some "pkg") = true
  /\ (forall description,
        provision_description (Some "ImageStorePath") "gibberish" (Some "pkg")
          None None None
        <> Ok description)
  /\ forall env tr,
       exists e,
         provision_application_type env (Some "ImageStorePath") "gibberish"
           (Some "pkg") None None None (Some 60%Z) None false tr
         = (Raise e, tr).
Proof.
  split; [reflexivity|]. split.
  - intros description. discriminate.
  - intros env tr. eexists. reflexivity.
Qed.

(** C6, amended.  [provision_application_type] checks, in this order: an
    empty or missing kind raises the error for [--provision-kind]; kind
    [ImageStorePath] with an empty or missing build path raises the error
    for [--application-type-build-path]; kind [ExternalStore] with any of
    download URI, type name and type version empty or missing raises the
    error that names all three; any other kind raises the error that names
    the two choices.  When these checks pass, [async] is parsed by
    [to_bool]: its error is raised if it has one, and otherwise the
    description of that kind is built from the parsed flag and the
    arguments.  Whatever is raised here is raised before a request is
    sent. *)
Theorem provision_description_cases
    provision_kind async application_type_build_path
    application_package_download_uri application_type_name
    application_type_version :
  let built :=
    provision_description provision_kind async application_type_build_path
      application_package_download_uri application_type_name
      application_type_version in
  (truthy provision_kind = false ->
   built = Raise (CLIError "Missing required parameter --provision-kind."))
  /\ (provision_kind = Some "ImageStorePath" ->
      truthy application_type_build_path = false ->
      built = Raise (CLIError
                       "Missing required parameter --application-type-build-path."))
  /\ (provision_kind = Some "ImageStorePath" ->
      truthy application_type_build_path = true ->
      built = match to_bool async with
              | Ok a => Ok (ProvisionApplicationTypeDescription
                              a application_type_build_path)
              | Raise e => Raise e
              end)
  /\ (provision_kind = Some "ExternalStore" ->
      truthy application_package_download_uri
      && truthy application_type_name
      && truthy application_type_version = false ->
      built = Raise (CLIError "Missing required parameters. The following are required: --application-package-download-uri, --application-type-name, --application-type-version."))
  /\ (provision_kind = Some "ExternalStore" ->
      truthy application_package_download_uri
      && truthy application_type_name
      && truthy application_type_version = true ->
      built = match to_bool async with
              | Ok a => Ok (ExternalStoreProvisionApplicationTypeDescription
                              a application_package_download_uri
                              application_type_name application_type_version)
              | Raise e => Raise e
              end)
  /\ (truthy provision_kind = true ->
      provision_kind <> Some "ImageStorePath" ->
      provision_kind <> Some "ExternalStore" ->
      built = Raise (CLIError "Parameter --provision-kind has an incorrect value. Choose from the following: ImageStorePath, ExternalStore."))
  /\ forall env timeout custom_headers raw tr e,
       built = Raise e ->
       provision_application_type env provision_kind async
         application_type_build_path application_package_download_uri
         application_type_name application_type_version timeout
         custom_headers raw tr
       = (Raise e, tr).
Proof.
  intros built. subst built. unfold provision_description.
  repeat split.
  - intros ->. reflexivity.
  - intros -> ->. reflexivity.
  - intros -> ->. cbn. now destruct (to_bool async).
  - intros ->. cbn [truthy negb String.eqb py_eq forallb]. cbn.
    rewrite andb_true_r, <- andb_assoc. now intros ->.
  - intros ->. cbn [truthy negb String.eqb py_eq forallb]. cbn.
    rewrite andb_true_r, <- andb_assoc. intros ->. cbn.
    now destruct (to_bool async).
  - intros Hkind Himage Hext. rewrite Hkind. cbn [negb].
    destruct provision_kind as [k|]; [|discriminate]. cbn [py_eq].
    destruct (k =? "ImageStorePath") eqn:H1.
    { apply String.eqb_eq in H1. congruence. }
    destruct (k =? "ExternalStore") eqn:H2.
    { apply String.eqb_eq in H2. congruence. }
    reflexivity.
  - intros env timeout custom_headers raw tr e Hbuilt.
    unfold provision_application_type, provision_description.
    unfold bind at 1. unfold lift at 1. now rewrite Hbuilt.
Qed.

Lemma provision_description_cases_witness :
  provision_description (Some "ImageStorePath") "True" (Some "pkg")
    None None None
  = Ok (ProvisionApplicationTypeDescription true (Some "pkg"))
  /\ provision_description (Some "ExternalStore") "false" None
       (Some "https://example.org/app.sfpkg") (Some "AppType") None
     = Raise (CLIError "Missing required parameters. The following are required: --application-package-download-uri, --application-type-name, --application-type-version.").
Proof.
  destruct (provision_description_cases (Some "ImageStorePath") "True"
              (Some "pkg") None None None)
    as (_ & _ & Hbuilt & _).
  destruct (provision_description_cases (Some "ExternalStore") "false" None
              (Some "https://example.org/app.sfpkg") (Some "AppType") None)
    as (_ & _ & _ & Hmissing & _).
  split.
  - apply Hbuilt; reflexivity.
  - apply Hmissing; reflexivity.
Defined.

(** The request that [provision_application_type] sends for a description
    and a timeout. *)
Lemma provision_invocation env provision_kind async
    application_type_build_path application_package_download_uri
    application_type_name application_type_version timeout raw tr
    description :
  provision_description provision_kind async application_type_build_path
    application_package_download_uri application_type_name
    application_type_version
  = Ok description ->
  (1 <= timeout <= 4294967295)%Z ->
  let request :=
    {| req_url := "/ApplicationTypes/$/Provision";
       req_query := [("api-version", "6.1"); ("timeout", str_of_int timeout)];
       req_headers := [("Content-Type", "application/json; charset=utf-8")];
       req_body := description;
       req_body_type :=
         if py_eq provision_kind "ImageStorePath"
         then "ProvisionApplicationTypeDescription"
         else "ExternalStoreProvisionApplicationTypeDescription" |} in
  provision_application_type env provision_kind async
    application_type_build_path application_package_download_uri
    application_type_name application_type_version (Some timeout) None raw tr
  = match env_send env tr request with
    | Ok response =>
        (if negb ((status_code response =? 200)%Z
                  || (status_code response =? 202)%Z)
         then Raise (FabricErrorException response)
         else if raw then Raise (NameError "ClientRawResponse")
              else Ok tt,
         (tr ++ [EvSend request (Ok response)])%list)
    | Raise e => (Raise e, (tr ++ [EvSend request (Raise e)])%list)
    end.
Proof.
  intros Hbuilt Htimeout request.
  unfold provision_application_type.
  unfold bind at 1. unfold lift at 1. rewrite Hbuilt.
  unfold bind at 1. unfold bind at 1. unfold lift at 1, serialize_timeout.
  replace (4294967295 <? timeout)%Z with false by (symmetry; apply Z.ltb_ge; lia).
  replace (timeout <? 1)%Z with false by (symmetry; apply Z.ltb_ge; lia).
  unfold ret at 1. cbn [dict_set String.eqb Ascii.eqb Bool.eqb].
  unfold bind, send, call. fold request.
  destruct (env_send env tr request) as [response|e]; auto.
  destruct (negb _); auto. destruct raw; auto.
Qed.

(** Without [raw], the call returns exactly for the statuses 200 and 202
    and raises [FabricErrorException] with the response for every other
    status. *)
Lemma provision_status_without_raw env provision_kind async
    application_type_build_path application_package_download_uri
    application_type_name application_type_version timeout tr description
    response request :
  provision_description provision_kind async application_type_build_path
    application_package_download_uri application_type_name
    application_type_version
  = Ok description ->
  (1 <= timeout <= 4294967295)%Z ->
  request
  = {| req_url := "/ApplicationTypes/$/Provision";
       req_query := [("api-version", "6.1"); ("timeout", str_of_int timeout)];
       req_headers := [("Content-Type", "application/json; charset=utf-8")];
       req_body := description;
       req_body_type :=
         if py_eq provision_kind "ImageStorePath"
         then "ProvisionApplicationTypeDescription"
         else "ExternalStoreProvisionApplicationTypeDescription" |} ->
  env_send env tr request = Ok response ->
  fst (provision_application_type env provision_kind async
         application_type_build_path application_package_download_uri
         application_type_name application_type_version (Some timeout) None
         false tr)
  = if (status_code response =? 200)%Z || (status_code response =? 202)%Z
    then Ok tt
    else Raise (FabricErrorException response).
Proof.
  intros Hbuilt Htimeout -> Hsend.
  rewrite (provision_invocation env _ _ _ _ _ _ _ false tr description
             Hbuilt Htimeout).
  cbv zeta. rewrite Hsend. cbn [fst]. now destruct (_ || _).
Qed.

(** C7, evaluated where it fails.  With [raw] set, a response with status
    200 or 202 is followed by the statement that builds
    [ClientRawResponse], a name that the module does not bind: the call
    raises [NameError] after the request has been sent and accepted. *)
Theorem provision_raw_raises_name_error :
  let provision status :=
    provision_application_type
      (demo_env (fun _ _ => 200%Z) status false None)
      (Some "ImageStorePath") "false" (Some "pkg") None None None
      (Some 60%Z) None true [] in
  fst (provision 200%Z) = Raise (NameError "ClientRawResponse")
  /\ fst (provision 202%Z) = Raise (NameError "ClientRawResponse")
  /\ puts (snd (provision 200%Z)) = []
  /\ snd (provision 200%Z)
     = [EvSend
          {| req_url := "/ApplicationTypes/$/Provision";
             req_query := [("api-version", "6.1"); ("timeout", "60")];
             req_headers :=
               [("Content-Type", "application/json; charset=utf-8")];
             req_body :=
               ProvisionApplicationTypeDescription false (Some "pkg");
             req_body_type := "ProvisionApplicationTypeDescription" |}
          (Ok {| status_code := 200; content := "{}" |})].
Proof. repeat split; reflexivity. Qed.

(** * The file-share transfer *)

(** One turn of the inner loop that returns has made the copy of its
    file. *)
Lemma copy_file_returns env source dest show total root f current tr
    current' tr' :
  copy_file env source dest show total root f current tr = (Ok current', tr') ->
  exists evs,
    tr' = (tr ++ evs)%list
    /\ copies evs
       = [(path_join root [f], copy_destination source dest root f)].
Proof.
  unfold copy_file, copy_destination, bind, isdir, makedirs, copyfile, call,
    print_progress, print, emit, ret.
  set (dest_path := path_join dest _).
  destruct (env_isdir env tr dest_path); cbn [negb].
  - destruct (env_copyfile env tr _ _) as [e|]; cbn [outcome];
      [discriminate|].
    destruct show; intros H; inversion H; subst; rewrite <- ?app_assoc;
      eexists; split; reflexivity.
  - destruct (env_makedirs env tr dest_path) as [e|]; cbn [outcome];
      [discriminate|].
    destruct (env_copyfile env _ _ _) as [e|]; cbn [outcome];
      [discriminate|].
    destruct show; intros H; inversion H; subst; rewrite <- ?app_assoc;
      eexists; split; reflexivity.
Qed.

(** A loop that returns has made the copies of its turns, in order. *)
Lemma for_each_copies {A} (body : A -> Z -> M Z)
    (plan_of : A -> list (string * string)) :
  (forall x current tr current' tr',
      body x current tr = (Ok current', tr') ->
      exists evs, tr' = (tr ++ evs)%list /\ copies evs = plan_of x) ->
  forall xs current tr current' tr',
    for_each xs body current tr = (Ok current', tr') ->
    exists evs, tr' = (tr ++ evs)%list /\ copies evs = flat_map plan_of xs.
Proof.
  intros Hbody xs. induction xs as [|x xs IH];
    intros current tr current' tr' Hrun; cbn [for_each flat_map] in *.
  - inversion Hrun; subst. exists []. now rewrite app_nil_r.
  - unfold bind in Hrun.
    destruct (body x current tr) as [[current1|e] tr1] eqn:Hx;
      [|discriminate].
    destruct (Hbody _ _ _ _ _ Hx) as (evs1 & -> & Hc1).
    destruct (IH _ _ _ _ Hrun) as (evs2 & -> & Hc2).
    exists (evs1 ++ evs2)%list. split.
    + now rewrite app_assoc.
    + now rewrite copies_app, Hc1, Hc2.
Qed.

(** X22.  A file-share transfer that returns has copied every file of
    the tree once, in the order of the walk: as many copies as there are
    files. *)
Lemma upload_to_fileshare_copies env source dest show tr tr' t :
  env_tree env source = Some t ->
  upload_to_fileshare env source dest show tr = (Ok tt, tr') ->
  exists evs,
    tr' = (tr ++ evs)%list
    /\ copies evs = copy_plan env source dest
    /\ length (copies evs) = count_files t.
Proof.
  intros Ht. unfold upload_to_fileshare, bind.
  set (total := fold_left _ _ _).
  destruct (for_each _ _ _ tr) as [[current|e] tr1] eqn:Hloop; [|discriminate].
  intros Hrun.
  apply (for_each_copies _
           (fun entry =>
              map (fun f => (path_join (fst (fst entry)) [f],
                             copy_destination source dest (fst (fst entry)) f))
                  (snd entry))) in Hloop.
  - destruct Hloop as (evs & -> & Hcopies).
    exists (evs ++ (if show then [EvPrint Stderr "Complete"] else []))%list.
    split; [|split].
    + destruct show; unfold print, emit, ret in Hrun; inversion Hrun; subst.
      * now rewrite app_assoc.
      * now rewrite app_nil_r.
    + rewrite copies_app, Hcopies. unfold copy_plan.
      destruct show; cbn [copies]; now rewrite app_nil_r.
    + rewrite copies_app, Hcopies. replace (copies _) with (@nil (string * string))
        by (now destruct show).
      rewrite app_nil_r. unfold os_walk. rewrite Ht.
      destruct (walk_counts t source) as [_ <-].
      induction (walk source t) as [|entry walked IH]; cbn [flat_map map list_sum];
        auto.
      rewrite length_app, length_map, IH. reflexivity.
  - intros entry current0 tr0 current0' tr0' Hentry.
    apply (for_each_copies _
             (fun f => [(path_join (fst (fst entry)) [f],
                         copy_destination source dest (fst (fst entry)) f)]))
      in Hentry.
    + destruct Hentry as (evs & -> & Hcopies). exists evs.
      split; [reflexivity|]. rewrite Hcopies. apply flat_map_singleton.
    + intros f c0 t0 c0' t0' Hf. eapply copy_file_returns; eauto.
Qed.

(** C4, evaluated where it fails.  For the package [/app] with a file
    [run.sh] and a subdirectory [app] with another [run.sh],
    [root.replace(source, '')] removes both occurrences of [/app] from the
    root [/app/app], so the second file is copied to the destination root
    and not to its [app] subdirectory: two copies are made, onto the same
    destination file. *)
Theorem upload_to_fileshare_nested_name :
  os_walk nested_env "/app"
  = [("/app", ["app"], ["run.sh"]); ("/app/app", [], ["run.sh"])]
  /\ relpath_of "/" "/app/app" "/app" = "app"
  /\ str_lstrip sep (str_replace "/app" "" "/app/app") = ""
  /\ fst (upload_to_fileshare nested_env "/app" "/share/app" true [])
     = Ok tt
  /\ copies (snd (upload_to_fileshare nested_env "/app" "/share/app" true []))
     = [("/app/run.sh", "/share/app/run.sh");
        ("/app/app/run.sh", "/share/app/run.sh")]
  /\ upload nested_env "/app" "file:/share" true []
     = upload_to_fileshare nested_env "/app" "/share/app" true []
  /\ path_join "/share/app" ["app"; "run.sh"] = "/share/app/app/run.sh".
Proof. repeat split; reflexivity. Qed.

(** * Paths *)

(** ** Splitting and joining at [/] *)

Lemma startswith_slash_cons c s :
  startswith "/" (String c s) = Ascii.eqb c "/".
Proof.
  unfold startswith. cbn [String.prefix].
  destruct (ascii_dec "/" c) as [<-|Hne].
  - now destruct s.
  - symmetry. apply Ascii.eqb_neq. congruence.
Qed.

Lemma contains_slash_cons c s :
  str_contains "/" (String c s) = Ascii.eqb c "/" || str_contains "/" s.
Proof. cbn [str_contains]. now rewrite startswith_slash_cons. Qed.

Lemma contains_slash_app s1 s2 :
  str_contains "/" (s1 ++ s2) = str_contains "/" s1 || str_contains "/" s2.
Proof.
  induction s1 as [|c s1 IH].
  - destruct s2; reflexivity.
  - cbn [String.append]. rewrite !contains_slash_cons, IH.
    now rewrite orb_assoc.
Qed.

Lemma split_slash_cons c s :
  str_split "/" (String c s)
  = if Ascii.eqb c "/" then "" :: str_split "/" s
    else match str_split "/" s with
         | piece :: rest => String c piece :: rest
         | [] => [String c ""]
         end.
Proof.
  unfold str_split. cbn [split_go]. now rewrite startswith_slash_cons.
Qed.

Lemma split_no_slash x :
  str_contains "/" x = false -> str_split "/" x = [x].
Proof.
  induction x as [|c x IH]; intros Hx; [reflexivity|].
  rewrite contains_slash_cons in Hx. apply orb_false_elim in Hx as [Hc Hx].
  now rewrite split_slash_cons, Hc, IH.
Qed.

Lemma split_slash_app x s :
  str_contains "/" x = false ->
  str_split "/" (x ++ "/" ++ s) = x :: str_split "/" s.
Proof.
  induction x as [|c x IH]; intros Hx.
  - cbn [String.append]. now rewrite split_slash_cons.
  - rewrite contains_slash_cons in Hx. apply orb_false_elim in Hx as [Hc Hx].
    cbn [String.append]. rewrite split_slash_cons, Hc.
    change (x ++ String "/" s) with (x ++ "/" ++ s). now rewrite IH.
Qed.

Lemma str_join_cons x y l :
  str_join "/" (x :: y :: l) = x ++ "/" ++ str_join "/" (y :: l).
Proof. reflexivity. Qed.

Lemma split_join xs :
  xs <> [] -> Forall no_slash xs -> str_split "/" (str_join "/" xs) = xs.
Proof.
  induction xs as [|x [|y xs] IH]; intros Hne Hxs; [congruence| |].
  - inversion Hxs; subst. now apply split_no_slash.
  - inversion Hxs; subst. rewrite str_join_cons, split_slash_app by assumption.
    f_equal. apply IH; [discriminate | assumption].
Qed.

Lemma str_join_app xs ys :
  xs <> [] -> ys <> [] ->
  str_join "/" (xs ++ ys) = str_join "/" xs ++ "/" ++ str_join "/" ys.
Proof.
  intros Hxs Hys. induction xs as [|x [|y xs] IH]; [congruence| |].
  - destruct ys as [|y ys]; [congruence|]. reflexivity.
  - change ((x :: y :: xs) ++ ys)%list with (x :: y :: (xs ++ ys))%list.
    rewrite !str_join_cons.
    change (y :: (xs ++ ys))%list with ((y :: xs) ++ ys)%list.
    rewrite IH by discriminate. now rewrite !str_app_assoc.
Qed.

(** ** Names *)

Lemma valid_name_spec x :
  valid_name x = true ->
  x <> "" /\ x <> "." /\ x <> ".." /\ no_slash x.
Proof.
  unfold valid_name, no_slash. intros H.
  repeat (apply andb_prop in H as [H ?]).
  repeat match goal with
         | H : negb _ = true |- _ => apply negb_true_iff in H
         end.
  repeat split; try (apply String.eqb_neq; assumption). assumption.
Qed.

Lemma valid_names_no_slash xs :
  forallb valid_name xs = true -> Forall no_slash xs.
Proof.
  intros H. apply Forall_forall. intros x Hx.
  rewrite forallb_forall in H. now apply valid_name_spec, H.
Qed.

Lemma no_slash_first c x : no_slash (String c x) -> Ascii.eqb c "/" = false.
Proof.
  unfold no_slash. rewrite contains_slash_cons. intros H.
  now apply orb_false_elim in H.
Qed.

(** ** [normpath] *)

(** The components that [normpath] keeps when there is no [..]. *)
Lemma normpath_fold k comps acc :
  Forall (fun c => c <> "..") comps ->
  fold_left (normpath_step k) comps acc
  = (acc ++ filter (fun c => negb ((c =? "") || (c =? "."))) comps)%list.
Proof.
  intros H. revert acc.
  induction H as [|c comps Hc _ IH]; intros acc; cbn [fold_left filter].
  - now rewrite app_nil_r.
  - rewrite IH. unfold normpath_step at 1. unfold curdir, pardir.
    destruct ((c =? "") || (c =? ".")); cbn [negb]; auto.
    apply String.eqb_neq in Hc. rewrite Hc. cbn [negb orb].
    now rewrite <- app_assoc.
Qed.

Lemma filter_valid_names xs :
  forallb valid_name xs = true ->
  filter (fun c => negb ((c =? "") || (c =? "."))) xs = xs.
Proof.
  induction xs as [|x xs IH]; cbn [forallb filter]; intros H; auto.
  apply andb_prop in H as [Hx Hxs].
  destruct (valid_name_spec x Hx) as (H1 & H2 & _).
  apply String.eqb_neq in H1, H2. rewrite H1, H2. cbn. now rewrite IH.
Qed.

Lemma valid_names_not_pardir xs :
  forallb valid_name xs = true -> Forall (fun c => c <> "..") xs.
Proof.
  intros H. apply Forall_forall. intros x Hx.
  rewrite forallb_forall in H. now apply valid_name_spec, H.
Qed.


Lemma str_eqb_nonempty s : s <> "" -> (s =? "") = false.
Proof. intros H. now apply String.eqb_neq. Qed.


Lemma abs_path_components comps :
  forallb valid_name comps = true ->
  fold_left (normpath_step 1)
    (str_split "/" (String "/" (str_join "/" comps))) []
  = comps.
Proof.
  intros Hvalid. rewrite split_slash_cons. cbn [Ascii.eqb Bool.eqb].
  destruct comps as [|c comps]; [reflexivity|].
  rewrite split_join by (try discriminate; now apply valid_names_no_slash).
  change (fold_left (normpath_step 1) ("" :: c :: comps) [])
    with (fold_left (normpath_step 1) (c :: comps) []).
  rewrite normpath_fold by now apply valid_names_not_pardir.
  now rewrite filter_valid_names.
Qed.

(** A normalized absolute path is left as it is. *)
Lemma normpath_abs_path comps :
  forallb valid_name comps = true -> normpath (abs_path comps) = abs_path comps.
Proof.
  intros Hvalid. unfold normpath, abs_path.
  cbn [String.append String.eqb]. unfold sep.
  rewrite startswith_slash_cons. cbn [Ascii.eqb Bool.eqb].
  assert (Hstart2 : startswith "//" (String "/" (str_join "/" comps)) = false).
  { unfold startswith. cbn [String.prefix].
    destruct (ascii_dec "/" "/"); [|congruence].
    destruct comps as [|c comps]; [reflexivity|].
    cbn [forallb] in Hvalid. apply andb_prop in Hvalid as [Hc _].
    destruct (valid_name_spec c Hc) as (Hne & _ & _ & Hslash).
    destruct c as [|a c]; [congruence|]. apply no_slash_first in Hslash.
    fold (startswith "/" (str_join "/" (String a c :: comps))).
    destruct comps; cbn [str_join String.concat String.append];
      now rewrite startswith_slash_cons. }
  rewrite Hstart2. cbn [andb]. cbv zeta.
  rewrite abs_path_components by assumption.
  reflexivity.
Qed.

(** ** [join] *)

Lemma ends_with_char_app c s1 s2 :
  s2 <> "" -> ends_with_char c (s1 ++ s2) = ends_with_char c s2.
Proof.
  intros Hs2. induction s1 as [|d s1 IH]; [reflexivity|].
  cbn [String.append ends_with_char]. rewrite IH.
  destruct (s1 ++ s2) eqn:Happ; auto.
  destruct s1; [simpl in Happ; congruence | discriminate].
Qed.

Lemma no_slash_ends x : no_slash x -> ends_with_char "/" x = false.
Proof.
  unfold no_slash. induction x as [|c x IH]; [reflexivity|].
  rewrite contains_slash_cons. intros H.
  apply orb_false_elim in H as [Hc Hx].
  cbn [ends_with_char]. destruct x; [|auto].
  now rewrite Ascii.eqb_sym.
Qed.

Lemma valid_name_plain x : valid_name x = true -> plain x.
Proof.
  intros H. destruct (valid_name_spec x H) as (Hne & _ & _ & Hslash).
  split; [assumption|]. split; [|now apply no_slash_ends].
  destruct x as [|c x]; [congruence|].
  rewrite startswith_slash_cons. now apply no_slash_first in Hslash.
Qed.

Lemma plain_app a b : plain a -> plain b -> plain (a ++ "/" ++ b).
Proof.
  intros (Ha & Hsa & _) (Hb & _ & Heb). split; [|split].
  - destruct a; [congruence | discriminate].
  - destruct a as [|c a]; [congruence|].
    cbn [String.append]. now rewrite startswith_slash_cons in *.
  - rewrite ends_with_char_app.
    + cbn [String.append ends_with_char]. destruct b; [congruence | assumption].
    + discriminate.
Qed.

Lemma plain_join x xs :
  forallb valid_name (x :: xs) = true -> plain (str_join "/" (x :: xs)).
Proof.
  revert x. induction xs as [|y xs IH]; intros x H;
    cbn [forallb] in H; apply andb_prop in H as [Hx Hxs].
  - now apply valid_name_plain.
  - rewrite str_join_cons. apply plain_app.
    + now apply valid_name_plain.
    + now apply IH.
Qed.


Lemma join2_sep p b :
  p <> "" -> ends_with_char "/" p = false -> startswith "/" b = false ->
  join2 p b = p ++ "/" ++ b.
Proof.
  intros Hp Hep Hsb. unfold join2, sep.
  now rewrite Hsb, Hep, (str_eqb_nonempty p Hp).
Qed.




(** ** [relpath] below a normalized absolute path *)






(** ** The path of a PUT *)



(** ** What [os.walk] yields *)



(** ** The URLs of a transfer *)




(** * Further properties of the transfers *)

(** ** Invariants of loops *)

Section Invariant.

Context {S : Type}.

(** [Q tr s evs r]: a piece of code started after the events [tr] with the
    loop state [s] has performed [evs] and ended with [r]. *)
Variable Q : list event -> S -> list event -> result S -> Prop.

Hypothesis Q_ret : forall tr s, Q tr s [] (Ok s).

Hypothesis Q_seq :
  forall tr s evs1 s1 evs2 r,
    Q tr s evs1 (Ok s1) -> Q (tr ++ evs1) s1 evs2 r ->
    Q tr s (evs1 ++ evs2) r.

(** What holds of every turn and is kept by sequencing holds of the loop. *)
Lemma for_each_invariant {A} (body : A -> S -> M S) :
  (forall x s tr, exists evs r,
      body x s tr = (r, (tr ++ evs)%list) /\ Q tr s evs r) ->
  forall xs s tr, exists evs r,
    for_each xs body s tr = (r, (tr ++ evs)%list) /\ Q tr s evs r.
Proof.
  intros Hbody xs. induction xs as [|x xs IH]; intros s tr; cbn [for_each].
  - exists [], (Ok s). unfold ret. rewrite app_nil_r. auto.
  - unfold bind. destruct (Hbody x s tr) as (evs1 & r1 & -> & H1).
    destruct r1 as [s1|e].
    + destruct (IH s1 (tr ++ evs1)%list) as (evs2 & r & -> & H2).
      exists (evs1 ++ evs2)%list, r. rewrite app_assoc. eauto.
    + exists evs1, (Raise e). auto.
Qed.

End Invariant.

(** ** The steps of a native-store transfer *)

(** A PUT, the check of its status, the count and the report. *)
Lemma put_step_cases env sesh show total current url data path tr :
  (res <- put env sesh url data ;;
   lift (raise_for_status res) ;;;
   print_progress (current + 1) total path show ;;;
   ret (current + 1)%Z) tr
  = match env_put env tr sesh url data with
    | Raise e => (Raise e, (tr ++ [EvPut sesh url data (Raise e)])%list)
    | Ok response =>
        match raise_for_status response with
        | Raise e =>
            (Raise e, (tr ++ [EvPut sesh url data (Ok response)])%list)
        | Ok _ =>
            (Ok (current + 1)%Z,
             (tr ++ EvPut sesh url data (Ok response)
                 :: if show
                    then [EvPrint Stderr
                            (progress_line (current + 1) total path)]
                    else [])%list)
        end
    end.
Proof.
  unfold bind, put, call, lift, print_progress, print, emit, ret.
  destruct (env_put env tr sesh url data) as [response|e]; auto.
  destruct (raise_for_status response) as [[]|e]; auto.
  destruct show.
  - rewrite format_progress, <- app_assoc. reflexivity.
  - reflexivity.
Qed.

Lemma raise_for_status_cases response :
  (raise_for_status response = Ok tt
   /\ ~ (400 <= status_code response < 600)%Z)
  \/ (raise_for_status response = Raise (HTTPError response)
      /\ (400 <= status_code response < 600)%Z).
Proof.
  unfold raise_for_status.
  destruct (400 <=? status_code response)%Z eqn:H1;
    destruct (status_code response <? 600)%Z eqn:H2; cbn [andb];
    rewrite ?Z.leb_le, ?Z.leb_gt, ?Z.ltb_lt, ?Z.ltb_ge in *;
    (left; split; [reflexivity | lia]) || (right; split; [reflexivity | lia]).
Qed.


Lemma put_url_raises env endpoint url_path e :
  put_url env endpoint url_path = Raise e -> urlparse env endpoint = Raise e.
Proof.
  unfold put_url. destruct (urlparse env endpoint); cbn [rbind]; congruence.
Qed.

Section NativeInvariant.

Variable env : Env.
Variable sesh : Session.
Variables endpoint abspath basename : string.
Variable show : bool.
Variable total : Z.

Variable Q : list event -> Z -> list event -> result Z -> Prop.

Hypothesis Q_ret : forall tr s, Q tr s [] (Ok s).

Hypothesis Q_seq :
  forall tr s evs1 s1 evs2 r,
    Q tr s evs1 (Ok s1) -> Q (tr ++ evs1) s1 evs2 r ->
    Q tr s (evs1 ++ evs2) r.

Hypothesis Q_no_path :
  forall tr s, Q tr s [] (Raise (ValueError "no path specified")).

Hypothesis Q_parse_fail :
  forall tr s e, urlparse env endpoint = Raise e -> Q tr s [] (Raise e).

Hypothesis Q_open_fail :
  forall tr s path e,
    env_open env tr path = Some e -> Q tr s [EvOpen path] (Raise e).

Hypothesis Q_open :
  forall tr s path,
    env_open env tr path = None -> Q tr s [EvOpen path] (Ok s).

Hypothesis Q_put_raise :
  forall tr s url data e,
    env_put env tr sesh url data = Raise e ->
    Q tr s [EvPut sesh url data (Raise e)] (Raise e).

Hypothesis Q_put_status :
  forall tr s url data response,
    env_put env tr sesh url data = Ok response ->
    (400 <= status_code response < 600)%Z ->
    Q tr s [EvPut sesh url data (Ok response)] (Raise (HTTPError response)).

Hypothesis Q_put :
  forall tr s url data response path,
    env_put env tr sesh url data = Ok response ->
    put_ok (Ok response) = true ->
    Q tr s
      (EvPut sesh url data (Ok response)
       :: if show then [EvPrint Stderr (progress_line (s + 1) total path)]
          else [])
      (Ok (s + 1)%Z).

Lemma put_step_invariant current url data path tr :
  exists evs r,
    (res <- put env sesh url data ;;
     lift (raise_for_status res) ;;;
     print_progress (current + 1) total path show ;;;
     ret (current + 1)%Z) tr
    = (r, (tr ++ evs)%list)
    /\ Q tr current evs r.
Proof.
  rewrite put_step_cases.
  destruct (env_put env tr sesh url data) as [response|e] eqn:Hput.
  - destruct (raise_for_status_cases response) as [[Hs Hr]|[Hs Hr]];
      rewrite Hs.
    + eexists _, _. split; [reflexivity|]. apply Q_put; auto.
      cbn [put_ok]. now rewrite Hs.
    + eexists _, _. split; [reflexivity|]. now apply Q_put_status.
  - eexists _, _. split; [reflexivity|]. now apply Q_put_raise.
Qed.

Lemma upload_file_invariant root rel_path f current tr :
  exists evs r,
    upload_file env sesh endpoint basename show total root rel_path f
      current tr
    = (r, (tr ++ evs)%list)
    /\ Q tr current evs r.
Proof.
  unfold upload_file. unfold bind at 1. unfold open, call.
  destruct (env_open env tr (normpath (path_join root [f]))) as [e|] eqn:Hopen.
  - eexists _, _. split; [reflexivity|]. now apply Q_open_fail.
  - unfold bind at 1. unfold lift at 1.
    destruct (put_url env endpoint _) as [url|e] eqn:Hurl.
    + destruct (put_step_invariant current url
                  (Some (normpath (path_join root [f])))
                  (normpath (path_join rel_path [f]))
                  (tr ++ [EvOpen (normpath (path_join root [f]))])%list)
        as (evs & r & Heq & HQ).
      rewrite Heq. exists (EvOpen (normpath (path_join root [f])) :: evs), r.
      split.
      * now rewrite <- app_assoc.
      * apply (Q_seq tr current [EvOpen (normpath (path_join root [f]))]
                 current evs r); auto.
    + exists ([EvOpen (normpath (path_join root [f]))] ++ [])%list, (Raise e).
      split; [now rewrite app_nil_r|].
      apply (Q_seq tr current [EvOpen (normpath (path_join root [f]))]
               current [] (Raise e)); auto.
      apply Q_parse_fail. now apply put_url_raises in Hurl.
Qed.

Lemma upload_directory_invariant entry current tr :
  exists evs r,
    upload_directory env sesh endpoint abspath basename show total entry
      current tr
    = (r, (tr ++ evs)%list)
    /\ Q tr current evs r.
Proof.
  destruct entry as [[root dirs] files].
  unfold upload_directory. cbn [fst snd].
  unfold bind at 1. unfold lift at 1, relpath.
  destruct (root =? "").
  - exists [], (Raise (ValueError "no path specified")).
    rewrite app_nil_r. auto.
  - unfold bind at 1.
    destruct (for_each_invariant Q Q_ret Q_seq
                (upload_file env sesh endpoint basename show total root
                   (normpath (relpath_of (env_cwd env) root abspath)))
                (fun f c t => upload_file_invariant root _ f c t)
                files current tr) as (evs1 & r1 & -> & H1).
    destruct r1 as [current1|e]; [|eauto].
    unfold bind at 1. unfold lift at 1.
    destruct (put_url env endpoint _) as [url|e] eqn:Hurl.
    + destruct (put_step_invariant current1 url None
                  (normpath (path_join
                     (normpath (relpath_of (env_cwd env) root abspath))
                     ["_.dir"]))
                  (tr ++ evs1)%list) as (evs2 & r & Heq & H2).
      rewrite Heq. exists (evs1 ++ evs2)%list, r. rewrite app_assoc. eauto.
    + exists (evs1 ++ [])%list, (Raise e). split; [now rewrite app_nil_r|].
      apply (Q_seq tr current evs1 current1 [] (Raise e)); auto.
      apply Q_parse_fail. now apply put_url_raises in Hurl.
Qed.

(** What holds of every step of the transfer holds of its loop. *)
Lemma native_loop_invariant walked current tr :
  exists evs r,
    for_each walked
      (upload_directory env sesh endpoint abspath basename show total)
      current tr
    = (r, (tr ++ evs)%list)
    /\ Q tr current evs r.
Proof.
  apply (for_each_invariant Q Q_ret Q_seq). intros entry s tr0.
  apply upload_directory_invariant.
Qed.

End NativeInvariant.

(** [upload_to_native_imagestore] is its loop, followed by the last line
    when the loop returns and progress is shown. *)
Lemma upload_to_native_imagestore_unfold env sesh endpoint abspath basename
    show tr :
  let total :=
    Z.of_nat (length (transfer_plan env endpoint abspath basename)) in
  upload_to_native_imagestore env sesh endpoint abspath basename show tr
  = match for_each (os_walk env abspath)
            (upload_directory env sesh endpoint abspath basename show total)
            0%Z tr with
    | (Ok _, tr1) =>
        (Ok tt, if show then (tr1 ++ [EvPrint Stderr "Complete"])%list
                else tr1)
    | (Raise e, tr1) => (Raise e, tr1)
    end.
Proof.
  unfold upload_to_native_imagestore, transfer_plan.
  rewrite (total_files_count_plan env endpoint abspath basename).
  cbn [Z.add]. unfold bind.
  destruct (for_each _ _ _ tr) as [[current|e] tr1]; auto.
  now destruct show.
Qed.

(** ** What a native-store transfer does and does not do *)

(** The events of a native-store transfer all belong to [native_event]. *)
Lemma native_events_class env sesh endpoint abspath basename show tr :
  exists evs r,
    upload_to_native_imagestore env sesh endpoint abspath basename show tr
    = (r, (tr ++ evs)%list)
    /\ Forall (native_event sesh show) evs.
Proof.
  rewrite upload_to_native_imagestore_unfold. cbv zeta.
  destruct (native_loop_invariant env sesh endpoint abspath basename show
              (Z.of_nat (length (transfer_plan env endpoint abspath basename)))
              (fun _ _ evs _ => Forall (native_event sesh show) evs))
    with (walked := os_walk env abspath) (current := 0%Z) (tr := tr)
    as (evs & r & -> & HQ).
  - constructor.
  - intros. now apply Forall_app.
  - constructor.
  - constructor.
  - repeat constructor.
  - repeat constructor.
  - repeat constructor.
  - repeat constructor.
  - intros. destruct show; repeat constructor.
  - destruct r as [current|e].
    + exists (evs ++ if show then [EvPrint Stderr "Complete"] else [])%list,
             (Ok tt).
      split.
      * destruct show; [now rewrite app_assoc | now rewrite app_nil_r].
      * apply Forall_app. split; auto. destruct show; repeat constructor.
    + exists evs, (Raise e). auto.
Qed.

(** X1.  Whatever the outcome, a native-store transfer only opens files,
    sends PUTs through the session it was given and, when progress is
    shown, prints to the diagnostic stream: it copies no file, makes no
    directory, sends no other request and writes nothing to the primary
    output; without progress it prints nothing at all. *)
Theorem native_transfer_events env sesh endpoint abspath basename show tr :
  exists evs r,
    upload_to_native_imagestore env sesh endpoint abspath basename show tr
    = (r, (tr ++ evs)%list)
    /\ Forall (native_event sesh show) evs.
Proof. apply native_events_class. Qed.

(** An endpoint that [urlparse] refuses ends the transfer after the first
    file has been opened, before anything is sent. *)
Example native_transfer_refused_endpoint :
  upload_to_native_imagestore (demo_env (fun _ _ => 200%Z) 200 false None)
    {| verify := VerifyTrue; cert := None |} "http://[::1"
    "/home/user/pkg" "pkg" true []
  = (Raise (ValueError "Invalid IPv6 URL"),
     [EvOpen "/home/user/pkg/ApplicationManifest.xml"]).
Proof. reflexivity. Qed.

(** X2.  A native-store transfer that raises has stopped at the call
    that failed, and raises the error of that call: the [ValueError] of
    [relpath] for an empty root, the [ValueError] with which [urlparse]
    refuses the endpoint, the error of the [open] that failed, the error of
    the PUT that got no response, or the [HTTPError] that carries the
    response of the PUT whose status is between 400 and 599.  [open] and
    the PUT are then the last event of the run; nothing is sent, opened or
    printed afterwards. *)
Theorem native_transfer_failure env sesh endpoint abspath basename show tr :
  exists evs r,
    upload_to_native_imagestore env sesh endpoint abspath basename show tr
    = (r, (tr ++ evs)%list)
    /\ forall e, r = Raise e ->
         e = ValueError "no path specified"
         \/ urlparse env endpoint = Raise e
         \/ exists pre last,
              evs = (pre ++ [last])%list
              /\ native_failure env (tr ++ pre) last e.
Proof.
  rewrite upload_to_native_imagestore_unfold. cbv zeta.
  destruct (native_loop_invariant env sesh endpoint abspath basename show
              (Z.of_nat (length (transfer_plan env endpoint abspath basename)))
              (fun tr (_ : Z) evs (r : result Z) =>
                 forall e, r = Raise e ->
                   e = ValueError "no path specified"
                   \/ urlparse env endpoint = Raise e
                   \/ exists pre last,
                        evs = (pre ++ [last])%list
                        /\ native_failure env (tr ++ pre) last e))
    with (walked := os_walk env abspath) (current := 0%Z) (tr := tr)
    as (evs & r & -> & HQ).
  - intros. discriminate.
  - intros tr0 s evs1 s1 evs2 r _ H2 e Hr.
    destruct (H2 e Hr) as [->|[Hparse|(pre & last & -> & Hlast)]];
      [now left | now right; left |].
    right. right. exists (evs1 ++ pre)%list, last.
    rewrite <- !app_assoc in *. auto.
  - intros tr0 s e He. left. now inversion He.
  - intros tr0 s e Hparse e' He. inversion He; subst e'. right. now left.
  - intros tr0 s path e Hopen e' He. inversion He; subst e'. right. right.
    exists [], (EvOpen path). rewrite app_nil_r. auto.
  - intros. discriminate.
  - intros tr0 s url data e Hput e' He. inversion He; subst e'. right. right.
    exists [], (EvPut sesh url data (Raise e)). cbn. auto.
  - intros tr0 s url data response Hput Hstatus e' He. inversion He; subst e'.
    right. right. exists [], (EvPut sesh url data (Ok response)). cbn. auto.
  - intros. discriminate.
  - destruct r as [current|e].
    + exists (evs ++ if show then [EvPrint Stderr "Complete"] else [])%list,
             (Ok tt).
      split.
      * destruct show; [now rewrite app_assoc | now rewrite app_nil_r].
      * intros. discriminate.
    + exists evs, (Raise e). split; [reflexivity|].
      intros e0 He0. inversion He0; subst e0. now apply HQ.
Qed.

Lemma successful_puts_app evs1 evs2 :
  successful_puts (evs1 ++ evs2)
  = (successful_puts evs1 ++ successful_puts evs2)%list.
Proof. unfold successful_puts. now rewrite puts_app, filter_app. Qed.

(** X3.  Whatever the outcome of a native-store transfer, its progress
    lines are numbered [1], [2], ... without a gap against the total of the
    plan, one for every PUT that succeeded, and [Complete] follows exactly
    when the transfer returns; without progress nothing is printed. *)
Theorem native_transfer_progress env sesh endpoint abspath basename show tr :
  let total :=
    Z.of_nat (length (transfer_plan env endpoint abspath basename)) in
  exists evs r paths,
    upload_to_native_imagestore env sesh endpoint abspath basename show tr
    = (r, (tr ++ evs)%list)
    /\ length paths = length (successful_puts evs)
    /\ printed Stderr evs
       = if show
         then (progress_lines 0 total paths
               ++ if is_ok r then ["Complete"] else [])%list
         else [].
Proof.
  intros total. rewrite upload_to_native_imagestore_unfold. cbv zeta.
  fold total.
  destruct (native_loop_invariant env sesh endpoint abspath basename show
              total
              (fun (_ : list event) s evs (r : result Z) =>
                 exists paths,
                   length paths = length (successful_puts evs)
                   /\ printed Stderr evs
                      = (if show then progress_lines s total paths else [])
                   /\ forall s', r = Ok s' ->
                        s' = (s + Z.of_nat (length paths))%Z))
    with (walked := os_walk env abspath) (current := 0%Z) (tr := tr)
    as (evs & r & -> & paths & Hlen & Hlines & Hcount).
  - intros _ s. exists []. repeat split; [now destruct show|].
    intros s' Hs. inversion Hs. cbn. lia.
  - intros _ s evs1 s1 evs2 r (p1 & L1 & P1 & C1) (p2 & L2 & P2 & C2).
    specialize (C1 s1 eq_refl). subst s1.
    exists (p1 ++ p2)%list. split; [|split].
    + rewrite successful_puts_app, !length_app. lia.
    + rewrite printed_app, P1, P2. destruct show; auto.
      now rewrite progress_lines_app.
    + intros s' Hs. rewrite (C2 s' Hs), length_app. lia.
  - intros _ s. exists []. repeat split; [now destruct show|discriminate].
  - intros _ s e _. exists []. repeat split; [now destruct show|discriminate].
  - intros _ s path e _. exists []. repeat split; [now destruct show|discriminate].
  - intros _ s path _. exists []. repeat split; [now destruct show|].
    intros s' Hs. inversion Hs. cbn. lia.
  - intros _ s url data e _. exists []. repeat split; [now destruct show|discriminate].
  - intros _ s url data response _ Hstatus. exists []. split; [|split].
    + unfold successful_puts. cbn. unfold raise_for_status.
      replace (400 <=? status_code response)%Z with true
        by (symmetry; apply Z.leb_le; lia).
      replace (status_code response <? 600)%Z with true
        by (symmetry; apply Z.ltb_lt; lia).
      reflexivity.
    + now destruct show.
    + discriminate.
  - intros _ s url data response path _ Hok. exists [path]. split; [|split].
    + unfold successful_puts. cbn [puts filter pc_res]. rewrite Hok.
      now destruct show.
    + now destruct show.
    + intros s' Hs. inversion Hs. cbn. lia.
  - destruct r as [current|e].
    + exists (evs ++ if show then [EvPrint Stderr "Complete"] else [])%list,
             (Ok tt), paths.
      split; [|split].
      * destruct show; [now rewrite app_assoc | now rewrite app_nil_r].
      * rewrite successful_puts_app, length_app, Hlen.
        destruct show; cbn; lia.
      * rewrite printed_app, Hlines. destruct show; reflexivity.
    + exists evs, (Raise e), paths. repeat split; auto.
      rewrite Hlines. destruct show; auto. cbn. now rewrite app_nil_r.
Qed.

(** ** The steps of a file-share transfer *)

(** One turn of the inner loop of [upload_to_fileshare], case by case. *)
Lemma copy_file_cases env source dest show total root f current tr :
  let dest_path :=
    path_join dest [str_lstrip sep (str_replace source "" root)] in
  let src := path_join root [f] in
  let dst := copy_destination source dest root f in
  let path :=
    normpath (path_join (str_lstrip sep (str_replace source "" root)) [f]) in
  let made := if env_isdir env tr dest_path then [] else [EvMakedirs dest_path] in
  copy_file env source dest show total root f current tr
  = match (if env_isdir env tr dest_path then None
           else env_makedirs env tr dest_path) with
    | Some e => (Raise e, (tr ++ [EvMakedirs dest_path])%list)
    | None =>
        match env_copyfile env (tr ++ made) src dst with
        | Some e => (Raise e, ((tr ++ made) ++ [EvCopyfile src dst])%list)
        | None =>
            (Ok (current + 1)%Z,
             ((tr ++ made)
              ++ EvCopyfile src dst
                 :: if show
                    then [EvPrint Stderr
                            (progress_line (current + 1) total path)]
                    else [])%list)
        end
    end.
Proof.
  cbv zeta.
  unfold copy_file, copy_destination, bind, isdir, makedirs, copyfile, call,
    print_progress, print, emit, ret.
  set (dest_path := path_join dest _).
  destruct (env_isdir env tr dest_path); cbn [negb].
  - rewrite app_nil_r.
    destruct (env_copyfile env tr _ _) as [e|]; cbn [outcome]; auto.
    destruct show; [|reflexivity].
    rewrite format_progress, <- app_assoc. reflexivity.
  - destruct (env_makedirs env tr dest_path) as [e|]; cbn [outcome]; auto.
    destruct (env_copyfile env _ _ _) as [e|]; cbn [outcome]; auto.
    destruct show; [|reflexivity].
    rewrite format_progress, <- !app_assoc. reflexivity.
Qed.

Section FileshareInvariant.

Variable env : Env.
Variables source dest : string.
Variable show : bool.
Variable total : Z.

Variable Q : list event -> Z -> list event -> result Z -> Prop.

Hypothesis Q_ret : forall tr s, Q tr s [] (Ok s).

Hypothesis Q_seq :
  forall tr s evs1 s1 evs2 r,
    Q tr s evs1 (Ok s1) -> Q (tr ++ evs1) s1 evs2 r ->
    Q tr s (evs1 ++ evs2) r.

Hypothesis Q_makedirs_fail :
  forall tr s path e,
    env_isdir env tr path = false -> env_makedirs env tr path = Some e ->
    Q tr s [EvMakedirs path] (Raise e).

Hypothesis Q_makedirs :
  forall tr s path,
    env_isdir env tr path = false -> env_makedirs env tr path = None ->
    Q tr s [EvMakedirs path] (Ok s).

Hypothesis Q_copy_fail :
  forall tr s src dst e,
    env_copyfile env tr src dst = Some e ->
    Q tr s [EvCopyfile src dst] (Raise e).

Hypothesis Q_copy :
  forall tr s src dst path,
    env_copyfile env tr src dst = None ->
    Q tr s
      (EvCopyfile src dst
       :: if show then [EvPrint Stderr (progress_line (s + 1) total path)]
          else [])
      (Ok (s + 1)%Z).

Lemma copy_file_invariant root f current tr :
  exists evs r,
    copy_file env source dest show total root f current tr
    = (r, (tr ++ evs)%list)
    /\ Q tr current evs r.
Proof.
  rewrite copy_file_cases. cbv zeta.
  set (dest_path := path_join dest _).
  destruct (env_isdir env tr dest_path) eqn:Hdir.
  - rewrite app_nil_r.
    destruct (env_copyfile env tr _ _) as [e|] eqn:Hcopy.
    + eexists _, _. split; [reflexivity|]. now apply Q_copy_fail.
    + eexists _, _. split; [reflexivity|]. now apply Q_copy.
  - destruct (env_makedirs env tr dest_path) as [e|] eqn:Hmake.
    + eexists _, _. split; [reflexivity|]. now apply Q_makedirs_fail.
    + destruct (env_copyfile env _ _ _) as [e|] eqn:Hcopy.
      * eexists _, _. split; [rewrite <- app_assoc; reflexivity|].
        apply (Q_seq tr current [EvMakedirs dest_path] current); auto.
      * eexists _, _. split; [rewrite <- app_assoc; reflexivity|].
        apply (Q_seq tr current [EvMakedirs dest_path] current); auto.
Qed.

(** What holds of every step of the transfer holds of its loop. *)
Lemma fileshare_loop_invariant
    (walked : list (string * list string * list string)) current tr :
  exists evs r,
    for_each walked
      (fun entry current_files_count =>
         for_each (snd entry)
           (copy_file env source dest show total (fst (fst entry)))
           current_files_count)
      current tr
    = (r, (tr ++ evs)%list)
    /\ Q tr current evs r.
Proof.
  apply (for_each_invariant Q Q_ret Q_seq). intros entry s tr0.
  apply (for_each_invariant Q Q_ret Q_seq). intros f s0 tr1.
  apply copy_file_invariant.
Qed.

End FileshareInvariant.

Lemma copy_plan_total source dest
    (walked : list (string * list string * list string)) acc :
  fold_left
    (fun total (entry : string * list string * list string) =>
       (total + Z.of_nat (length (snd entry)))%Z)
    walked acc
  = (acc + Z.of_nat
             (length
                (flat_map
                   (fun entry =>
                      map (fun f =>
                             (path_join (fst (fst entry)) [f],
                              copy_destination source dest (fst (fst entry)) f))
                          (snd entry))
                   walked)))%Z.
Proof.
  revert acc. induction walked as [|entry walked IH]; intros acc;
    cbn [fold_left flat_map].
  - cbn. lia.
  - rewrite IH, length_app, length_map. lia.
Qed.

(** [upload_to_fileshare] is its loop, followed by the last line when the
    loop returns and progress is shown. *)
Lemma upload_to_fileshare_unfold env source dest show tr :
  let total := Z.of_nat (length (copy_plan env source dest)) in
  upload_to_fileshare env source dest show tr
  = match for_each (os_walk env source)
            (fun entry current_files_count =>
               for_each (snd entry)
                 (copy_file env source dest show total (fst (fst entry)))
                 current_files_count)
            0%Z tr with
    | (Ok _, tr1) =>
        (Ok tt, if show then (tr1 ++ [EvPrint Stderr "Complete"])%list
                else tr1)
    | (Raise e, tr1) => (Raise e, tr1)
    end.
Proof.
  unfold upload_to_fileshare, copy_plan.
  rewrite (copy_plan_total source dest).
  cbn [Z.add]. unfold bind.
  destruct (for_each _ _ _ tr) as [[current|e] tr1]; auto.
  now destruct show.
Qed.

(** ** What a file-share transfer does and does not do *)

(** The events of a file-share transfer all belong to
    [fileshare_event]. *)
Lemma fileshare_events_class env source dest show tr :
  exists evs r,
    upload_to_fileshare env source dest show tr = (r, (tr ++ evs)%list)
    /\ Forall (fileshare_event show) evs.
Proof.
  rewrite upload_to_fileshare_unfold. cbv zeta.
  destruct (fileshare_loop_invariant env source dest show
              (Z.of_nat (length (copy_plan env source dest)))
              (fun _ _ evs _ => Forall (fileshare_event show) evs))
    with (walked := os_walk env source) (current := 0%Z) (tr := tr)
    as (evs & r & -> & HQ).
  - constructor.
  - intros. now apply Forall_app.
  - repeat constructor.
  - repeat constructor.
  - repeat constructor.
  - intros. destruct show; repeat constructor.
  - destruct r as [current|e].
    + exists (evs ++ if show then [EvPrint Stderr "Complete"] else [])%list,
             (Ok tt).
      split.
      * destruct show; [now rewrite app_assoc | now rewrite app_nil_r].
      * apply Forall_app. split; auto. destruct show; repeat constructor.
    + exists evs, (Raise e). auto.
Qed.

(** X4.  Whatever the outcome, a file-share transfer only makes
    directories, copies files and, when progress is shown, prints to the
    diagnostic stream: it opens no connection, sends no request and writes
    nothing to the primary output; without progress it prints nothing. *)
Theorem fileshare_transfer_events env source dest show tr :
  exists evs r,
    upload_to_fileshare env source dest show tr = (r, (tr ++ evs)%list)
    /\ Forall (fileshare_event show) evs.
Proof. apply fileshare_events_class. Qed.

(** X5.  [os.makedirs] is called only for a destination directory that
    [os.path.isdir] has just found missing, so a directory that is already
    there is never made again. *)
Theorem fileshare_makedirs_only_when_missing env source dest show tr :
  exists evs r,
    upload_to_fileshare env source dest show tr = (r, (tr ++ evs)%list)
    /\ forall pre path post,
         evs = (pre ++ EvMakedirs path :: post)%list ->
         env_isdir env (tr ++ pre) path = false.
Proof.
  rewrite upload_to_fileshare_unfold. cbv zeta.
  destruct (fileshare_loop_invariant env source dest show
              (Z.of_nat (length (copy_plan env source dest)))
              (fun tr (_ : Z) evs (_ : result Z) =>
                 forall pre path post,
                   evs = (pre ++ EvMakedirs path :: post)%list ->
                   env_isdir env (tr ++ pre) path = false))
    with (walked := os_walk env source) (current := 0%Z) (tr := tr)
    as (evs & r & -> & HQ).
  - intros tr0 _ pre path post H. now destruct pre.
  - intros tr0 _ evs1 _ evs2 _ H1 H2 pre path post Heq.
    apply app_eq_app in Heq as [l [[-> Hl]|[-> Hl]]].
    + destruct l as [|ev l]; cbn [app] in Hl.
      * specialize (H2 [] path post (eq_sym Hl)).
        now rewrite !app_nil_r in H2.
      * inversion Hl; subst. eapply H1. reflexivity.
    + rewrite app_assoc. eapply H2. eassumption.
  - intros tr0 _ path e Hdir _ pre p post Heq.
    destruct pre as [|ev [|ev' pre]]; inversion Heq; subst.
    now rewrite app_nil_r.
  - intros tr0 _ path Hdir _ pre p post Heq.
    destruct pre as [|ev [|ev' pre]]; inversion Heq; subst.
    now rewrite app_nil_r.
  - intros tr0 _ src dst e _ pre p post Heq.
    destruct pre as [|ev [|ev' pre]]; inversion Heq.
  - intros tr0 s src dst path _ pre p post Heq.
    destruct show; destruct pre as [|ev [|ev' [|ev'' pre]]]; inversion Heq.
  - assert (Hfinal : forall pre path post,
               (evs ++ if show then [EvPrint Stderr "Complete"] else [])%list
               = (pre ++ EvMakedirs path :: post)%list ->
               env_isdir env (tr ++ pre) path = false).
    { intros pre path post Heq.
      apply app_eq_app in Heq as [l [[-> Hl]|[-> Hl]]].
      - destruct l as [|ev l]; cbn [app] in Hl.
        + destruct show; discriminate.
        + inversion Hl; subst. eapply HQ. reflexivity.
      - destruct show; destruct l as [|ev [|ev' l]]; inversion Hl. }
    destruct r as [current|e].
    + exists (evs ++ if show then [EvPrint Stderr "Complete"] else [])%list,
             (Ok tt).
      split; [|exact Hfinal].
      destruct show; [now rewrite app_assoc | now rewrite app_nil_r].
    + exists evs, (Raise e). auto.
Qed.

(** X6.  A file-share transfer that raises has stopped at its last event,
    the call of [os.makedirs] or of [shutil.copyfile] that failed, and
    raises the error of that call: nothing is copied afterwards and
    nothing that was copied before is touched. *)
Theorem fileshare_transfer_failure env source dest show tr :
  exists evs r,
    upload_to_fileshare env source dest show tr = (r, (tr ++ evs)%list)
    /\ forall e, r = Raise e ->
         exists pre last,
           evs = (pre ++ [last])%list
           /\ fileshare_failure env (tr ++ pre) last e.
Proof.
  rewrite upload_to_fileshare_unfold. cbv zeta.
  destruct (fileshare_loop_invariant env source dest show
              (Z.of_nat (length (copy_plan env source dest)))
              (fun tr (_ : Z) evs (r : result Z) =>
                 forall e, r = Raise e ->
                   exists pre last,
                     evs = (pre ++ [last])%list
                     /\ fileshare_failure env (tr ++ pre) last e))
    with (walked := os_walk env source) (current := 0%Z) (tr := tr)
    as (evs & r & -> & HQ).
  - intros. discriminate.
  - intros tr0 s evs1 s1 evs2 r _ H2 e Hr.
    destruct (H2 e Hr) as (pre & last & -> & Hlast).
    exists (evs1 ++ pre)%list, last. rewrite <- !app_assoc in *. auto.
  - intros tr0 s path e _ Hmake e' He. inversion He; subst e'.
    exists [], (EvMakedirs path). rewrite app_nil_r. auto.
  - intros. discriminate.
  - intros tr0 s src dst e Hcopy e' He. inversion He; subst e'.
    exists [], (EvCopyfile src dst). rewrite app_nil_r. auto.
  - intros. discriminate.
  - destruct r as [current|e].
    + exists (evs ++ if show then [EvPrint Stderr "Complete"] else [])%list,
             (Ok tt).
      split.
      * destruct show; [now rewrite app_assoc | now rewrite app_nil_r].
      * intros. discriminate.
    + exists evs, (Raise e). split; [reflexivity|].
      intros e0 He0. inversion He0; subst e0. now apply HQ.
Qed.

(** X7.  Whatever the outcome of a file-share transfer, its progress lines
    are numbered [1], [2], ... without a gap against the number of files
    found by the first walk, at most one per copy, and [Complete] follows
    exactly when the transfer returns, in which case there is one line per
    copy; without progress nothing is printed. *)
Theorem fileshare_transfer_progress env source dest show tr :
  let total := Z.of_nat (length (copy_plan env source dest)) in
  exists evs r paths,
    upload_to_fileshare env source dest show tr = (r, (tr ++ evs)%list)
    /\ length paths <= length (copies evs)
    /\ (is_ok r = true -> length paths = length (copies evs))
    /\ printed Stderr evs
       = if show
         then (progress_lines 0 total paths
               ++ if is_ok r then ["Complete"] else [])%list
         else [].
Proof.
  intros total. rewrite upload_to_fileshare_unfold. cbv zeta. fold total.
  destruct (fileshare_loop_invariant env source dest show total
              (fun (_ : list event) s evs (r : result Z) =>
                 exists paths,
                   length paths <= length (copies evs)
                   /\ printed Stderr evs
                      = (if show then progress_lines s total paths else [])
                   /\ forall s', r = Ok s' ->
                        s' = (s + Z.of_nat (length paths))%Z
                        /\ length paths = length (copies evs)))
    with (walked := os_walk env source) (current := 0%Z) (tr := tr)
    as (evs & r & -> & paths & Hle & Hlines & Hcount).
  - intros _ s. exists []. split; [cbn; lia|]. split; [now destruct show|].
    intros s' Hs. inversion Hs. cbn. split; lia.
  - intros _ s evs1 s1 evs2 r (p1 & L1 & P1 & C1) (p2 & L2 & P2 & C2).
    destruct (C1 s1 eq_refl) as [-> E1].
    exists (p1 ++ p2)%list. split; [|split].
    + rewrite copies_app, !length_app. lia.
    + rewrite printed_app, P1, P2. destruct show; auto.
      now rewrite progress_lines_app.
    + intros s' Hs. destruct (C2 s' Hs) as [-> E2].
      rewrite copies_app, !length_app. lia.
  - intros _ s path e _ _. exists []. split; [cbn; lia|].
    split; [now destruct show | discriminate].
  - intros _ s path _ _. exists []. split; [cbn; lia|].
    split; [now destruct show|].
    intros s' Hs. inversion Hs. cbn. split; lia.
  - intros _ s src dst e _. exists []. split; [cbn; lia|].
    split; [now destruct show | discriminate].
  - intros _ s src dst path _. exists [path].
    split; [destruct show; cbn; lia|]. split; [now destruct show|].
    intros s' Hs. inversion Hs. destruct show; cbn; split; lia.
  - destruct r as [current|e].
    + destruct (Hcount current eq_refl) as [_ Heq].
      exists (evs ++ if show then [EvPrint Stderr "Complete"] else [])%list,
             (Ok tt), paths.
      assert (Hc : copies (evs ++ if show then [EvPrint Stderr "Complete"]
                                  else [])
                   = copies evs).
      { rewrite copies_app. destruct show; cbn; now rewrite app_nil_r. }
      repeat split.
      * destruct show; [now rewrite app_assoc | now rewrite app_nil_r].
      * rewrite Hc. lia.
      * now rewrite Hc.
      * rewrite printed_app, Hlines. destruct show; reflexivity.
    + exists evs, (Raise e), paths. repeat split; auto; try discriminate.
      rewrite Hlines. destruct show; auto. cbn. now rewrite app_nil_r.
Qed.

Lemma upload_to_fileshare_copies_witness :
  let env := demo_env (fun _ _ => 200%Z) 200 false None in
  let run := upload_to_fileshare env "/home/user/pkg" "/mnt/share/pkg" true [] in
  env_tree env "/home/user/pkg" = Some demo_tree
  /\ fst run = Ok tt
  /\ copies (snd run) = copy_plan env "/home/user/pkg" "/mnt/share/pkg"
  /\ length (copies (snd run)) = 3.
Proof.
  intros env run.
  assert (Ht : env_tree env "/home/user/pkg" = Some demo_tree) by reflexivity.
  assert (Hrun : run = (Ok tt, snd run)) by (vm_compute; reflexivity).
  split; [exact Ht|]. split; [vm_compute; reflexivity|].
  destruct (upload_to_fileshare_copies env "/home/user/pkg" "/mnt/share/pkg"
              true [] (snd run) demo_tree Ht Hrun)
    as (evs & Hevs & Hplan & Hlen).
  simpl app in Hevs. subst evs. split; [exact Hplan | exact Hlen].
Defined.

(** ** Where a file is copied to *)

Lemma replace_go_skip old new s skip :
  replace_go old new s skip = replace_go old new (str_drop skip s) 0.
Proof.
  revert s. induction skip as [|k IH]; intros s.
  - now destruct s.
  - destruct s as [|c s]; [reflexivity|]. cbn [replace_go str_drop]. apply IH.
Qed.

Lemma startswith_app p s : startswith p (p ++ s) = true.
Proof.
  unfold startswith. induction p as [|c p IH]; cbn [String.append String.prefix].
  - now destruct s.
  - destruct (ascii_dec c c); [assumption | congruence].
Qed.

Lemma str_drop_app p s : str_drop (String.length p) (p ++ s) = s.
Proof. induction p as [|c p IH]; [reflexivity | exact IH]. Qed.

(** An occurrence at the start is removed and the scan goes on behind
    it. *)
Lemma str_replace_prefix old s :
  old <> "" -> str_replace old "" (old ++ s) = str_replace old "" s.
Proof.
  intros Hold. unfold str_replace. rewrite (str_eqb_nonempty old Hold).
  destruct old as [|c old]; [congruence|].
  cbn [String.append replace_go].
  change (String c (old ++ s)) with (String c old ++ s).
  rewrite startswith_app. cbn [String.append String.length Nat.sub].
  rewrite Nat.sub_0_r, replace_go_skip. now rewrite str_drop_app.
Qed.

(** Without an occurrence nothing is replaced. *)
Lemma str_replace_without old new s :
  old <> "" -> str_contains old s = false -> str_replace old new s = s.
Proof.
  intros Hold. unfold str_replace. rewrite (str_eqb_nonempty old Hold).
  induction s as [|c s IH]; cbn [str_contains replace_go]; intros Hc.
  - reflexivity.
  - apply orb_false_elim in Hc as [Hstart Hc]. now rewrite Hstart, IH.
Qed.

Lemma abs_path_app comps segs :
  comps <> [] ->
  abs_path (comps ++ segs)
  = abs_path comps ++ match segs with
                      | [] => ""
                      | _ :: _ => "/" ++ str_join "/" segs
                      end.
Proof.
  intros Hcomps. unfold abs_path. destruct segs as [|a p].
  - now rewrite app_nil_r, str_app_nil_r.
  - rewrite str_join_app by (auto; discriminate). reflexivity.
Qed.

Lemma lstrip_slash_plain s : plain s -> str_lstrip sep ("/" ++ s) = s.
Proof.
  intros (Hne & Hstart & _). destruct s as [|c s]; [congruence|].
  rewrite startswith_slash_cons in Hstart.
  unfold sep. cbn [String.append str_lstrip char_in Ascii.eqb Bool.eqb orb].
  now rewrite Hstart.
Qed.

(** X8.  A file of the directory reached by the names [segs] below the
    source is copied to the same names below the destination, provided the
    text of the source path does not occur again inside the relative part
    of the root (it is removed wherever it occurs). *)
Theorem copy_destination_relative comps segs f dest :
  comps <> [] ->
  forallb valid_name comps = true ->
  forallb valid_name segs = true ->
  valid_name f = true ->
  dest <> "" -> ends_with_char "/" dest = false ->
  str_contains (abs_path comps)
    (match segs with
     | [] => ""
     | _ :: _ => "/" ++ str_join "/" segs
     end) = false ->
  copy_destination (abs_path comps) dest (abs_path (comps ++ segs)) f
  = dest ++ "/" ++ str_join "/" (segs ++ [f]).
Proof.
  intros Hne Hcomps Hsegs Hf Hdest Hend Hagain.
  assert (Hsource : abs_path comps <> "") by discriminate.
  unfold copy_destination.
  rewrite abs_path_app, str_replace_prefix, str_replace_without by assumption.
  pose proof (valid_name_plain f Hf) as (_ & Hfs & _).
  destruct segs as [|a p].
  - cbn [str_lstrip path_join fold_left app str_join String.concat].
    unfold join2 at 2. cbn [startswith String.prefix].
    rewrite Hend, (str_eqb_nonempty dest Hdest). cbn [orb].
    unfold sep. cbn iota. cbn [String.append].
    unfold join2, sep. rewrite Hfs.
    assert (Hslash : ends_with_char "/" (dest ++ "/") = true)
      by (rewrite ends_with_char_app; [reflexivity | discriminate]).
    rewrite Hslash, orb_true_r. now rewrite str_app_assoc.
  - pose proof (plain_join a p Hsegs) as Hplain.
    rewrite lstrip_slash_plain by assumption.
    destruct Hplain as (Hjne & Hjs & Hje).
    cbn [path_join fold_left].
    rewrite (join2_sep dest) by assumption.
    rewrite join2_sep.
    + rewrite (str_join_app (a :: p) [f]) by discriminate.
      now rewrite !str_app_assoc.
    + destruct dest; [congruence | discriminate].
    + rewrite ends_with_char_app; [|discriminate].
      rewrite ends_with_char_app; assumption.
    + assumption.
Qed.

Lemma copy_destination_relative_witness :
  copy_destination "/home/user/pkg" "/mnt/share/pkg" "/home/user/pkg/Code"
    "run.sh"
  = "/mnt/share/pkg/Code/run.sh".
Proof.
  apply (copy_destination_relative ["home"; "user"; "pkg"] ["Code"] "run.sh"
           "/mnt/share/pkg");
    solve [reflexivity | discriminate].
Defined.

(** * Further properties of [upload] *)

(** The session that [upload] sets up from the configuration. *)
Lemma upload_cases env path imagestore_string show tr :
  let abspath := abspath (env_cwd env) path in
  let sesh :=
    {| verify :=
         if no_verify_setting env then VerifyFalse
         else match ca_cert_info env with
              | Some bundle => if bundle =? "" then VerifyTrue
                               else VerifyBundle bundle
              | None => VerifyTrue
              end;
       cert := cert_info env |} in
  upload env path imagestore_string show tr
  = if negb (env_isdir env tr abspath) then
      (Raise (ValueError ("Invalid path to application directory: "
                          ++ abspath)), tr)
    else if no_verify_setting env && truthy (ca_cert_info env) then
      (Raise (CLIError "Cannot specify both CA cert info and no verify"), tr)
    else if str_contains "file:" imagestore_string then
      match path_from_imagestore_string (Some imagestore_string) with
      | Ok (PyStr dest_path) =>
          upload_to_fileshare env abspath
            (path_join dest_path [basename abspath]) show tr
      | Ok (PyBool _) => (Raise (TypeError "expected str, not bool"), tr)
      | Raise e => (Raise e, tr)
      end
    else if imagestore_string =? "fabric:ImageStore" then
      upload_to_native_imagestore env sesh (client_endpoint env) abspath
        (basename abspath) show tr
    else (Raise (CLIError "Unsupported image store connection string"), tr).
Proof.
  cbv zeta. unfold upload, validate_app_path, bind, isdir.
  destruct (env_isdir env tr (abspath (env_cwd env) path)); cbn [negb];
    [|reflexivity].
  unfold ret.
  destruct (no_verify_setting env && truthy (ca_cert_info env)) eqn:Hconf;
    [reflexivity|].
  destruct (str_contains "file:" imagestore_string).
  - unfold lift.
    destruct (path_from_imagestore_string (Some imagestore_string))
      as [[dest_path|b]|e]; reflexivity.
  - destruct (imagestore_string =? "fabric:ImageStore"); [|reflexivity].
    do 2 f_equal. destruct (no_verify_setting env); auto.
    destruct (ca_cert_info env) as [bundle|]; auto.
    cbn [truthy]. now destruct (bundle =? "").
Qed.

Lemma native_event_stdout sesh show evs :
  Forall (native_event sesh show) evs -> printed Stdout evs = [].
Proof.
  induction 1 as [|ev evs Hev _ IH]; [reflexivity|].
  destruct ev as [[]| | | | |]; cbn in *; auto; contradiction.
Qed.

Lemma fileshare_event_stdout show evs :
  Forall (fileshare_event show) evs -> printed Stdout evs = [].
Proof.
  induction 1 as [|ev evs Hev _ IH]; [reflexivity|].
  destruct ev as [[]| | | | |]; cbn in *; auto; contradiction.
Qed.

Lemma native_event_quiet sesh evs :
  Forall (native_event sesh false) evs -> printed Stderr evs = [].
Proof.
  induction 1 as [|ev evs Hev _ IH]; [reflexivity|].
  destruct ev as [[]| | | | |]; cbn in *; auto; discriminate || contradiction.
Qed.

Lemma fileshare_event_quiet evs :
  Forall (fileshare_event false) evs -> printed Stderr evs = [].
Proof.
  induction 1 as [|ev evs Hev _ IH]; [reflexivity|].
  destruct ev as [[]| | | | |]; cbn in *; auto; discriminate || contradiction.
Qed.

(** X9.  No call of [upload], whatever its arguments, its configuration
    and its outcome, writes to the primary output stream; and with
    [show_progress] false it prints nothing at all. *)
Theorem upload_output env path imagestore_string show tr :
  exists evs r,
    upload env path imagestore_string show tr = (r, (tr ++ evs)%list)
    /\ printed Stdout evs = []
    /\ (show = false -> printed Stderr evs = []).
Proof.
  rewrite upload_cases. cbv zeta.
  assert (Hnone : forall r : result unit,
             exists evs r',
               (r, tr) = (r', (tr ++ evs)%list)
               /\ printed Stdout evs = []
               /\ (show = false -> printed Stderr evs = [])).
  { intros r. exists [], r. rewrite app_nil_r. auto. }
  destruct (negb _); [apply Hnone|].
  destruct (_ && _); [apply Hnone|].
  destruct (str_contains "file:" imagestore_string).
  - destruct (path_from_imagestore_string (Some imagestore_string))
      as [[dest_path|b]|e]; try apply Hnone.
    destruct (fileshare_events_class env (abspath (env_cwd env) path)
                (path_join dest_path [basename (abspath (env_cwd env) path)])
                show tr) as (evs & r & -> & Hevs).
    exists evs, r. split; [reflexivity|]. split.
    + now apply fileshare_event_stdout with (show := show).
    + intros ->. now apply fileshare_event_quiet.
  - destruct (imagestore_string =? "fabric:ImageStore"); [|apply Hnone].
    match goal with
    | |- context [upload_to_native_imagestore env ?s ?ep ?a ?b show tr] =>
        destruct (native_events_class env s ep a b show tr)
          as (evs & r & -> & Hevs);
        exists evs, r; split; [reflexivity|]; split;
          [now apply native_event_stdout with (sesh := s) (show := show)
          |intros ->; now apply native_event_quiet with (sesh := s)]
    end.
Qed.

(** X10.  Every PUT of an [upload] goes through the session set up from
    the configuration: verification is off exactly when the no-verify
    setting is on, the CA bundle is the configured one when there is one,
    the default trust is used otherwise, and the client certificate is the
    configured one.  A connection string with [file:] leads to no PUT and
    no [open] at all, and the native store to no copy and no
    [os.makedirs]. *)
Theorem upload_session env path imagestore_string show tr :
  exists evs r,
    upload env path imagestore_string show tr = (r, (tr ++ evs)%list)
    /\ (forall sesh url data res,
          In (EvPut sesh url data res) evs ->
          str_contains "file:" imagestore_string = false
          /\ cert sesh = cert_info env
          /\ verify sesh
             = if no_verify_setting env then VerifyFalse
               else match ca_cert_info env with
                    | Some bundle => if bundle =? "" then VerifyTrue
                                     else VerifyBundle bundle
                    | None => VerifyTrue
                    end)
    /\ (forall opened, In (EvOpen opened) evs ->
          str_contains "file:" imagestore_string = false)
    /\ (forall src dst, In (EvCopyfile src dst) evs ->
          str_contains "file:" imagestore_string = true)
    /\ (forall made, In (EvMakedirs made) evs ->
          str_contains "file:" imagestore_string = true).
Proof.
  rewrite upload_cases. cbv zeta.
  set (sesh0 := {| verify := _; cert := cert_info env |}).
  assert (Hnone : forall r : result unit,
             exists evs r',
               (r, tr) = (r', (tr ++ evs)%list)
               /\ (forall sesh url data res,
                     In (EvPut sesh url data res) evs ->
                     str_contains "file:" imagestore_string = false
                     /\ cert sesh = cert_info env
                     /\ verify sesh = verify sesh0)
               /\ (forall opened, In (EvOpen opened) evs ->
                     str_contains "file:" imagestore_string = false)
               /\ (forall src dst, In (EvCopyfile src dst) evs ->
                     str_contains "file:" imagestore_string = true)
               /\ (forall made, In (EvMakedirs made) evs ->
                     str_contains "file:" imagestore_string = true)).
  { intros r. exists [], r. rewrite app_nil_r.
    repeat split; intros; contradiction. }
  destruct (negb _); [apply Hnone|].
  destruct (_ && _); [apply Hnone|].
  destruct (str_contains "file:" imagestore_string).
  - destruct (path_from_imagestore_string (Some imagestore_string))
      as [[dest_path|b]|e]; try apply Hnone.
    destruct (fileshare_events_class env (abspath (env_cwd env) path)
                (path_join dest_path [basename (abspath (env_cwd env) path)])
                show tr) as (evs & r & -> & Hevs).
    exists evs, r. split; [reflexivity|].
    rewrite Forall_forall in Hevs.
    repeat split; auto; intros; exfalso;
      match goal with
      | H : In _ evs |- _ => apply Hevs in H; exact H
      end.
  - destruct (imagestore_string =? "fabric:ImageStore"); [|apply Hnone].
    destruct (native_events_class env sesh0 (client_endpoint env)
                (abspath (env_cwd env) path)
                (basename (abspath (env_cwd env) path)) show tr)
      as (evs & r & -> & Hevs).
    exists evs, r. split; [reflexivity|].
    rewrite Forall_forall in Hevs.
    repeat split; auto;
      try (intros; exfalso;
           match goal with
           | H : In _ evs |- _ => apply Hevs in H; exact H
           end).
    + apply Hevs in H. cbn in H. now subst sesh.
    + apply Hevs in H. cbn in H. now subst sesh.
Qed.

(** ** The package directory and its name *)

Lemma basename_no_slash d : no_slash d -> basename d = d.
Proof.
  unfold no_slash. intros Hd. destruct d as [|c d]; [reflexivity|].
  cbn [basename]. unfold sep. now rewrite Hd.
Qed.

Lemma basename_app s d : no_slash d -> basename (s ++ "/" ++ d) = d.
Proof.
  intros Hd. induction s as [|c s IH].
  - cbn [String.append basename]. unfold sep.
    rewrite contains_slash_cons. cbn [Ascii.eqb Bool.eqb orb].
    now apply basename_no_slash.
  - cbn [String.append basename]. unfold sep.
    change (String c (s ++ String "/" d)) with (String c s ++ "/" ++ d).
    rewrite contains_slash_app. cbn [String.append].
    rewrite (contains_slash_cons "/" d). cbn [Ascii.eqb Bool.eqb orb].
    rewrite orb_true_r. exact IH.
Qed.

(** The base name of a normalized absolute path is its last component. *)
Lemma basename_abs_path comps d :
  valid_name d = true -> basename (abs_path (comps ++ [d])) = d.
Proof.
  intros Hd. apply valid_name_spec in Hd as (_ & _ & _ & Hd).
  unfold abs_path. destruct comps as [|c comps].
  - cbn [app str_join String.concat]. now apply (basename_app "" d).
  - rewrite (str_join_app (c :: comps) [d]) by discriminate.
    cbn [str_join String.concat].
    rewrite <- str_app_assoc. now apply basename_app.
Qed.

(** A relative path of names is resolved below the working directory. *)
Lemma abspath_relative cwd_comps names :
  forallb valid_name cwd_comps = true ->
  forallb valid_name names = true -> names <> [] ->
  abspath (abs_path cwd_comps) (str_join "/" names)
  = abs_path (cwd_comps ++ names).
Proof.
  intros Hcwd Hnames Hne. destruct names as [|a p]; [congruence|].
  destruct (plain_join a p Hnames) as (Hjne & Hjs & Hje).
  unfold abspath, isabs, sep. rewrite Hjs.
  assert (Hjoin : join2 (abs_path cwd_comps) (str_join "/" (a :: p))
                  = abs_path (cwd_comps ++ a :: p)).
  { destruct cwd_comps as [|c cs].
    - unfold join2, sep. now rewrite Hjs.
    - rewrite abs_path_app by discriminate.
      apply join2_sep; auto; [discriminate|].
      destruct (plain_join c cs Hcwd) as (Hcne & _ & He).
      unfold abs_path. now rewrite ends_with_char_app. }
  rewrite Hjoin. apply normpath_abs_path.
  now rewrite forallb_app, Hcwd, Hnames.
Qed.

(** X11.  [upload] to the native store of a package given by a relative
    path of names resolves the path below the working directory,
    validates that directory, and transfers it under the name of its last
    component. *)
Theorem upload_package_name env cwd_comps names name show tr :
  env_cwd env = abs_path cwd_comps ->
  forallb valid_name cwd_comps = true ->
  forallb valid_name (names ++ [name]) = true ->
  env_isdir env tr (abs_path (cwd_comps ++ names ++ [name])) = true ->
  no_verify_setting env && truthy (ca_cert_info env) = false ->
  upload env (str_join "/" (names ++ [name])) "fabric:ImageStore" show tr
  = upload_to_native_imagestore env
      {| verify :=
           if no_verify_setting env then VerifyFalse
           else match ca_cert_info env with
                | Some bundle => if bundle =? "" then VerifyTrue
                                 else VerifyBundle bundle
                | None => VerifyTrue
                end;
         cert := cert_info env |}
      (client_endpoint env) (abs_path (cwd_comps ++ names ++ [name])) name
      show tr.
Proof.
  intros Hcwd Hvalid Hnames Hdir Hconf.
  assert (Habs : abspath (env_cwd env) (str_join "/" (names ++ [name]))
                 = abs_path (cwd_comps ++ names ++ [name])).
  { rewrite Hcwd. apply abspath_relative; auto. now destruct names. }
  rewrite upload_native_store by (rewrite ?Habs; assumption).
  rewrite Habs, app_assoc, basename_abs_path; [reflexivity|].
  rewrite forallb_app in Hnames. apply andb_prop in Hnames as [_ Hname].
  cbn [forallb] in Hname. now rewrite andb_true_r in Hname.
Qed.

Lemma upload_package_name_witness :
  let env := demo_env (fun _ _ => 200%Z) 200 false None in
  upload env "pkg" "fabric:ImageStore" true []
  = upload_to_native_imagestore env {| verify := VerifyTrue; cert := None |}
      "http://localhost:19080" "/home/user/pkg" "pkg" true [].
Proof.
  intros env.
  apply (upload_package_name env ["home"; "user"] [] "pkg" true []);
    reflexivity.
Defined.

(** * Further properties of provisioning *)

(** ** Dictionaries *)

Lemma dict_get_set k v d k' :
  dict_get k' (dict_set k v d) = if k =? k' then Some v else dict_get k' d.
Proof.
  induction d as [|[k0 v0] d IH]; cbn [dict_set dict_get].
  - reflexivity.
  - destruct (k0 =? k) eqn:H0; cbn [dict_get].
    + apply String.eqb_eq in H0. subst k0.
      now destruct (k =? k').
    + rewrite IH. destruct (k0 =? k') eqn:H1; auto.
      apply String.eqb_eq in H1. subst k0. now rewrite String.eqb_sym, H0.
Qed.

(** After [d.update(other)], a key of [other] has the value of [other],
    and any other key has the value it had. *)
Lemma dict_get_update d other k :
  NoDup (map fst other) ->
  dict_get k (dict_update d other)
  = match dict_get k other with
    | Some v => Some v
    | None => dict_get k d
    end.
Proof.
  unfold dict_update. revert d.
  induction other as [|[k0 v0] other IH]; intros d Hnodup;
    cbn [fold_left dict_get fst snd map] in *.
  - reflexivity.
  - inversion Hnodup as [|? ? Hnotin Hrest]; subst.
    rewrite IH by assumption. rewrite dict_get_set.
    destruct (k0 =? k) eqn:H0; [|reflexivity].
    apply String.eqb_eq in H0. subst k0.
    destruct (dict_get k other) as [v|] eqn:Hget; [|reflexivity].
    exfalso. apply Hnotin. clear -Hget.
    induction other as [|[k1 v1] other IH]; cbn [dict_get map fst] in *;
      [discriminate|].
    destruct (k1 =? k) eqn:H1.
    + left. now apply String.eqb_eq.
    + right. auto.
Qed.

(** ** The call, case by case *)

Lemma provision_cases env provision_kind async application_type_build_path
    application_package_download_uri application_type_name
    application_type_version timeout custom_headers raw tr :
  provision_application_type env provision_kind async
    application_type_build_path application_package_download_uri
    application_type_name application_type_version timeout custom_headers
    raw tr
  = match provision_description provision_kind async
            application_type_build_path application_package_download_uri
            application_type_name application_type_version with
    | Raise e => (Raise e, tr)
    | Ok description =>
        match (match timeout with
               | Some t =>
                   match serialize_timeout t with
                   | Ok v => Ok [("api-version", "6.1"); ("timeout", v)]
                   | Raise e => Raise e
                   end
               | None => Ok [("api-version", "6.1")]
               end) with
        | Raise e => (Raise e, tr)
        | Ok query_parameters =>
            let request :=
              {| req_url := "/ApplicationTypes/$/Provision";
                 req_query := query_parameters;
                 req_headers :=
                   match custom_headers with
                   | Some (h :: hs) =>
                       dict_update
                         [("Content-Type", "application/json; charset=utf-8")]
                         (h :: hs)
                   | _ => [("Content-Type", "application/json; charset=utf-8")]
                   end;
                 req_body := description;
                 req_body_type :=
                   if py_eq provision_kind "ImageStorePath"
                   then "ProvisionApplicationTypeDescription"
                   else "ExternalStoreProvisionApplicationTypeDescription" |} in
            match env_send env tr request with
            | Raise e => (Raise e, (tr ++ [EvSend request (Raise e)])%list)
            | Ok response =>
                (if negb (provision_accepts response)
                 then Raise (FabricErrorException response)
                 else if raw then Raise (NameError "ClientRawResponse")
                      else Ok tt,
                 (tr ++ [EvSend request (Ok response)])%list)
            end
        end
    end.
Proof.
  unfold provision_application_type.
  unfold bind at 1. unfold lift at 1.
  destruct (provision_description _ _ _ _ _ _) as [description|e];
    [|reflexivity].
  unfold bind at 1.
  destruct timeout as [t|].
  - unfold bind at 1. unfold lift at 1.
    destruct (serialize_timeout t) as [v|e]; [|reflexivity].
    unfold ret at 1. cbv zeta. unfold bind, send, call.
    cbn [dict_set String.eqb Ascii.eqb Bool.eqb].
    destruct (env_send env tr _) as [response|e]; [|reflexivity].
    unfold provision_accepts. destruct (negb _); [reflexivity|].
    now destruct raw.
  - unfold ret at 1. cbv zeta. unfold bind, send, call.
    cbn [dict_set].
    destruct (env_send env tr _) as [response|e]; [|reflexivity].
    unfold provision_accepts. destruct (negb _); [reflexivity|].
    now destruct raw.
Qed.

Lemma serialize_timeout_cases t :
  (serialize_timeout t = Ok (str_of_int t) /\ (1 <= t <= 4294967295)%Z)
  \/ (exists rule, serialize_timeout t = Raise (ValidationError rule "timeout")
                   /\ ~ (1 <= t <= 4294967295)%Z).
Proof.
  unfold serialize_timeout.
  destruct (4294967295 <? t)%Z eqn:H1.
  - right. exists "maximum". apply Z.ltb_lt in H1. split; [reflexivity | lia].
  - destruct (t <? 1)%Z eqn:H2.
    + right. exists "minimum". apply Z.ltb_lt in H2.
      split; [reflexivity | lia].
    + left. apply Z.ltb_ge in H1, H2. split; [reflexivity | lia].
Qed.

(** X12.  [provision_application_type] sends at most one request, and it
    sends it only when the description has been built and the timeout, if
    there is one, lies between 1 and 4294967295: a timeout outside raises
    the validation error before anything is sent.  The request goes to
    [/ApplicationTypes/$/Provision] with api-version 6.1, with the timeout
    in decimal when there is one, and with the description as its body. *)
Theorem provision_sends_at_most_once
    env provision_kind async application_type_build_path
    application_package_download_uri application_type_name
    application_type_version timeout custom_headers raw tr :
  exists evs r,
    provision_application_type env provision_kind async
      application_type_build_path application_package_download_uri
      application_type_name application_type_version timeout custom_headers
      raw tr
    = (r, (tr ++ evs)%list)
    /\ ((evs = [] /\ exists e, r = Raise e)
        \/ exists request res,
             evs = [EvSend request res]
             /\ provision_description provision_kind async
                  application_type_build_path
                  application_package_download_uri application_type_name
                  application_type_version
                = Ok (req_body request)
             /\ req_url request = "/ApplicationTypes/$/Provision"
             /\ dict_get "api-version" (req_query request) = Some "6.1"
             /\ dict_get "timeout" (req_query request)
                = option_map str_of_int timeout
             /\ forall t, timeout = Some t -> (1 <= t <= 4294967295)%Z).
Proof.
  rewrite provision_cases.
  destruct (provision_description _ _ _ _ _ _) as [description|e].
  2:{ exists [], (Raise e). rewrite app_nil_r. split; [reflexivity|].
      left. eauto. }
  destruct timeout as [t|].
  - destruct (serialize_timeout_cases t) as [[-> Ht]|(rule & -> & Ht)].
    + cbv zeta.
      destruct (env_send env tr _) as [response|e];
        eexists _, _; (split; [reflexivity|]); right;
        eexists _, _; (split; [reflexivity|]); cbn;
        repeat split; auto;
        match goal with
        | H : Some _ = Some _ |- _ => inversion H; subst; lia
        end.
    + exists [], (Raise (ValidationError rule "timeout")).
      rewrite app_nil_r. split; [reflexivity|]. left. eauto.
  - cbv zeta.
    destruct (env_send env tr _) as [response|e];
      eexists _, _; (split; [reflexivity|]); right;
      eexists _, _; (split; [reflexivity|]); cbn;
      repeat split; auto; try discriminate.
Qed.

(** X13.  With [raw] false, a provisioning call that got a response
    returns exactly when the status is 200 or 202, and raises
    [FabricErrorException] with that response for every other status; a
    call whose request got no response raises the error of the request. *)
Theorem provision_status_check
    env provision_kind async application_type_build_path
    application_package_download_uri application_type_name
    application_type_version timeout custom_headers tr :
  exists evs r,
    provision_application_type env provision_kind async
      application_type_build_path application_package_download_uri
      application_type_name application_type_version timeout custom_headers
      false tr
    = (r, (tr ++ evs)%list)
    /\ (forall request response,
          In (EvSend request (Ok response)) evs ->
          r = if (status_code response =? 200)%Z
                 || (status_code response =? 202)%Z
              then Ok tt
              else Raise (FabricErrorException response))
    /\ (forall request e,
          In (EvSend request (Raise e)) evs -> r = Raise e).
Proof.
  rewrite provision_cases.
  assert (Hnone : forall r : result unit,
             exists evs r',
               (r, tr) = (r', (tr ++ evs)%list)
               /\ (forall request response,
                     In (EvSend request (Ok response)) evs ->
                     r' = if (status_code response =? 200)%Z
                             || (status_code response =? 202)%Z
                          then Ok tt
                          else Raise (FabricErrorException response))
               /\ (forall request e,
                     In (EvSend request (Raise e)) evs -> r' = Raise e)).
  { intros r. exists [], r. rewrite app_nil_r.
    repeat split; intros; contradiction. }
  destruct (provision_description _ _ _ _ _ _) as [description|e];
    [|apply Hnone].
  destruct (match timeout with Some _ => _ | None => _ end) as [query|e];
    [|apply Hnone].
  cbv zeta. destruct (env_send env tr _) as [response|e].
  - eexists _, _. split; [reflexivity|]. split.
    + intros request response' [Heq|[]]. inversion Heq; subst.
      unfold provision_accepts. now destruct (_ || _).
    + intros request e [Heq|[]]. discriminate.
  - eexists _, _. split; [reflexivity|]. split.
    + intros request response' [Heq|[]]. discriminate.
    + intros request e' [Heq|[]]. now inversion Heq.
Qed.

(** X14.  The request carries the custom headers on top of the content
    type: a header given in [custom_headers] has the given value, also
    when it is [Content-Type], and [Content-Type] is
    [application/json; charset=utf-8] when it is not given. *)
Theorem provision_headers
    env provision_kind async application_type_build_path
    application_package_download_uri application_type_name
    application_type_version timeout custom raw tr r tr' request res :
  NoDup (map fst custom) ->
  provision_application_type env provision_kind async
    application_type_build_path application_package_download_uri
    application_type_name application_type_version timeout (Some custom)
    raw tr
  = (r, tr') ->
  In (EvSend request res) tr' -> ~ In (EvSend request res) tr ->
  forall k,
    dict_get k (req_headers request)
    = match dict_get k custom with
      | Some v => Some v
      | None => if k =? "Content-Type"
                then Some "application/json; charset=utf-8"
                else None
      end.
Proof.
  intros Hnodup Hrun Hin Hnew k. rewrite provision_cases in Hrun.
  assert (Hheaders :
            dict_get k
              (match custom with
               | h :: hs =>
                   dict_update
                     [("Content-Type", "application/json; charset=utf-8")]
                     (h :: hs)
               | [] => [("Content-Type", "application/json; charset=utf-8")]
               end)
            = match dict_get k custom with
              | Some v => Some v
              | None => if k =? "Content-Type"
                        then Some "application/json; charset=utf-8"
                        else None
              end).
  { destruct custom as [|h hs].
    - cbn [dict_get]. now rewrite String.eqb_sym.
    - rewrite dict_get_update by assumption.
      destruct (dict_get k (h :: hs)); auto.
      cbn [dict_get]. now rewrite String.eqb_sym. }
  destruct (provision_description _ _ _ _ _ _) as [description|e].
  2:{ inversion Hrun; subst. contradiction. }
  destruct (match timeout with Some _ => _ | None => _ end) as [query|e].
  2:{ inversion Hrun; subst. contradiction. }
  cbv zeta in Hrun.
  destruct (env_send env tr _) as [response|e]; inversion Hrun; subst;
    apply in_app_or in Hin as [Hin|[Hin|[]]]; try contradiction;
    inversion Hin; subst; exact Hheaders.
Qed.

Lemma provision_headers_witness :
  let env := demo_env (fun _ _ => 200%Z) 202 false None in
  let custom := [("Content-Type", "text/json"); ("X-Trace", "1")] in
  let run :=
    provision_application_type env (Some "ImageStorePath") "true"
      (Some "pkg") None None None (Some 60%Z) (Some custom) false [] in
  NoDup (map fst custom)
  /\ fst run = Ok tt
  /\ forall request res,
       In (EvSend request res) (snd run) ->
       dict_get "Content-Type" (req_headers request) = Some "text/json"
       /\ dict_get "X-Trace" (req_headers request) = Some "1"
       /\ dict_get "Accept" (req_headers request) = None.
Proof.
  intros env custom run.
  assert (Hnodup : NoDup (map fst custom)).
  { repeat constructor; cbn; intuition discriminate. }
  assert (Hrun : run = (fst run, snd run)) by (vm_compute; reflexivity).
  split; [exact Hnodup|]. split; [vm_compute; reflexivity|].
  intros request res Hin.
  pose proof (provision_headers env (Some "ImageStorePath") "true"
                (Some "pkg") None None None (Some 60%Z) custom false []
                (fst run) (snd run) request res Hnodup Hrun Hin
                (fun H => H)) as Hheaders.
  repeat split; rewrite Hheaders; reflexivity.
Defined.

(** * Further properties of [path_from_imagestore_string] *)

Lemma contains_false_find sep s :
  str_contains sep s = false -> str_find sep s = None.
Proof.
  induction s as [|c s IH]; cbn [str_find str_contains]; intros Hc;
    apply orb_false_elim in Hc as [Hstart Hc]; rewrite Hstart.
  - reflexivity.
  - now rewrite (IH Hc).
Qed.

Lemma str_find_app p s : str_find p (p ++ s) = Some 0%nat.
Proof.
  pose proof (startswith_app p s) as H.
  destruct (p ++ s); cbn [str_find]; now rewrite H.
Qed.

(** X15.  [path_from_imagestore_string] never raises, although it
    indexes the split list at 1: without a connection string, with an
    empty one and with one that lacks [file:] it returns [False]; with
    [file:] at index [i] it returns the text after that marker, up to the
    next [file:] if there is one. *)
Theorem path_from_imagestore_string_total imagestore_connstr :
  path_from_imagestore_string imagestore_connstr
  = Ok match imagestore_connstr with
       | None => PyBool false
       | Some s =>
           match str_find "file:" s with
           | None => PyBool false
           | Some i =>
               let rest := str_drop (i + 5) s in
               PyStr match str_find "file:" rest with
                     | Some j => str_take j rest
                     | None => rest
                     end
           end
       end.
Proof.
  destruct imagestore_connstr as [s|]; [|reflexivity].
  destruct (str_find "file:" s) as [i|] eqn:Hfind.
  - now rewrite (path_from_imagestore_string_piece s i Hfind).
  - unfold path_from_imagestore_string.
    rewrite (find_none _ _ Hfind). now rewrite andb_false_r.
Qed.

(** X16.  A connection string made of [file:] and a share path that does
    not itself contain [file:] gives back exactly that share path. *)
Theorem path_from_imagestore_string_round_trip share :
  str_contains "file:" share = false ->
  path_from_imagestore_string (Some ("file:" ++ share)) = Ok (PyStr share).
Proof.
  intros Hshare.
  rewrite (path_from_imagestore_string_single_marker ("file:" ++ share) 0).
  - reflexivity.
  - apply str_find_app.
  - cbn [Nat.add str_drop append]. now apply contains_false_find.
Qed.

Lemma path_from_imagestore_string_round_trip_witness :
  str_contains "file:" "/mnt/share" = false
  /\ path_from_imagestore_string (Some "file:/mnt/share")
     = Ok (PyStr "/mnt/share").
Proof.
  split; [reflexivity|].
  apply (path_from_imagestore_string_round_trip "/mnt/share"). reflexivity.
Defined.

(** * Further properties of the application commands *)

(** ** Parameters *)

Lemma value_index_in d k v :
  NoDup (map fst d) -> In (k, v) d -> value_index k d = Ok v.
Proof.
  induction d as [|[k' v'] d IH]; cbn [map fst value_index In];
    intros Hnd Hin; [contradiction|].
  inversion Hnd as [|? ? Hnotin Hnd']; subst.
  destruct Hin as [Heq|Hin].
  - inversion Heq; subst. now rewrite String.eqb_refl.
  - destruct (String.eqb_spec k' k) as [->|_].
    + exfalso. apply Hnotin. now apply (in_map fst _ (k, v)).
    + now apply IH.
Qed.

Lemma value_index_key d k :
  In k (map fst d) -> exists v, value_index k d = Ok v.
Proof.
  induction d as [|[k' v'] d IH]; cbn [map fst value_index In];
    intros Hin; [contradiction|].
  destruct (String.eqb_spec k' k) as [->|Hne].
  - now exists v'.
  - destruct Hin as [Heq|Hin]; [contradiction | now apply IH].
Qed.

Lemma collect_parameters d l :
  (forall kv, In kv l -> value_index (fst kv) d = Ok (snd kv)) ->
  collect (fun k =>
             v <-- value_index k d ;;
             Ok {| parameter_key := k; parameter_value := v |})
          (map fst l)
  = Ok (map (fun kv => {| parameter_key := fst kv;
                          parameter_value := snd kv |}) l).
Proof.
  induction l as [|kv l IH]; intros Hl; [reflexivity|].
  cbn [map collect]. rewrite (Hl kv) by now left.
  cbn [rbind]. rewrite IH by (intros; apply Hl; now right).
  reflexivity.
Qed.

Lemma collect_parameter_keys d keys :
  (forall k, In k keys -> In k (map fst d)) ->
  exists res,
    collect (fun k =>
               v <-- value_index k d ;;
               Ok {| parameter_key := k; parameter_value := v |})
            keys
    = Ok res
    /\ map parameter_key res = keys.
Proof.
  induction keys as [|k keys IH]; intros Hkeys.
  - now exists [].
  - destruct (value_index_key d k) as [v Hv]; [apply Hkeys; now left|].
    destruct IH as (res & Hres & Hmap); [intros; apply Hkeys; now right|].
    exists ({| parameter_key := k; parameter_value := v |} :: res).
    cbn [collect]. rewrite Hv. cbn [rbind]. rewrite Hres. cbn [rbind map].
    split; [reflexivity|]. cbn [parameter_key]. now rewrite Hmap.
Qed.

(** [parse_app_params] never raises: every key it looks up comes from
    the dictionary itself. *)
Lemma parse_app_params_keys formatted_params :
  exists res,
    parse_app_params formatted_params = Ok res
    /\ option_map (map parameter_key) res
       = option_map (map fst) formatted_params.
Proof.
  destruct formatted_params as [d|]; [|now exists None].
  destruct (collect_parameter_keys d (map fst d)) as (res & Hres & Hmap);
    [auto|].
  exists (Some res). unfold parse_app_params. rewrite Hres. cbn [rbind].
  split; [reflexivity|]. cbn [option_map]. now rewrite Hmap.
Qed.

(** X17.  For a dictionary (no key twice), [parse_app_params] returns one
    parameter per entry, in the order of the dictionary, each with the key
    and the value of its entry; the lookup by key never fails. *)
Theorem parse_app_params_pairs d :
  NoDup (map fst d) ->
  parse_app_params (Some d)
  = Ok (Some (map (fun kv => {| parameter_key := fst kv;
                                parameter_value := snd kv |}) d)).
Proof.
  intros Hnd. unfold parse_app_params.
  rewrite (collect_parameters d d).
  - reflexivity.
  - intros [k v] Hin. now apply value_index_in.
Qed.

Lemma parse_app_params_pairs_witness :
  let d := [("Mode", VStr "fast"); ("Count", VInt 3)] in
  NoDup (map fst d)
  /\ parse_app_params (Some d)
     = Ok (Some [ {| parameter_key := "Mode"; parameter_value := VStr "fast" |};
                  {| parameter_key := "Count"; parameter_value := VInt 3 |} ]).
Proof.
  intros d.
  assert (Hnd : NoDup (map fst d)).
  { repeat constructor; cbn; intuition discriminate. }
  split; [exact Hnd|].
  exact (parse_app_params_pairs d Hnd).
Defined.

(** ** Metrics *)

Lemma collect_metrics metrics :
  collect parse_app_metric metrics
  = if forallb (fun m => value_truthy (value_get "name" m)) metrics then
      Ok (map (fun m =>
                 {| metric_name := value_get "name" m;
                    metric_maximum_capacity := value_get "maximum_capacity" m;
                    metric_reservation_capacity :=
                      value_get "reservation_capacity" m;
                    metric_total_application_capacity :=
                      value_get "total_application_capacity" m |})
              metrics)
    else Raise (CLIError "Could not find required application metric name").
Proof.
  induction metrics as [|m metrics IH]; [reflexivity|].
  cbn [collect forallb map]. unfold parse_app_metric at 1.
  destruct (value_truthy (value_get "name" m)); cbn [negb rbind andb].
  - rewrite IH.
    now destruct (forallb (fun m => value_truthy (value_get "name" m))
                    metrics).
  - reflexivity.
Qed.

(** X18.  [parse_app_metrics] raises
    [CLIError('Could not find required application metric name')] exactly
    when some metric has no name or a falsy one (empty string, zero,
    [None]), wherever in the list it is; otherwise it returns one
    description per metric, in order, with the four fields read from the
    metric and [None] for a capacity that is absent. *)
Theorem parse_app_metrics_cases metrics :
  parse_app_metrics (Some metrics)
  = if forallb (fun m => value_truthy (value_get "name" m)) metrics then
      Ok (Some
            (map (fun m =>
                    {| metric_name := value_get "name" m;
                       metric_maximum_capacity :=
                         value_get "maximum_capacity" m;
                       metric_reservation_capacity :=
                         value_get "reservation_capacity" m;
                       metric_total_application_capacity :=
                         value_get "total_application_capacity" m |})
                 metrics))
    else Raise (CLIError "Could not find required application metric name").
Proof.
  unfold parse_app_metrics. rewrite collect_metrics.
  now destruct (forallb (fun m => value_truthy (value_get "name" m)) metrics).
Qed.

(** ** [create] *)

(** X19.  [create] calls the client at most once, and only with node
    counts that are both zero or both non-zero with the minimum not above
    the maximum, and with metrics that all have a name; it then passes the
    names, the counts and the timeout unchanged, one parameter per key and
    one description per metric, and its outcome is the one of the client.
    In every other case it raises a [CLIError] without calling the
    client. *)
Theorem create_cases app_name app_type app_version parameters
    min_node_count max_node_count metrics timeout :
  if (((min_node_count =? 0) && (max_node_count =? 0)
       || negb (min_node_count =? 0) && negb (max_node_count =? 0)
          && (min_node_count <=? max_node_count))%Z
      && match metrics with
         | None => true
         | Some ms => forallb (fun m => value_truthy (value_get "name" m)) ms
         end)%bool
  then
    exists app_params app_metrics,
      (forall create_application,
          create create_application app_name app_type app_version parameters
            min_node_count max_node_count metrics timeout
          = create_application
              {| application_name := app_name;
                 application_type_name := app_type;
                 application_type_version := app_version;
                 application_parameter_list := app_params;
                 application_capacity :=
                   {| minimum_nodes := min_node_count;
                      maximum_nodes := max_node_count;
                      application_metrics := app_metrics |} |}
              timeout)
      /\ option_map (map parameter_key) app_params
         = option_map (map fst) parameters
      /\ option_map (map metric_name) app_metrics
         = option_map (map (value_get "name")) metrics
  else
    exists msg,
      forall create_application,
        create create_application app_name app_type app_version parameters
          min_node_count max_node_count metrics timeout
        = Raise (CLIError msg).
Proof.
  destruct (parse_app_params_keys parameters) as (app_params & Hp & Hkeys).
  unfold create, int_truthy. rewrite Hp. cbn [rbind].
  destruct (Z.eqb_spec min_node_count 0) as [Hmin|Hmin];
    destruct (Z.eqb_spec max_node_count 0) as [Hmax|Hmax];
    cbn [negb andb orb].
  - (* both zero *)
    destruct metrics as [ms|].
    + unfold parse_app_metrics. rewrite collect_metrics.
      destruct (forallb (fun m => value_truthy (value_get "name" m)) ms).
      * exists app_params. eexists. split; [reflexivity|].
        split; [exact Hkeys|]. cbn [option_map]. now rewrite map_map.
      * eexists. reflexivity.
    + exists app_params, None. repeat split. exact Hkeys.
  - eexists. reflexivity.
  - eexists. reflexivity.
  - destruct (Z.leb_spec min_node_count max_node_count) as [Hle|Hgt].
    + assert (Hlt : (max_node_count <? min_node_count)%Z = false)
        by now apply Z.ltb_ge.
      rewrite Hlt.
      destruct metrics as [ms|].
      * unfold parse_app_metrics. rewrite collect_metrics.
        destruct (forallb (fun m => value_truthy (value_get "name" m)) ms).
        -- exists app_params. eexists. split; [reflexivity|].
           split; [exact Hkeys|]. cbn [option_map]. now rewrite map_map.
        -- eexists. reflexivity.
      * exists app_params, None. repeat split. exact Hkeys.
    + assert (Hlt : (max_node_count <? min_node_count)%Z = true)
        by now apply Z.ltb_lt.
      rewrite Hlt. eexists. reflexivity.
Qed.

(** X20.  Node counts of which only one is zero, or with the minimum above
    the maximum, make [create] raise the [CLIError] of that case, whatever
    the parameters, the metrics and the client are: the counts are checked
    before the metrics are parsed. *)
Theorem create_node_count_errors create_application app_name app_type
    app_version parameters min_node_count max_node_count metrics timeout :
  ~ ((min_node_count = 0 /\ max_node_count = 0)
     \/ (min_node_count <> 0 /\ max_node_count <> 0
         /\ min_node_count <= max_node_count))%Z ->
  create create_application app_name app_type app_version parameters
    min_node_count max_node_count metrics timeout
  = Raise (CLIError
             (if ((min_node_count =? 0) || (max_node_count =? 0))%Z then
                "Must specify both maximum and minimum node count"
              else
                "The minimum node reserve capacity count cannot be greater than the maximum node count")).
Proof.
  intros Hbad. unfold create, int_truthy.
  destruct (Z.eqb_spec min_node_count 0) as [Hmin|Hmin];
    destruct (Z.eqb_spec max_node_count 0) as [Hmax|Hmax];
    cbn [negb andb orb]; try reflexivity.
  - exfalso. apply Hbad. now left.
  - destruct (Z.ltb_spec max_node_count min_node_count) as [Hlt|Hge];
      [reflexivity|].
    exfalso. apply Hbad. right. auto.
Qed.

Lemma create_node_count_errors_witness :
  ~ ((3 = 0 /\ 0 = 0) \/ (3 <> 0 /\ 0 <> 0 /\ 3 <= 0))%Z
  /\ create (fun _ _ => Ok tt) "fabric:/app" "AppType" "1.0" None 3 0
       (Some [[("maximum_capacity", VInt 4)]]) 60
     = Raise (CLIError "Must specify both maximum and minimum node count").
Proof.
  assert (H : ~ ((3 = 0 /\ 0 = 0) \/ (3 <> 0 /\ 0 <> 0 /\ 3 <= 0))%Z) by lia.
  split; [exact H|].
  exact (create_node_count_errors (fun _ _ => Ok tt) "fabric:/app" "AppType"
           "1.0" None 3 0 (Some [[("maximum_capacity", VInt 4)]]) 60 H).
Defined.

(** * How [upload] dispatches *)

(** X21.  [upload] checks the path first, the trust settings second and
    the connection string last.  A connection string that contains
    [file:] always leads to the file-share transfer, into the directory
    named by the text after the first [file:] (up to the next one) joined
    with the name of the package: the [False] of
    [path_from_imagestore_string] never reaches [os.path.join].  Without
    [file:], only [fabric:ImageStore] is accepted, and leads to the
    native transfer with the configured session and endpoint. *)
Theorem upload_dispatch env path imagestore_string show tr :
  let abspath := abspath (env_cwd env) path in
  let sesh :=
    {| verify :=
         if no_verify_setting env then VerifyFalse
         else match ca_cert_info env with
              | Some bundle => if bundle =? "" then VerifyTrue
                               else VerifyBundle bundle
              | None => VerifyTrue
              end;
       cert := cert_info env |} in
  upload env path imagestore_string show tr
  = if negb (env_isdir env tr abspath) then
      (Raise (ValueError ("Invalid path to application directory: "
                          ++ abspath)), tr)
    else if no_verify_setting env && truthy (ca_cert_info env) then
      (Raise (CLIError "Cannot specify both CA cert info and no verify"), tr)
    else
      match str_find "file:" imagestore_string with
      | Some i =>
          let rest := str_drop (i + 5) imagestore_string in
          let dest_path :=
            match str_find "file:" rest with
            | Some j => str_take j rest
            | None => rest
            end in
          upload_to_fileshare env abspath
            (path_join dest_path [basename abspath]) show tr
      | None =>
          if imagestore_string =? "fabric:ImageStore" then
            upload_to_native_imagestore env sesh (client_endpoint env)
              abspath (basename abspath) show tr
          else
            (Raise (CLIError "Unsupported image store connection string"),
             tr)
      end.
Proof.
  intros abspath0 sesh0. rewrite upload_cases. cbv zeta.
  fold abspath0. fold sesh0.
  destruct (negb (env_isdir env tr abspath0)); [reflexivity|].
  destruct (no_verify_setting env && truthy (ca_cert_info env));
    [reflexivity|].
  destruct (str_find "file:" imagestore_string) as [i|] eqn:Hfind.
  - rewrite (find_contains _ _ _ Hfind).
    now rewrite (path_from_imagestore_string_piece _ i Hfind).
  - now rewrite (find_none _ _ Hfind).
Qed.

(** * The URLs of the requests *)

(** ** Characters and strings *)


















(** ** Parsing a URL that was put together

    The characters that end a component or that [urlsplit] drops do not
    occur in a scheme, a plain network location or a path of the kinds
    defined above. *)













(** ** The URL of a PUT *)









